(** * Secure-Password-Generator: generator and strength analyzer

    A shallow embedding of [src/js/password-generator.js] (class
    [PasswordGenerator]) and of the strength-analysis module (class
    [PasswordStrengthAnalyzer]), with the properties stated about them.

    Modelling conventions.
    - A JavaScript string is a list of code units; the code units modelled
      are the 8-bit ones ([ascii], U+0000..U+00FF).  Every character the
      generator can emit is in that range.
    - JavaScript integers are [Z].  The doubles of the source are exact on
      the integers that occur in the generator (all far below 2^53); the
      module [Rounded] has the sampler with the rounding written out, for
      the ranges where it matters.
    - The secure byte source [window.crypto.getRandomValues] is a stream
      [rng : nat -> Z] read at an explicit position; a [Uint8Array] cell
      keeps its value modulo 256.
    - The recursion of [getSecureRandomInt] is bounded by a [fuel]: the
      depth of the call stack.  Running out of it is the engine's
      "Maximum call stack size exceeded" [RangeError].
    - Entropy figures are real numbers (IEEE rounding is idealised), with
      [NaN] and the two infinities kept as separate values; [Math.pow]
      overflows to [Infinity] from 2^1024 on. *)

From Stdlib Require Import ZArith List Ascii String Bool Lia Arith Reals Lra.
Import ListNotations.

(** ** JavaScript strings *)

Module Js.

Definition jsstring := list ascii.

(** A string literal of the source, as a list of code units. *)
Definition lit (s : string) : jsstring := list_ascii_of_string s.

(** [s.includes(c)] for a one-character [c]. *)
Definition includes_char (s : jsstring) (c : ascii) : bool :=
  existsb (Ascii.eqb c) s.

(** [s.replace(c, rep)] with a one-character string pattern [c]: only the
    first occurrence of [c] is replaced. *)
Fixpoint replace_first (c : ascii) (rep s : jsstring) : jsstring :=
  match s with
  | [] => []
  | x :: r => if Ascii.eqb x c then rep ++ r else x :: replace_first c rep r
  end.

(** [s[i]]: [None] stands for [undefined]. *)
Definition char_at (s : jsstring) (i : Z) : option ascii :=
  if (i <? 0)%Z then None else nth_error s (Z.to_nat i).

(** [s[i]] used in a string concatenation: [undefined] becomes the text
    "undefined". *)
Definition char_text (s : jsstring) (i : Z) : jsstring :=
  match char_at s i with
  | Some c => [c]
  | None => lit "undefined"
  end.

(** Clamp an index into [0, len] as [substring] does. *)
Definition clamp (len i : Z) : Z := Z.min (Z.max i 0) len.

(** [s.substring(a, b)]: both indices clamped, swapped when [a > b]. *)
Definition substring (s : jsstring) (a b : Z) : jsstring :=
  let len := Z.of_nat (List.length s) in
  let a' := clamp len a in
  let b' := clamp len b in
  let lo := Z.min a' b' in
  let hi := Z.max a' b' in
  firstn (Z.to_nat (hi - lo)) (skipn (Z.to_nat lo) s).

(** [s.substring(a)]: up to the end of the string. *)
Definition substring_from (s : jsstring) (a : Z) : jsstring :=
  substring s a (Z.of_nat (List.length s)).

(** [s.startsWith(p)], the anchored match of a literal. *)
Fixpoint starts_with (p s : jsstring) : bool :=
  match p, s with
  | [], _ => true
  | _ :: _, [] => false
  | x :: p', y :: s' => Ascii.eqb x y && starts_with p' s'
  end.

(** [s.includes(sub)]: [sub] occurs somewhere in [s]. *)
Fixpoint includes (s sub : jsstring) : bool :=
  starts_with sub s ||
  match s with
  | [] => false
  | _ :: r => includes r sub
  end.

(** Code unit of a character. *)
Definition code (c : ascii) : nat := nat_of_ascii c.

Definition in_range (lo hi : nat) (c : ascii) : bool :=
  (lo <=? code c)%nat && (code c <=? hi)%nat.

(** [String.prototype.toLowerCase] on the code units U+0000..U+00FF: the
    letters A-Z, and the Latin-1 capitals U+00C0..U+00DE except U+00D7,
    move up by 32; every other unit is unchanged. *)
Definition lower_char (c : ascii) : ascii :=
  if in_range 65 90 c then ascii_of_nat (code c + 32)
  else if in_range 192 222 c && negb (code c =? 215)%nat
       then ascii_of_nat (code c + 32)
       else c.

Definition toLowerCase (s : jsstring) : jsstring := map lower_char s.

(** The character classes of the regular expressions. *)
Definition isUpper (c : ascii) : bool := in_range 65 90 c.      (* [A-Z] *)
Definition isLower (c : ascii) : bool := in_range 97 122 c.     (* [a-z] *)
Definition isDigit (c : ascii) : bool := in_range 48 57 c.      (* [0-9] *)
Definition isSymbol (c : ascii) : bool :=                       (* [^A-Za-z0-9] *)
  negb (isUpper c || isLower c || isDigit c).
Definition isLetter (c : ascii) : bool := isUpper c || isLower c. (* [a-z] with /i *)
Definition isAlnum (c : ascii) : bool := isLetter c || isDigit c. (* [a-z0-9] with /i *)

(** The class matched by [.]: any code unit that is not a line terminator
    (of LF, CR, U+2028 and U+2029 the first two are 8-bit units). *)
Definition isLineTerminator (c : ascii) : bool :=
  (code c =? 10)%nat || (code c =? 13)%nat.
Definition dot (c : ascii) : bool := negb (isLineTerminator c).

(** [/[...]/.test(s)] for a one-character class. *)
Definition test_class (cls : ascii -> bool) (s : jsstring) : bool :=
  existsb cls s.

End Js.

(** ** JavaScript numbers that are not integers *)

Module Num.
Local Open Scope R_scope.

Inductive number : Type :=
| NaN
| NegInfinity
| Finite (r : R)
| Infinity.

(** [a < b] and [a <= b] on numbers; false as soon as a [NaN] is involved. *)
Definition lt (a b : number) : Prop :=
  match a, b with
  | NaN, _ | _, NaN => False
  | NegInfinity, NegInfinity => False
  | NegInfinity, _ => True
  | Finite _, NegInfinity => False
  | Finite x, Finite y => x < y
  | Finite _, Infinity => True
  | Infinity, _ => False
  end.

Definition le (a b : number) : Prop :=
  match a, b with
  | NaN, _ | _, NaN => False
  | NegInfinity, _ => True
  | Finite _, NegInfinity => False
  | Finite x, Finite y => x <= y
  | Finite _, Infinity => True
  | Infinity, Infinity => True
  | Infinity, _ => False
  end.

(** The comparison operators [<] and [>=] as the code tests them. *)
Definition ltb (a b : number) : bool :=
  match a, b with
  | NaN, _ | _, NaN => false
  | NegInfinity, NegInfinity => false
  | NegInfinity, _ => true
  | Finite _, NegInfinity => false
  | Finite x, Finite y => if Rlt_dec x y then true else false
  | Finite _, Infinity => true
  | Infinity, _ => false
  end.

Definition geb (a b : number) : bool :=
  match b, a with
  | NaN, _ | _, NaN => false
  | NegInfinity, _ => true
  | Finite _, NegInfinity => false
  | Finite x, Finite y => if Rle_dec x y then true else false
  | Finite _, Infinity => true
  | Infinity, Infinity => true
  | Infinity, _ => false
  end.

(** [Math.pow(b, e)] for integers [b >= 0] and [e >= 0]; [0^0] is 1. *)
Definition Math_pow (b : Z) (e : nat) : number :=
  if (2 ^ 1024 <=? b ^ Z.of_nat e)%Z then Infinity
  else Finite (IZR (b ^ Z.of_nat e)).

(** The base-2 logarithm of a positive real. *)
Definition log2 (x : R) : R := ln x / ln 2.

(** [Math.log2]. *)
Definition Math_log2 (x : number) : number :=
  match x with
  | NaN | NegInfinity => NaN
  | Finite r =>
      if Rlt_dec r 0 then NaN
      else if Rlt_dec 0 r then Finite (log2 r)
      else NegInfinity
  | Infinity => Infinity
  end.

(** [x - p] for a finite [p]. *)
Definition sub (x : number) (p : R) : number :=
  match x with
  | Finite r => Finite (r - p)
  | other => other
  end.

(** [Math.max(0, x)]. *)
Definition Math_max0 (x : number) : number :=
  match x with
  | NaN => NaN
  | NegInfinity => Finite 0
  | Finite r => Finite (Rmax 0 r)
  | Infinity => Infinity
  end.

(** [Math.round]: the nearest integer, halves upwards. *)
Definition Math_round (x : number) : number :=
  match x with
  | Finite r => Finite (IZR (Zfloor (r + / 2)))
  | other => other
  end.

End Num.

(** ** The generator: [class PasswordGenerator] *)

Module Generator.
Import Js.
Local Open Scope Z_scope.

Definition uppercaseChars : jsstring := lit "ABCDEFGHIJKLMNOPQRSTUVWXYZ".
Definition lowercaseChars : jsstring := lit "abcdefghijklmnopqrstuvwxyz".
Definition numberChars : jsstring := lit "0123456789".
Definition symbolChars : jsstring := lit "!@#$%^&*()_+-=[]{}|;:,.<>?".
Definition similarChars : jsstring := lit "1lI0O".

(** [this.options]. *)
Record options : Type := mkOptions {
  length : Z;
  uppercase : bool;
  lowercase : bool;
  numbers : bool;
  symbols : bool;
  excludeSimilar : bool
}.

(** What a call can throw.  The source has no error class of its own; both
    are [RangeError]s of the engine. *)
Inductive error : Type :=
| InvalidTypedArrayLength   (* new Uint8Array(-Infinity) *)
| CallStackExceeded.        (* unbounded recursion of the sampler *)

(** A computation reads the byte stream from a position and either returns
    a value with the next position or throws. *)
Inductive result (A : Type) : Type :=
| Ok (a : A) (pos : nat)
| Err (e : error).
Arguments Ok {A} a pos.
Arguments Err {A} e.

Definition M (A : Type) : Type := nat -> result A.

Definition ret {A} (a : A) : M A := fun pos => Ok a pos.

Definition bind {A B} (m : M A) (f : A -> M B) : M B :=
  fun pos =>
    match m pos with
    | Ok a pos' => f a pos'
    | Err e => Err e
    end.

Notation "x <- m ;; k" := (bind m (fun x => k))
  (at level 61, m at next level, right associativity).

(** [s.length] as a number. *)
Definition len (s : jsstring) : Z := Z.of_nat (List.length s).

(** [Math.ceil(Math.log2(range) / 8)] for [range >= 1]. *)
Definition bytesNeeded (range : Z) : nat :=
  Z.to_nat ((Z.log2_up range + 7) / 8).

(** The loop [value = value * 256 + array[i]]: the array read as a
    big-endian number. *)
Definition bigEndian (array : list Z) : Z :=
  fold_left (fun value b => value * 256 + b) array 0.

(** The test guarding the retry, [value >= maxValue - (maxValue % range)]. *)
Definition rejected (range maxValue value : Z) : bool :=
  value >=? maxValue - Z.rem maxValue range.

(** The loop of [generatePassword] and of [ensureAllCharTypes] that removes
    the similar characters, one [replace] each. *)
Definition removeSimilar (s : jsstring) : jsstring :=
  fold_left (fun acc c => replace_first c [] acc) similarChars s.

(** The character set [generatePassword] draws from. *)
Definition buildCharset (o : options) : jsstring :=
  let charset := [] in
  let charset := if uppercase o then charset ++ uppercaseChars else charset in
  let charset := if lowercase o then charset ++ lowercaseChars else charset in
  let charset := if numbers o then charset ++ numberChars else charset in
  let charset := if symbols o then charset ++ symbolChars else charset in
  let charset := if excludeSimilar o then removeSimilar charset else charset in
  if len charset =? 0 then lowercaseChars ++ numberChars else charset.

(** [requiredSets] of [ensureAllCharTypes]. *)
Definition requiredSets (o : options) : list jsstring :=
  let requiredSets := [] in
  let requiredSets :=
    if uppercase o then requiredSets ++ [uppercaseChars] else requiredSets in
  let requiredSets :=
    if lowercase o then requiredSets ++ [lowercaseChars] else requiredSets in
  let requiredSets :=
    if numbers o then requiredSets ++ [numberChars] else requiredSets in
  let requiredSets :=
    if symbols o then requiredSets ++ [symbolChars] else requiredSets in
  requiredSets.

(** [charSet.split('').every(char => this.similarChars.includes(char))]. *)
Definition everySimilar (charSet : jsstring) : bool :=
  forallb (includes_char similarChars) charSet.

(** The scan [for (const char of modifiedPassword)] for a character of
    [charSet]. *)
Definition hasCharFromSet (charSet modifiedPassword : jsstring) : bool :=
  existsb (includes_char charSet) modifiedPassword.

Section WithSource.

(** The secure byte source and the depth of stack available to the
    sampler. *)
Variable rng : nat -> Z.
Variable fuel : nat.

(** [new Uint8Array(n)] filled by [crypto.getRandomValues]. *)
Definition getRandomValues (n pos : nat) : list Z :=
  map (fun i => rng i mod 256) (seq pos n).

Fixpoint getSecureRandomInt_rec (depth : nat) (min max : Z) (pos : nat)
  : result Z :=
  match depth with
  | O => Err CallStackExceeded
  | S depth' =>
    let range := max - min + 1 in
    if range <? 0 then
      (* log2 is NaN: a zero-length array, every comparison false *)
      Ok (min + Z.rem 0 range) pos
    else if range =? 0 then
      (* log2 is -Infinity: the typed array cannot be built *)
      Err InvalidTypedArrayLength
    else
      let n := bytesNeeded range in
      let maxValue := 256 ^ Z.of_nat n in
      let array := getRandomValues n pos in
      let value := bigEndian array in
      if rejected range maxValue value
      then getSecureRandomInt_rec depth' min max (pos + n)
      else Ok (min + Z.rem value range) (pos + n)%nat
  end.

Definition getSecureRandomInt (min max : Z) : M Z :=
  getSecureRandomInt_rec fuel min max.

(** The loop [for (let i = 0; i < this.options.length; i++)]. *)
Fixpoint drawPassword (count : nat) (charset password : jsstring)
  : M jsstring :=
  match count with
  | O => ret password
  | S count' =>
      randomIndex <- getSecureRandomInt 0 (len charset - 1) ;;
      drawPassword count' charset (password ++ char_text charset randomIndex)
  end.

(** One round of the loop [for (const charSet of requiredSets)]. *)
Definition ensureCharType (o : options) (modifiedPassword charSet : jsstring)
  : M jsstring :=
  if excludeSimilar o && everySimilar charSet then ret modifiedPassword
  else if negb (hasCharFromSet charSet modifiedPassword) && (len charSet >? 0)
  then
    let validChars :=
      if excludeSimilar o then removeSimilar charSet else charSet in
    if len validChars >? 0 then
      i <- getSecureRandomInt 0 (len validChars - 1) ;;
      let randomCharFromSet := char_text validChars i in
      randomPositionToReplace <-
        getSecureRandomInt 0 (len modifiedPassword - 1) ;;
      ret (substring modifiedPassword 0 randomPositionToReplace
           ++ randomCharFromSet
           ++ substring_from modifiedPassword (randomPositionToReplace + 1))
    else ret modifiedPassword
  else ret modifiedPassword.

Fixpoint ensureLoop (o : options) (sets : list jsstring)
  (modifiedPassword : jsstring) : M jsstring :=
  match sets with
  | [] => ret modifiedPassword
  | charSet :: sets' =>
      modifiedPassword' <- ensureCharType o modifiedPassword charSet ;;
      ensureLoop o sets' modifiedPassword'
  end.

Definition ensureAllCharTypes (o : options) (password charset : jsstring)
  : M jsstring :=
  ensureLoop o (requiredSets o) password.

Definition generatePassword (o : options) : M jsstring :=
  let charset := buildCharset o in
  password <- drawPassword (Z.to_nat (length o)) charset [] ;;
  ensureAllCharTypes o password charset.

End WithSource.

(** The part of the object returned by [calculateStrength] that the
    properties below are about. *)
Record strength : Type := mkStrength {
  entropy : Num.number;
  strengthLevel : jsstring
}.

Definition calculateStrength (password : jsstring) : strength :=
  let charsetSize := 0 in
  let charsetSize :=
    if test_class isUpper password then charsetSize + 26 else charsetSize in
  let charsetSize :=
    if test_class isLower password then charsetSize + 26 else charsetSize in
  let charsetSize :=
    if test_class isDigit password then charsetSize + 10 else charsetSize in
  let charsetSize :=
    if test_class isSymbol password then charsetSize + 33 else charsetSize in
  let entropy :=
    Num.Math_log2 (Num.Math_pow charsetSize (List.length password)) in
  let strengthLevel :=
    if Num.ltb entropy (Num.Finite 40) then lit "weak"
    else if Num.ltb entropy (Num.Finite 60) then lit "medium"
    else if Num.ltb entropy (Num.Finite 80) then lit "strong"
    else lit "very-strong" in
  {| entropy := Num.Math_round entropy; strengthLevel := strengthLevel |}.

End Generator.

(** ** The sampler in the engine's numbers

    [getSecureRandomInt] once more, with the rounding of the engine's
    numbers written out.  The numbers met are integers of a magnitude far
    below 2^1024, so nothing overflows; [Math.log2] is read as in
    [Generator.bytesNeeded], which leaves the ceiling as the engine has it
    wherever the logarithm is not within a few units in the last place of
    a multiple of 8. *)

Module Rounded.
Import Js Generator.
Local Open Scope Z_scope.

(** An integer as a number: the nearest integer of 53 significant bits,
    the even one of two that are equally near. *)
Definition toNumber (z : Z) : Z :=
  let a := Z.abs z in
  if a <=? 2 ^ 53 then z
  else
    let e := Z.log2 a - 52 in
    let q := a / 2 ^ e in
    let r := a mod 2 ^ e in
    let half := 2 ^ (e - 1) in
    let q := if (half <? r) || ((r =? half) && Z.odd q) then q + 1 else q in
    Z.sgn z * (q * 2 ^ e).

(** [a + b] and [a - b]. *)
Definition add (a b : Z) : Z := toNumber (a + b).
Definition sub (a b : Z) : Z := toNumber (a - b).

(** The loop [value = (value * 256) + array[i]]; the product by 256 is
    exact. *)
Definition bigEndian (array : list Z) : Z :=
  fold_left (fun value b => add (value * 256) b) array 0.

(** [value >= maxValue - (maxValue % range)]; the remainder is exact. *)
Definition rejected (range maxValue value : Z) : bool :=
  value >=? sub maxValue (Z.rem maxValue range).

Section WithSource.

Variable rng : nat -> Z.
Variable fuel : nat.

Fixpoint getSecureRandomInt_rec (depth : nat) (min max : Z) (pos : nat)
  : result Z :=
  match depth with
  | O => Err CallStackExceeded
  | S depth' =>
    let range := add (sub max min) 1 in
    if range <? 0 then
      Ok (add min (Z.rem 0 range)) pos
    else if range =? 0 then
      Err InvalidTypedArrayLength
    else
      let n := bytesNeeded range in
      let maxValue := 256 ^ Z.of_nat n in
      let array := getRandomValues rng n pos in
      let value := bigEndian array in
      if rejected range maxValue value
      then getSecureRandomInt_rec depth' min max (pos + n)
      else Ok (add min (Z.rem value range)) (pos + n)%nat
  end.

Definition getSecureRandomInt (min max : Z) : M Z :=
  getSecureRandomInt_rec fuel min max.

End WithSource.

End Rounded.

(** ** The strength analyzer: [class PasswordStrengthAnalyzer] *)

Module Analyzer.
Import Js Num.
Local Open Scope R_scope.

(** A strength level: a range of entropy with its display data. *)
Record level : Type := mkLevel {
  min : number;
  max : number;
  label : jsstring;
  color : jsstring
}.

Module STRENGTH_LEVELS.
Definition VERY_WEAK : level :=
  mkLevel (Finite 0) (Finite 30) (lit "Very Weak") (lit "#FF5252").
Definition WEAK : level :=
  mkLevel (Finite 30) (Finite 50) (lit "Weak") (lit "#FF5252").
Definition MEDIUM : level :=
  mkLevel (Finite 50) (Finite 70) (lit "Medium") (lit "#FFAB00").
Definition STRONG : level :=
  mkLevel (Finite 70) (Finite 90) (lit "Strong") (lit "#00C853").
Definition VERY_STRONG : level :=
  mkLevel (Finite 90) Infinity (lit "Very Strong") (lit "#64FFDA").

(** [Object.entries(this.STRENGTH_LEVELS)], in insertion order. *)
Definition entries : list (string * level) :=
  [ ("VERY_WEAK"%string, VERY_WEAK); ("WEAK"%string, WEAK);
    ("MEDIUM"%string, MEDIUM); ("STRONG"%string, STRONG);
    ("VERY_STRONG"%string, VERY_STRONG) ].
End STRENGTH_LEVELS.

(** A named security standard. *)
Record standard : Type := mkStandard {
  minLength : Z;
  requiresComplexity : bool
}.

Module SECURITY_STANDARDS.
Definition NIST : standard := mkStandard 8 false.
Definition OWASP : standard := mkStandard 10 true.
Definition MICROSOFT : standard := mkStandard 8 true.
End SECURITY_STANDARDS.

(** [password.length]. *)
Definition len (s : jsstring) : Z := Z.of_nat (List.length s).

(** How many copies of [c] start [s]: what a greedy [\1+] or [\1{2,}]
    consumes after the group [(.)] has captured [c]. *)
Fixpoint run_length (c : ascii) (s : jsstring) : nat :=
  match s with
  | [] => O
  | x :: r => if Ascii.eqb x c then S (run_length c r) else O
  end.

(** The matches of [/(.)\1+/g], left to right.  [skip] counts the code
    units that the previous match still covers: the next attempt starts
    where that match ended. *)
Fixpoint match_repeated_from (skip : nat) (s : jsstring) : list jsstring :=
  match s with
  | [] => []
  | c :: r =>
      match skip with
      | S k => match_repeated_from k r
      | O =>
          let n := run_length c r in
          if dot c && (1 <=? n)%nat
          then (c :: firstn n r) :: match_repeated_from n r
          else match_repeated_from O r
      end
  end.

(** [password.match(/(.)\1+/g)]: [None] is [null], returned when nothing
    matches. *)
Definition match_repeated (password : jsstring) : option (list jsstring) :=
  match match_repeated_from O password with
  | [] => None
  | ms => Some ms
  end.

(** How many characters of class [cls] start [s]. *)
Fixpoint span_length (cls : ascii -> bool) (s : jsstring) : nat :=
  match s with
  | [] => O
  | x :: r => if cls x then S (span_length cls r) else O
  end.

Definition nonempty (s : jsstring) : bool :=
  match s with [] => false | _ => true end.

(** [/^[a-z]+$/i]: letters only. *)
Definition pattern_letters (s : jsstring) : bool :=
  nonempty s && forallb isLetter s.

(** [/^[0-9]+$/]: numbers only. *)
Definition pattern_digits (s : jsstring) : bool :=
  nonempty s && forallb isDigit s.

(** [/^[a-z0-9]+$/i]: alphanumeric only. *)
Definition pattern_alnum (s : jsstring) : bool :=
  nonempty s && forallb isAlnum s.

(** [/^[a-z]{3,8}[0-9]{1,4}$/i]: word + numbers.  Letters and digits are
    disjoint, so the letters matched are the whole leading run. *)
Definition pattern_word_digits (s : jsstring) : bool :=
  let n := span_length isLetter s in
  let rest := skipn n s in
  (3 <=? n)%nat && (n <=? 8)%nat
  && (1 <=? List.length rest)%nat && (List.length rest <=? 4)%nat
  && forallb isDigit rest.

(** [/^(password|pass|admin|user|login)[0-9]*$/i]: common password words.
    On 8-bit code units a letter of the word matches itself in either
    case. *)
Definition pattern_common_words (s : jsstring) : bool :=
  existsb
    (fun w => starts_with w (toLowerCase s)
              && forallb isDigit (skipn (List.length w) s))
    [lit "password"; lit "pass"; lit "admin"; lit "user"; lit "login"].

(** [/^(qwerty|asdf|zxcv|1234|0000)/]: keyboard patterns. *)
Definition pattern_keyboard (s : jsstring) : bool :=
  existsb (fun w => starts_with w s)
    [lit "qwerty"; lit "asdf"; lit "zxcv"; lit "1234"; lit "0000"].

(** [/(.)\1{2,}/]: repeated characters. *)
Fixpoint pattern_repeated (s : jsstring) : bool :=
  match s with
  | [] => false
  | c :: r => (dot c && (2 <=? run_length c r)%nat) || pattern_repeated r
  end.

(** [this.COMMON_PATTERNS], each with its [test]. *)
Definition COMMON_PATTERNS : list (jsstring -> bool) :=
  [ pattern_letters; pattern_digits; pattern_alnum; pattern_word_digits;
    pattern_common_words; pattern_keyboard; pattern_repeated ].

Definition checkForCommonPatterns (password : jsstring) : bool :=
  existsb (fun pattern => pattern password) COMMON_PATTERNS.

(** The indices [0 <= i < n] of a counting loop. *)
Definition indices (n : Z) : list Z := map Z.of_nat (seq 0 (Z.to_nat n)).

(** One loop of [checkForSequentialChars]: every 3-character window of
    [source] that [text] includes adds its length. *)
Definition countSequences (source text : jsstring) (sequentialCount : Z) : Z :=
  fold_left
    (fun count i =>
       let sequence := substring source i (i + 3) in
       if includes text sequence then (count + len sequence)%Z else count)
    (indices (len source - 2)) sequentialCount.

Definition checkForSequentialChars (password : jsstring) : Z :=
  let sequentialCount := 0%Z in
  let lowerPassword := toLowerCase password in
  let alphabet := lit "abcdefghijklmnopqrstuvwxyz" in
  let sequentialCount := countSequences alphabet lowerPassword sequentialCount in
  let numbers := lit "0123456789" in
  let sequentialCount := countSequences numbers password sequentialCount in
  sequentialCount.

(** The character-set size of [calculateEntropy]. *)
Definition charsetSizeOf (password : jsstring) : Z :=
  let charsetSize := 0%Z in
  let charsetSize :=
    if test_class isUpper password then (charsetSize + 26)%Z else charsetSize in
  let charsetSize :=
    if test_class isLower password then (charsetSize + 26)%Z else charsetSize in
  let charsetSize :=
    if test_class isDigit password then (charsetSize + 10)%Z else charsetSize in
  let charsetSize :=
    if test_class isSymbol password then (charsetSize + 33)%Z else charsetSize in
  charsetSize.

(** [baseEntropy] of [calculateEntropy]. *)
Definition baseEntropy (password : jsstring) : number :=
  Math_log2 (Math_pow (charsetSizeOf password) (List.length password)).

(** The three additions to [entropyPenalty], in the order of the source. *)
Definition repeatedPenalty (password : jsstring) : R :=
  match match_repeated password with
  | Some repeatedChars =>
      IZR (fold_left (fun total m => (total + len m - 1)%Z) repeatedChars 0%Z)
      * (5 / 10)
  | None => 0
  end.

Definition sequentialPenalty (password : jsstring) : R :=
  let sequentialChars := checkForSequentialChars password in
  IZR sequentialChars * (8 / 10).

Definition patternPenalty (password : jsstring) : R :=
  if checkForCommonPatterns password then IZR (len password) * (2 / 10)
  else 0.

Definition calculateEntropy (password : jsstring) : number :=
  let baseEntropy := baseEntropy password in
  let entropyPenalty := 0 in
  let entropyPenalty := entropyPenalty + repeatedPenalty password in
  let entropyPenalty := entropyPenalty + sequentialPenalty password in
  let entropyPenalty := entropyPenalty + patternPenalty password in
  Math_max0 (sub baseEntropy entropyPenalty).

Definition getStrengthLevel (entropy : number) : level :=
  match
    find (fun entry => let range := snd entry in
                       geb entropy (min range) && ltb entropy (max range))
         STRENGTH_LEVELS.entries
  with
  | Some entry => snd entry
  | None => STRENGTH_LEVELS.VERY_STRONG
  end.

(** The object returned by [checkSecurityStandards]. *)
Record compliance : Type := mkCompliance {
  NIST : bool;
  OWASP : bool;
  MICROSOFT : bool
}.

Definition checkSecurityStandards (password : jsstring)
  (options : Generator.options) : compliance :=
  let hasUppercase := test_class isUpper password in
  let hasLowercase := test_class isLower password in
  let hasNumbers := test_class isDigit password in
  let hasSymbols := test_class isSymbol password in
  let hasComplexity :=
    (Z.b2z hasUppercase + Z.b2z hasLowercase + Z.b2z hasNumbers
     + Z.b2z hasSymbols >=? 3)%Z in
  {| NIST := (len password >=? minLength SECURITY_STANDARDS.NIST)%Z;
     OWASP := (len password >=? minLength SECURITY_STANDARDS.OWASP)%Z
              && (hasComplexity
                  || negb (requiresComplexity SECURITY_STANDARDS.OWASP));
     MICROSOFT := (len password >=? minLength SECURITY_STANDARDS.MICROSOFT)%Z
                  && (hasComplexity
                      || negb (requiresComplexity SECURITY_STANDARDS.MICROSOFT))
  |}.

(** The fields of the object returned by [analyzePassword] that carry the
    entropy, the tier and the compliance; the remaining fields are display
    figures derived from the same entropy. *)
Record report : Type := mkReport {
  entropy : number;
  strengthLevel : jsstring;
  strengthColor : jsstring;
  hasCommonPatterns : bool;
  securityStandardsCompliance : compliance
}.

Definition analyzePassword (password : jsstring) (options : Generator.options)
  : report :=
  let entropy := calculateEntropy password in
  let strengthLevel := getStrengthLevel entropy in
  let hasCommonPatterns := checkForCommonPatterns password in
  let securityStandardsCompliance := checkSecurityStandards password options in
  {| entropy := Math_round entropy;
     strengthLevel :=
       replace_first " "%char (lit "-") (toLowerCase (label strengthLevel));
     strengthColor := color strengthLevel;
     hasCommonPatterns := hasCommonPatterns;
     securityStandardsCompliance := securityStandardsCompliance |}.

End Analyzer.

(** ** Vocabulary of the properties *)

Module Spec.
Import Js Generator.
Local Open Scope Z_scope.

(** *** The sampler *)

(** One attempt of [getSecureRandomInt] on the bytes it drew: the number it
    returns, or [None] when it draws again. *)
Definition attempt (min max : Z) (bytes : list Z) : option Z :=
  let range := max - min + 1 in
  let maxValue := 256 ^ Z.of_nat (bytesNeeded range) in
  let value := bigEndian bytes in
  if rejected range maxValue value then None
  else Some (min + Z.rem value range).

(** The numbers [0 .. n-1]. *)
Definition upto (n : nat) : list Z := map Z.of_nat (seq 0 n).

(** Every byte vector of length [n], in lexicographic order. *)
Fixpoint byteVectors (n : nat) : list (list Z) :=
  match n with
  | O => [[]]
  | S n' => flat_map (fun b => map (cons b) (byteVectors n')) (upto 256)
  end.

(** The [n] bytes of the stream from position [pos]. *)
Definition bytesAt (rng : nat -> Z) (pos n : nat) : list Z :=
  map (fun i => rng i mod 256) (seq pos n).

(** A byte vector read as an unsigned big-endian number. *)
Fixpoint unsigned (bytes : list Z) : Z :=
  match bytes with
  | [] => 0
  | b :: rest => b * 256 ^ Z.of_nat (List.length rest) + unsigned rest
  end.

(** The stream that starts with [bytes]. *)
Definition stream (bytes : list Z) : nat -> Z := fun i => nth i bytes 0.

(** How many byte vectors of length [n] make a call that reads them first
    return [t] without a retry. *)
Definition sampled (min max : Z) (n : nat) (t : Z) : nat :=
  List.length
    (filter (fun bytes =>
               match getSecureRandomInt (stream bytes) 1 min max 0%nat with
               | Ok v _ => v =? t
               | Err _ => false
               end)
            (byteVectors n)).

(** How many byte vectors of length [n] make the sampler return [t]. *)
Definition hits (min max : Z) (n : nat) (t : Z) : nat :=
  List.length
    (filter (fun bytes =>
               match attempt min max bytes with
               | Some v => v =? t
               | None => false
               end)
            (byteVectors n)).

(** The [k]-th attempt of a call that starts reading at [pos] is accepted. *)
Definition accepted_at (rng : nat -> Z) (min max : Z) (pos k : nat) : Prop :=
  let n := bytesNeeded (max - min + 1) in
  attempt min max (getRandomValues rng n (pos + k * n)) <> None.

(** Within any [fuel] consecutive bytes of the stream one is below 169.
    Such a byte is accepted by every draw of the generator: its ranges are
    at most 88, so at most 87 byte values are rejected. *)
Definition fair (rng : nat -> Z) (fuel : nat) : Prop :=
  forall pos, exists k, (k < fuel)%nat /\ rng (pos + k)%nat mod 256 < 169.

(** *** The alphabet of a configuration *)

(** A valid configuration: a length of 8 to 64. *)
Definition valid (o : options) : Prop := 8 <= length o <= 64.

(** The character classes whose include-flag is true. *)
Definition enabled (o : options) (charSet : jsstring) : Prop :=
  (uppercase o = true /\ charSet = uppercaseChars)
  \/ (lowercase o = true /\ charSet = lowercaseChars)
  \/ (numbers o = true /\ charSet = numberChars)
  \/ (symbols o = true /\ charSet = symbolChars).

(** [c] is kept by the exclusion of similar characters. *)
Definition kept (o : options) (c : ascii) : Prop :=
  excludeSimilar o = true -> ~ In c similarChars.

(** [c] comes from an enabled class and is kept. *)
Definition contributed (o : options) (c : ascii) : Prop :=
  (exists charSet, enabled o charSet /\ In c charSet) /\ kept o c.

(** The alphabet implied by the configuration: the characters contributed,
    or lowercase letters and digits when no class contributes. *)
Definition in_alphabet (o : options) (c : ascii) : Prop :=
  contributed o c
  \/ ((forall d, ~ contributed o d) /\ In c (lowercaseChars ++ numberChars)).

(** [password] has a character of every enabled class that keeps a
    character. *)
Definition covers (o : options) (password : jsstring) : Prop :=
  forall charSet,
    enabled o charSet ->
    (exists c, In c charSet /\ kept o c) ->
    exists c, In c password /\ In c charSet.

(** A boolean test of [NoDup], to settle it on the literals. *)
Fixpoint distinct (s : jsstring) : bool :=
  match s with
  | [] => true
  | x :: r => negb (includes_char r x) && distinct r
  end.

(** The character set before the exclusion and the fallback. *)
Definition unfiltered (o : options) : jsstring :=
  (if uppercase o then uppercaseChars else [])
  ++ (if lowercase o then lowercaseChars else [])
  ++ (if numbers o then numberChars else [])
  ++ (if symbols o then symbolChars else []).

End Spec.

(** ** Vocabulary of the properties of the analyzer *)

Module AnalyzerSpec.
Import Js Num Analyzer.

(** [sub] occurs in [s] as a substring. *)
Definition occurs (sub s : jsstring) : Prop :=
  exists pre post, s = pre ++ sub ++ post.

(** [sub] occurs in [s] when the case of the letters of [s] is ignored. *)
Definition occurs_ci (sub s : jsstring) : Prop :=
  exists pre w post, s = pre ++ w ++ post /\ toLowerCase w = sub.

(** The ascending runs of three characters inside the code units
    [lo .. hi]. *)
Definition ascending_runs (lo hi : nat) : list jsstring :=
  map (fun n => [ascii_of_nat n; ascii_of_nat (n + 1); ascii_of_nat (n + 2)])
      (seq lo (hi - lo - 1)).

(** [abc], [bcd], ..., [xyz]. *)
Definition letter_runs : list jsstring := ascending_runs 97 122.

(** [012], [123], ..., [789]. *)
Definition digit_runs : list jsstring := ascending_runs 48 57.

(** [n] elements of [l] satisfy [P]. *)
Inductive count_of {A : Type} (P : A -> Prop) : list A -> nat -> Prop :=
| count_nil : count_of P [] 0
| count_yes x l n : P x -> count_of P l n -> count_of P (x :: l) (S n)
| count_no x l n : ~ P x -> count_of P l n -> count_of P (x :: l) n.

(** The maximal runs of equal characters of a string, each with its
    length. *)
Fixpoint runs (s : jsstring) : list (ascii * nat) :=
  match s with
  | [] => []
  | c :: r =>
      match runs r with
      | (d, k) :: t =>
          if Ascii.eqb c d then (c, S k) :: t else (c, 1%nat) :: (d, k) :: t
      | [] => [(c, 1%nat)]
      end
  end.

(** The sum of [k - 1] over the maximal runs of length [k >= 2] of the
    characters that [keep] selects. *)
Definition run_excess_where (keep : ascii -> bool) (s : jsstring) : Z :=
  fold_right (fun run total => (Z.of_nat (snd run) - 1 + total)%Z) 0%Z
    (filter (fun run => (2 <=? snd run)%nat && keep (fst run)) (runs s)).

(** The same sum over all maximal runs of length [k >= 2]. *)
Definition run_excess (s : jsstring) : Z := run_excess_where (fun _ => true) s.

(** The penalty for repeated characters as the specification words it:
    0.5 * (k - 1) for every maximal run of [k >= 2] equal characters. *)
Definition run_penalty (s : jsstring) : R := (5 / 10 * IZR (run_excess s))%R.

(** The adjacent pairs of equal characters that [keep] selects. *)
Fixpoint equal_pairs (keep : ascii -> bool) (s : jsstring) : Z :=
  match s with
  | c :: (d :: _) as r =>
      ((if keep c && Ascii.eqb c d then 1 else 0) + equal_pairs keep r)%Z
  | _ => 0%Z
  end.

(** The sum [total + match.length - 1] of the [reduce] over the matches. *)
Definition excess (matches : list jsstring) : Z :=
  fold_left (fun total m => (total + len m - 1)%Z) matches 0%Z.

(** A character class occurs in the password. *)
Definition has_class (cls : ascii -> bool) (password : jsstring) : Prop :=
  exists c, In c password /\ cls c = true.

(** Complexity: at least three of the four character classes occur. *)
Definition complexity (password : jsstring) : Prop :=
  let U := has_class isUpper password in
  let L := has_class isLower password in
  let D := has_class isDigit password in
  let S := has_class isSymbol password in
  (U /\ L /\ D) \/ (U /\ L /\ S) \/ (U /\ D /\ S) \/ (L /\ D /\ S).

(** The tiers in their order, by the name a classifier gives them. *)
Definition tier_rank (name : jsstring) : option nat :=
  if list_eq_dec ascii_dec name (lit "very-weak") then Some 0%nat
  else if list_eq_dec ascii_dec name (lit "weak") then Some 1%nat
  else if list_eq_dec ascii_dec name (lit "medium") then Some 2%nat
  else if list_eq_dec ascii_dec name (lit "strong") then Some 3%nat
  else if list_eq_dec ascii_dec name (lit "very-strong") then Some 4%nat
  else None.

(** The line feed. *)
Definition LF : ascii := ascii_of_nat 10.

End AnalyzerSpec.

(** ** More of JavaScript's numbers *)

Module NumOps.
Import Num.
Local Open Scope R_scope.

(** [Math.pow(2, x)]: the power overflows to [Infinity] from 2^1024 on.
    The exponents met are entropies, which are never negative; that the
    engine's power underflows to 0 for exponents below -1074 is left
    out. *)
Definition Math_pow2 (x : number) : number :=
  match x with
  | NaN => NaN
  | NegInfinity => Finite 0
  | Finite r => if Rle_dec 1024 r then Infinity else Finite (Rpower 2 r)
  | Infinity => Infinity
  end.

(** [x / d] and [x * d] for a finite [d > 0]. *)
Definition div (x : number) (d : R) : number :=
  match x with
  | Finite r => Finite (r / d)
  | other => other
  end.

Definition mul (x : number) (d : R) : number :=
  match x with
  | Finite r => Finite (r * d)
  | other => other
  end.

(** [Math.min(100, x)]. *)
Definition Math_min100 (x : number) : number :=
  match x with
  | NaN => NaN
  | NegInfinity => NegInfinity
  | Finite r => Finite (Rmin 100 r)
  | Infinity => Finite 100
  end.

End NumOps.

(** ** The analyzer: crack time, display figures and findings *)

Module AnalyzerDetails.
Import Js Num NumOps Analyzer.
Local Open Scope R_scope.

Definition GUESSES_PER_SECOND : R := 10000000000.

Definition calculateCrackTime (entropy : number) : number :=
  let possibleCombinations := Math_pow2 entropy in
  div (div possibleCombinations GUESSES_PER_SECOND) 2.

(** [Math.min(100, Math.round((entropy / 100) * 100))]. *)
Definition strengthPercentageOf (entropy : number) : number :=
  Math_min100 (Math_round (mul (div entropy 100) 100)).

(** The object built by [generateDetailedAnalysis]. *)
Record analysis : Type := mkAnalysis {
  strengths : list jsstring;
  weaknesses : list jsstring;
  recommendations : list jsstring
}.

Definition generateDetailedAnalysis (password : jsstring)
  (options : Generator.options) (entropy : number) (hasCommonPatterns : bool)
  : analysis :=
  let U := test_class isUpper password in
  let L := test_class isLower password in
  let D := test_class isDigit password in
  let S := test_class isSymbol password in
  (* Analyze strengths *)
  let strengths := [] in
  let strengths :=
    if (len password >=? 12)%Z
    then strengths ++ [lit "Good password length"] else strengths in
  let strengths :=
    if U && L && D && S
    then strengths ++ [lit "Excellent character diversity"]
    else if (U || L) && D && S
         then strengths ++ [lit "Good character diversity"]
         else strengths in
  let strengths :=
    if negb hasCommonPatterns
    then strengths ++ [lit "No common patterns detected"] else strengths in
  (* Analyze weaknesses *)
  let weaknesses := [] in
  let weaknesses :=
    if (len password <? 10)%Z
    then weaknesses ++ [lit "Password is too short"] else weaknesses in
  let weaknesses :=
    if negb U then weaknesses ++ [lit "No uppercase letters"] else weaknesses in
  let weaknesses :=
    if negb L then weaknesses ++ [lit "No lowercase letters"] else weaknesses in
  let weaknesses :=
    if negb D then weaknesses ++ [lit "No numbers"] else weaknesses in
  let weaknesses :=
    if negb S then weaknesses ++ [lit "No special characters"] else weaknesses in
  let weaknesses :=
    if hasCommonPatterns
    then weaknesses ++ [lit "Contains common patterns"] else weaknesses in
  (* Generate recommendations *)
  let recommendations := [] in
  let recommendations :=
    if (len password <? 12)%Z
    then recommendations
         ++ [lit "Increase password length to at least 12 characters"]
    else recommendations in
  let recommendations :=
    if negb (Generator.uppercase options) || negb (Generator.lowercase options)
       || negb (Generator.numbers options) || negb (Generator.symbols options)
    then recommendations
         ++ [lit "Enable all character types for maximum security"]
    else recommendations in
  let recommendations :=
    if hasCommonPatterns
    then recommendations ++ [lit "Avoid common patterns and sequences"]
    else recommendations in
  let recommendations :=
    if ltb entropy (Finite 70)
    then recommendations
         ++ [lit "Generate a new password with higher complexity"]
    else recommendations in
  {| strengths := strengths;
     weaknesses := weaknesses;
     recommendations := recommendations |}.

Section Display.

(** The engine's conversion of a number to text, in a template literal
    and in [toString], and its [toFixed(1)]. *)
Variable Number_toString : number -> jsstring.
Variable toFixed1 : number -> jsstring.

(** [formatCrackTime]; [PasswordGenerator] and [PasswordStrengthAnalyzer]
    carry the same method. *)
Definition formatCrackTime (seconds : number) : jsstring :=
  if ltb seconds (Finite 60) then
    Number_toString (Math_round seconds) ++ lit " seconds"
  else if ltb seconds (Finite 3600) then
    Number_toString (Math_round (div seconds 60)) ++ lit " minutes"
  else if ltb seconds (Finite 86400) then
    Number_toString (Math_round (div seconds 3600)) ++ lit " hours"
  else if ltb seconds (Finite 31536000) then
    Number_toString (Math_round (div seconds 86400)) ++ lit " days"
  else if ltb seconds (Finite (31536000 * 100)) then
    Number_toString (Math_round (div seconds 31536000)) ++ lit " years"
  else if ltb seconds (Finite (31536000 * 1000)) then
    Number_toString (Math_round (div (div seconds 31536000) 100))
    ++ lit " hundred years"
  else if ltb seconds (Finite (31536000 * 1000000)) then
    Number_toString (Math_round (div (div seconds 31536000) 1000))
    ++ lit " thousand years"
  else if ltb seconds (Finite (31536000 * 1000000000)) then
    Number_toString (Math_round (div (div seconds 31536000) 1000000))
    ++ lit " million years"
  else
    Number_toString (Math_round (div (div seconds 31536000) 1000000000))
    ++ lit " billion years".

Definition formatLargeNumber (num : number) : jsstring :=
  if ltb num (Finite 1000) then Number_toString num
  else if ltb num (Finite 1000000) then
    toFixed1 (div num 1000) ++ lit " thousand"
  else if ltb num (Finite 1000000000) then
    toFixed1 (div num 1000000) ++ lit " million"
  else if ltb num (Finite 1000000000000) then
    toFixed1 (div num 1000000000) ++ lit " billion"
  else if ltb num (Finite 1000000000000000) then
    toFixed1 (div num 1000000000000) ++ lit " trillion"
  else if ltb num (Finite 1000000000000000000) then
    toFixed1 (div num 1000000000000000) ++ lit " quadrillion"
  else toFixed1 (div num 1000000000000000000) ++ lit " quintillion".

(** The fields of the object returned by [analyzePassword] that the record
    [report] leaves out. *)
Record figures : Type := mkFigures {
  crackTime : number;
  crackTimeFormatted : jsstring;
  combinations : number;
  combinationsFormatted : jsstring;
  strengthPercentage : number;
  analysis_ : analysis
}.

Definition analyzePassword_figures (password : jsstring)
  (options : Generator.options) : figures :=
  let entropy := calculateEntropy password in
  let crackTime := calculateCrackTime entropy in
  let combinations := Math_pow2 entropy in
  let hasCommonPatterns := checkForCommonPatterns password in
  let strengthPercentage := strengthPercentageOf entropy in
  let analysis := generateDetailedAnalysis password options entropy
                    hasCommonPatterns in
  {| crackTime := crackTime;
     crackTimeFormatted := formatCrackTime crackTime;
     combinations := combinations;
     combinationsFormatted := formatLargeNumber combinations;
     strengthPercentage := strengthPercentage;
     analysis_ := analysis |}.

(** The field [analysis] of the object returned by [analyzePassword]. *)
Definition findings (password : jsstring) (options : Generator.options)
  : analysis :=
  analysis_ (analyzePassword_figures password options).

(** The fields of the object returned by
    [PasswordGenerator.calculateStrength] next to the entropy and the
    level. *)
Record strength_figures : Type := mkStrengthFigures {
  possibleCombinations : number;
  secondsToCrack : number;
  secondsToCrackFormatted : jsstring;
  generatorPercentage : number
}.

Definition calculateStrength_figures (password : jsstring) : strength_figures :=
  let charsetSize := 0%Z in
  let charsetSize :=
    if test_class isUpper password then (charsetSize + 26)%Z else charsetSize in
  let charsetSize :=
    if test_class isLower password then (charsetSize + 26)%Z else charsetSize in
  let charsetSize :=
    if test_class isDigit password then (charsetSize + 10)%Z else charsetSize in
  let charsetSize :=
    if test_class isSymbol password then (charsetSize + 33)%Z else charsetSize in
  let entropy := Math_log2 (Math_pow charsetSize (List.length password)) in
  let guessesPerSecond := 10000000000 in
  let possibleCombinations := Math_pow2 entropy in
  let secondsToCrack := div (div possibleCombinations guessesPerSecond) 2 in
  {| possibleCombinations := possibleCombinations;
     secondsToCrack := secondsToCrack;
     secondsToCrackFormatted := formatCrackTime secondsToCrack;
     generatorPercentage := strengthPercentageOf entropy |}.

End Display.

End AnalyzerDetails.

(** ** Preferences: [class PreferencesManager] *)

Module Preferences.
Import Js.
Local Open Scope string_scope.

(** The values stored under a preference. *)
Inductive value : Type :=
| VNumber (n : Z)
| VNaN
| VBool (b : bool)
| VString (s : string).

(** A plain object, by its own properties. *)
Definition object : Type := string -> option value.

Definition empty : object := fun _ => None.

(** [obj.key = v]. *)
Definition set (key : string) (v : value) (obj : object) : object :=
  fun k => if String.eqb k key then Some v else obj k.

(** [{ ...a, ...b }]. *)
Definition spread (a b : object) : object :=
  fun k => match b k with
           | Some v => Some v
           | None => a k
           end.

Definition defaultPreferences : object :=
  set "autoGenerate" (VBool true)
    (set "theme" (VString "dark")
       (set "excludeSimilar" (VBool false)
          (set "symbols" (VBool true)
             (set "numbers" (VBool true)
                (set "lowercase" (VBool true)
                   (set "uppercase" (VBool true)
                      (set "length" (VNumber 16) empty))))))).

(** The state of a manager: [this.preferences].  The timer and the storage
    behind it are outside the model. *)
Definition constructor : object := spread empty defaultPreferences.

(** [loadPreferences], as it changes [this.preferences]: [stored] is what
    the storage holds under [passwordGeneratorPrefs], [None] when it holds
    nothing or cannot be read. *)
Definition loadPreferences (stored : option object) (preferences : object)
  : object :=
  match stored with
  | Some saved => spread defaultPreferences saved
  | None => preferences
  end.

(** [savePreferences], as it changes [this.preferences]. *)
Definition savePreferences (newPreferences preferences : object) : object :=
  spread preferences newPreferences.

Definition resetToDefaults (preferences : object) : object :=
  savePreferences defaultPreferences preferences.

(** [getPreferences]: a copy. *)
Definition getPreferences (preferences : object) : object :=
  spread empty preferences.

(** The elements handed to the manager: for each one that exists, the
    value or the checked state it shows. *)
Record elements : Type := mkElements {
  lengthSlider : option jsstring;
  uppercaseCheckbox : option bool;
  lowercaseCheckbox : option bool;
  numbersCheckbox : option bool;
  symbolsCheckbox : option bool;
  excludeSimilarCheckbox : option bool;
  themeSwitcher : option string;
  autoGenerateCheckbox : option bool
}.

Section WithParseInt.

(** The engine's [parseInt]. *)
Variable parseInt : jsstring -> value.

Definition set_if {A : Type} (element : option A) (key : string)
  (read : A -> value) (obj : object) : object :=
  match element with
  | Some e => set key (read e) obj
  | None => obj
  end.

(** The object [updatedPrefs] of [updatePreferencesFromUI]. *)
Definition updatedPrefs (els : elements) : object :=
  let updatedPrefs := empty in
  let updatedPrefs := set_if (lengthSlider els) "length" parseInt updatedPrefs in
  let updatedPrefs := set_if (uppercaseCheckbox els) "uppercase" VBool updatedPrefs in
  let updatedPrefs := set_if (lowercaseCheckbox els) "lowercase" VBool updatedPrefs in
  let updatedPrefs := set_if (numbersCheckbox els) "numbers" VBool updatedPrefs in
  let updatedPrefs := set_if (symbolsCheckbox els) "symbols" VBool updatedPrefs in
  let updatedPrefs :=
    set_if (excludeSimilarCheckbox els) "excludeSimilar" VBool updatedPrefs in
  let updatedPrefs := set_if (themeSwitcher els) "theme" VString updatedPrefs in
  let updatedPrefs :=
    set_if (autoGenerateCheckbox els) "autoGenerate" VBool updatedPrefs in
  updatedPrefs.

(** [updatePreferencesFromUI]: the new [this.preferences], which is also
    what the call returns. *)
Definition updatePreferencesFromUI (els : elements) (preferences : object)
  : object :=
  savePreferences (updatedPrefs els) preferences.

(** A call on the manager that changes [this.preferences]. *)
Inductive call : Type :=
| Load (stored : option object)
| Save (newPreferences : object)
| Reset
| UpdateFromUI (els : elements).

Definition perform (c : call) (preferences : object) : object :=
  match c with
  | Load stored => loadPreferences stored preferences
  | Save newPreferences => savePreferences newPreferences preferences
  | Reset => resetToDefaults preferences
  | UpdateFromUI els => updatePreferencesFromUI els preferences
  end.

(** The calls of a session, in order, on a fresh manager. *)
Definition session (calls : list call) : object :=
  fold_left (fun preferences c => perform c preferences) calls constructor.

End WithParseInt.

(** A key of the default preferences. *)
Definition default_key (k : string) : Prop := defaultPreferences k <> None.

End Preferences.

(** ** The popup: the handler of the check boxes *)

Module App.
Import Js.

(** The five check boxes of the popup. *)
Inductive box : Type :=
| uppercaseCheckbox
| lowercaseCheckbox
| numbersCheckbox
| symbolsCheckbox
| excludeSimilarCheckbox.

(** Their [checked] states and the value of the length slider, read by
    [parseInt]. *)
Record ui : Type := mkUi {
  sliderLength : Z;
  uppercase : bool;
  lowercase : bool;
  numbers : bool;
  symbols : bool;
  excludeSimilar : bool
}.

Definition checked (b : box) (s : ui) : bool :=
  match b with
  | uppercaseCheckbox => uppercase s
  | lowercaseCheckbox => lowercase s
  | numbersCheckbox => numbers s
  | symbolsCheckbox => symbols s
  | excludeSimilarCheckbox => excludeSimilar s
  end.

(** [checkbox.checked = v]. *)
Definition set_checked (b : box) (v : bool) (s : ui) : ui :=
  match b with
  | uppercaseCheckbox =>
      mkUi (sliderLength s) v (lowercase s) (numbers s) (symbols s)
        (excludeSimilar s)
  | lowercaseCheckbox =>
      mkUi (sliderLength s) (uppercase s) v (numbers s) (symbols s)
        (excludeSimilar s)
  | numbersCheckbox =>
      mkUi (sliderLength s) (uppercase s) (lowercase s) v (symbols s)
        (excludeSimilar s)
  | symbolsCheckbox =>
      mkUi (sliderLength s) (uppercase s) (lowercase s) (numbers s) v
        (excludeSimilar s)
  | excludeSimilarCheckbox =>
      mkUi (sliderLength s) (uppercase s) (lowercase s) (numbers s)
        (symbols s) v
  end.

(** What the handler does next to changing the boxes. *)
Inductive reaction : Type :=
| ShowTooltip
| Generate (options : Generator.options).

(** The [options] that [generateAndUpdatePassword] reads from the popup. *)
Definition optionsOf (s : ui) : Generator.options :=
  Generator.mkOptions (sliderLength s) (uppercase s) (lowercase s)
    (numbers s) (symbols s) (excludeSimilar s).

(** The listener of the [change] event of [checkbox]. *)
Definition onChange (checkbox : box) (s : ui) : ui * reaction :=
  if negb (uppercase s) && negb (lowercase s)
     && negb (numbers s) && negb (symbols s)
  then (set_checked checkbox true s, ShowTooltip)
  else (s, Generate (optionsOf s)).

(** A click on [checkbox]: the browser flips the box, then fires
    [change]. *)
Definition click (checkbox : box) (s : ui) : ui * reaction :=
  onChange checkbox (set_checked checkbox (negb (checked checkbox s)) s).

(** A character class is checked. *)
Definition some_class (s : ui) : Prop :=
  uppercase s = true \/ lowercase s = true
  \/ numbers s = true \/ symbols s = true.

(** The popup after a series of clicks. *)
Definition clicks (boxes : list box) (s : ui) : ui :=
  fold_left (fun s b => fst (click b s)) boxes s.

End App.

(** ** Properties of the sampler *)

Module SamplerFacts.
Import Js Generator Spec.
Local Open Scope Z_scope.

Lemma bigEndian_from (bytes : list Z) (acc : Z) :
  fold_left (fun value b => value * 256 + b) bytes acc
  = acc * 256 ^ Z.of_nat (List.length bytes) + bigEndian bytes.
Proof.
  unfold bigEndian. revert acc.
  induction bytes as [|b bytes IH]; intros acc.
  - simpl. lia.
  - cbn [fold_left List.length]. rewrite IH, (IH (0 * 256 + b)).
    rewrite Nat2Z.inj_succ, Z.pow_succ_r by lia. ring.
Qed.

Lemma bigEndian_cons (b : Z) (bytes : list Z) :
  bigEndian (b :: bytes)
  = b * 256 ^ Z.of_nat (List.length bytes) + bigEndian bytes.
Proof.
  unfold bigEndian at 1. cbn [fold_left]. rewrite bigEndian_from. ring.
Qed.

Lemma bigEndian_bounds (bytes : list Z) :
  Forall (fun b => 0 <= b < 256) bytes ->
  0 <= bigEndian bytes < 256 ^ Z.of_nat (List.length bytes).
Proof.
  induction 1 as [|b bytes Hb _ IH].
  - cbn. lia.
  - rewrite bigEndian_cons. cbn [List.length].
    rewrite Nat2Z.inj_succ, Z.pow_succ_r by lia.
    assert (0 < 256 ^ Z.of_nat (List.length bytes)) by (apply Z.pow_pos_nonneg; lia).
    nia.
Qed.

Lemma getRandomValues_bytes rng n pos :
  Forall (fun b => 0 <= b < 256) (getRandomValues rng n pos).
Proof.
  unfold getRandomValues. apply Forall_forall. intros b Hb.
  apply in_map_iff in Hb. destruct Hb as [i [<- _]].
  apply Z.mod_pos_bound. lia.
Qed.

Lemma getRandomValues_length rng n pos :
  List.length (getRandomValues rng n pos) = n.
Proof. unfold getRandomValues. now rewrite length_map, length_seq. Qed.

(** The byte count covers the range: [range <= 256 ^ bytesNeeded]. *)
Lemma bytesNeeded_covers (range : Z) :
  1 <= range -> range <= 256 ^ Z.of_nat (bytesNeeded range).
Proof.
  intros Hr. unfold bytesNeeded.
  assert (Hl : 0 <= Z.log2_up range) by apply Z.log2_up_nonneg.
  rewrite Z2Nat.id by (apply Z.div_pos; lia).
  replace 256 with (2 ^ 8) by reflexivity.
  rewrite <- Z.pow_mul_r by (try apply Z.div_pos; lia).
  destruct (Z.eq_dec range 1) as [->|Hne].
  - cbn. lia.
  - pose proof (Z.log2_up_spec range ltac:(lia)) as [_ Hup].
    eapply Z.le_trans; [exact Hup|].
    apply Z.pow_le_mono_r; [lia|].
    pose proof (Z.mul_div_le (Z.log2_up range + 7) 8 ltac:(lia)).
    pose proof (Z.mod_pos_bound (Z.log2_up range + 7) 8 ltac:(lia)).
    pose proof (Z.div_mod (Z.log2_up range + 7) 8 ltac:(lia)).
    lia.
Qed.

(** And it is the smallest such count. *)
Lemma bytesNeeded_smallest (range : Z) (m : nat) :
  1 <= range -> range <= 256 ^ Z.of_nat m -> (bytesNeeded range <= m)%nat.
Proof.
  intros Hr Hm. unfold bytesNeeded.
  assert (Hl : 0 <= Z.log2_up range) by apply Z.log2_up_nonneg.
  assert (Hlog : Z.log2_up range <= 8 * Z.of_nat m).
  { replace 256 with (2 ^ 8) in Hm by reflexivity.
    rewrite <- Z.pow_mul_r in Hm by lia.
    apply Z.log2_up_le_mono in Hm.
    rewrite Z.log2_up_pow2 in Hm by lia. exact Hm. }
  assert ((Z.log2_up range + 7) / 8 < Z.of_nat m + 1).
  { apply Z.div_lt_upper_bound; lia. }
  lia.
Qed.

(** The guard of the retry is the test against the last complete bucket. *)
Lemma rejected_iff (range maxValue value : Z) :
  0 < range -> 0 <= maxValue ->
  rejected range maxValue value = true <-> maxValue / range * range <= value.
Proof.
  intros Hr Hm. unfold rejected.
  rewrite Z.rem_mod_nonneg by lia.
  pose proof (Z.div_mod maxValue range ltac:(lia)).
  rewrite Z.geb_le. lia.
Qed.

Lemma attempt_some (min max : Z) (bytes : list Z) (v : Z) :
  min <= max -> 0 <= bigEndian bytes ->
  attempt min max bytes = Some v ->
  bigEndian bytes < 256 ^ Z.of_nat (bytesNeeded (max - min + 1)) / (max - min + 1)
                    * (max - min + 1)
  /\ v = min + bigEndian bytes mod (max - min + 1).
Proof.
  intros Hle Hv. unfold attempt.
  destruct (rejected _ _ _) eqn:Hrej; [discriminate|].
  intros [= <-]. split.
  - destruct (Z.lt_ge_cases (bigEndian bytes)
                (256 ^ Z.of_nat (bytesNeeded (max - min + 1)) / (max - min + 1)
                 * (max - min + 1))) as [Hlt|Hge]; [exact Hlt|].
    apply rejected_iff in Hge; [congruence|lia|].
    apply Z.pow_nonneg. lia.
  - rewrite Z.rem_mod_nonneg by lia. reflexivity.
Qed.

Lemma attempt_in_range (min max : Z) (bytes : list Z) (v : Z) :
  min <= max -> Forall (fun b => 0 <= b < 256) bytes ->
  attempt min max bytes = Some v -> min <= v <= max.
Proof.
  intros Hle Hb Ha.
  apply attempt_some in Ha; [|exact Hle|apply bigEndian_bounds, Hb].
  destruct Ha as [_ ->].
  pose proof (Z.mod_pos_bound (bigEndian bytes) (max - min + 1) ltac:(lia)).
  lia.
Qed.

(** One level of the recursion, in terms of [attempt]. *)
Lemma getSecureRandomInt_rec_step rng depth min max pos :
  min <= max ->
  getSecureRandomInt_rec rng (S depth) min max pos
  = match attempt min max
            (getRandomValues rng (bytesNeeded (max - min + 1)) pos) with
    | Some v => Ok v (pos + bytesNeeded (max - min + 1))
    | None =>
        getSecureRandomInt_rec rng depth min max
          (pos + bytesNeeded (max - min + 1))
    end.
Proof.
  intros Hle. cbn [getSecureRandomInt_rec].
  destruct (max - min + 1 <? 0) eqn:H1; [apply Z.ltb_lt in H1; lia|].
  destruct (max - min + 1 =? 0) eqn:H2; [apply Z.eqb_eq in H2; lia|].
  unfold attempt. destruct (rejected _ _ _); reflexivity.
Qed.

Lemma getSecureRandomInt_in_range rng fuel min max pos v pos' :
  min <= max ->
  getSecureRandomInt rng fuel min max pos = Ok v pos' -> min <= v <= max.
Proof.
  intros Hle. unfold getSecureRandomInt. revert pos.
  induction fuel as [|fuel IH]; intros pos.
  - discriminate.
  - rewrite getSecureRandomInt_rec_step by exact Hle.
    destruct (attempt _ _ _) as [w|] eqn:Ha.
    + intros [= <- <-].
      eapply attempt_in_range; eauto using getRandomValues_bytes.
    + apply IH.
Qed.

Lemma accepted_at_shift rng min max pos k :
  accepted_at rng min max pos (S k)
  <-> accepted_at rng min max (pos + bytesNeeded (max - min + 1)) k.
Proof.
  unfold accepted_at.
  replace (pos + S k * bytesNeeded (max - min + 1))%nat
    with (pos + bytesNeeded (max - min + 1)
          + k * bytesNeeded (max - min + 1))%nat by lia.
  reflexivity.
Qed.

Lemma getSecureRandomInt_returns rng fuel min max pos k :
  min <= max -> (k < fuel)%nat -> accepted_at rng min max pos k ->
  exists v pos', getSecureRandomInt rng fuel min max pos = Ok v pos'.
Proof.
  intros Hle. unfold getSecureRandomInt. revert pos k.
  induction fuel as [|fuel IH]; intros pos k Hk Hacc; [lia|].
  rewrite getSecureRandomInt_rec_step by exact Hle.
  destruct (attempt _ _ _) as [w|] eqn:Ha; [eauto|].
  destruct k as [|k].
  - exfalso. apply Hacc. unfold accepted_at in *.
    now rewrite Nat.mul_0_l, Nat.add_0_r.
  - apply (IH _ k); [lia|]. now apply accepted_at_shift.
Qed.

(** *** Counting byte vectors *)

Lemma upto_S (n : nat) : upto (S n) = upto n ++ [Z.of_nat n].
Proof. unfold upto. now rewrite seq_S, map_app. Qed.

Lemma upto_length (n : nat) : List.length (upto n) = n.
Proof. unfold upto. now rewrite length_map, length_seq. Qed.

Lemma in_upto (n : nat) (v : Z) : In v (upto n) <-> 0 <= v < Z.of_nat n.
Proof.
  unfold upto. rewrite in_map_iff. split.
  - intros [i [<- Hi]]. apply in_seq in Hi. lia.
  - intros Hv. exists (Z.to_nat v). rewrite in_seq. lia.
Qed.

Lemma upto_add (n m : nat) :
  upto (n + m) = upto n ++ map (fun i => Z.of_nat n + i) (upto m).
Proof.
  induction m as [|m IH].
  - now rewrite Nat.add_0_r, app_nil_r.
  - rewrite Nat.add_succ_r, !upto_S, IH, map_app, app_assoc. cbn [map].
    now rewrite Nat2Z.inj_add.
Qed.

Lemma upto_blocks (N k : nat) :
  flat_map (fun b => map (fun v => b * Z.of_nat N + v) (upto N)) (upto k)
  = upto (k * N).
Proof.
  induction k as [|k IH].
  - reflexivity.
  - rewrite upto_S, flat_map_app, IH. cbn [flat_map]. rewrite app_nil_r.
    replace (S k * N)%nat with (k * N + N)%nat by lia.
    rewrite upto_add. f_equal. apply map_ext. intros v.
    now rewrite Nat2Z.inj_mul.
Qed.

Lemma byteVectors_length (n : nat) (bytes : list Z) :
  In bytes (byteVectors n) -> List.length bytes = n.
Proof.
  revert bytes. induction n as [|n IH]; intros bytes Hin.
  - destruct Hin as [<-|[]]. reflexivity.
  - cbn [byteVectors] in Hin. apply in_flat_map in Hin.
    destruct Hin as [b [_ Hin]]. apply in_map_iff in Hin.
    destruct Hin as [bs [<- Hbs]]. cbn. f_equal. now apply IH.
Qed.

(** The vectors of length [n] are exactly the lists of [n] bytes. *)
Lemma in_byteVectors (n : nat) (bytes : list Z) :
  In bytes (byteVectors n)
  <-> List.length bytes = n /\ Forall (fun b => 0 <= b < 256) bytes.
Proof.
  revert bytes. induction n as [|n IH]; intros bytes.
  - cbn. split.
    + intros [<-|[]]. auto.
    + intros [Hl _]. destruct bytes; [auto|discriminate].
  - cbn [byteVectors]. rewrite in_flat_map. split.
    + intros [b [Hb Hin]]. apply in_map_iff in Hin.
      destruct Hin as [bs [<- Hbs]]. apply IH in Hbs. destruct Hbs as [Hl Hf].
      apply in_upto in Hb. split; [cbn; lia|constructor; [lia|exact Hf]].
    + intros [Hl Hf]. destruct bytes as [|b bs]; [discriminate|].
      inversion Hf; subst. exists b. split; [apply in_upto; lia|].
      apply in_map. apply IH. split; [cbn in Hl; lia|assumption].
Qed.

(** Read as big-endian numbers, the vectors of length [n] are the numbers
    [0 .. 256^n - 1], each once and in order. *)
Lemma byteVectors_values (n : nat) :
  map bigEndian (byteVectors n) = upto (256 ^ n).
Proof.
  induction n as [|n IH].
  - reflexivity.
  - cbn [byteVectors]. rewrite flat_map_concat_map, concat_map, map_map.
    rewrite <- flat_map_concat_map.
    replace (256 ^ S n)%nat with (256 * 256 ^ n)%nat by (cbn [Nat.pow]; lia).
    rewrite <- upto_blocks. apply flat_map_ext. intros b.
    rewrite <- IH, !map_map. apply map_ext_in. intros bs Hbs.
    rewrite bigEndian_cons, (byteVectors_length n bs Hbs).
    now rewrite Nat2Z.inj_pow.
Qed.

Lemma filter_map_length {A B : Type} (f : A -> B) (p : B -> bool) (l : list A) :
  List.length (filter (fun x => p (f x)) l) = List.length (filter p (map f l)).
Proof.
  induction l as [|x l IH]; [reflexivity|].
  cbn. destruct (p (f x)); cbn; now rewrite IH.
Qed.

Lemma filter_none {A : Type} (p : A -> bool) (l : list A) :
  (forall x, In x l -> p x = false) -> filter p l = [].
Proof.
  induction l as [|x l IH]; intros H; [reflexivity|].
  cbn. rewrite (H x (or_introl eq_refl)). apply IH. intros y Hy.
  apply H. now right.
Qed.

(** Exactly one of [0 .. r-1] equals a given [k] of that interval. *)
Lemma count_eq (r : nat) (k : Z) :
  0 <= k < Z.of_nat r ->
  List.length (filter (fun i => i =? k) (upto r)) = 1%nat.
Proof.
  induction r as [|r IH]; intros Hk; [lia|].
  rewrite upto_S, filter_app, length_app. cbn [filter].
  destruct (Z.eqb_spec (Z.of_nat r) k) as [Heq|Hne].
  - rewrite filter_none; [reflexivity|].
    intros x Hx. apply in_upto in Hx. apply Z.eqb_neq. lia.
  - rewrite IH by lia. reflexivity.
Qed.

(** Among [0 .. q*r - 1] exactly [q] numbers have a given residue
    modulo [r]. *)
Lemma count_residue (r q : nat) (k : Z) :
  0 <= k < Z.of_nat r ->
  List.length (filter (fun v => v mod Z.of_nat r =? k) (upto (q * r))) = q.
Proof.
  intros Hk. induction q as [|q IH]; [reflexivity|].
  replace (S q * r)%nat with (q * r + r)%nat by lia.
  rewrite upto_add, filter_app, length_app, IH.
  rewrite <- filter_map_length.
  rewrite (filter_ext_in _ (fun i => i =? k)).
  - rewrite count_eq by exact Hk. lia.
  - intros i Hi. apply in_upto in Hi.
    rewrite Nat2Z.inj_mul, Z.add_comm, Z.mod_add by lia.
    now rewrite Z.mod_small by lia.
Qed.

(** Every result of the interval is hit by the same number of byte
    vectors: [floor(256^n / range)]. *)
Lemma hits_uniform (min max t : Z) :
  min <= max -> min <= t <= max ->
  Z.of_nat (hits min max (bytesNeeded (max - min + 1)) t)
  = 256 ^ Z.of_nat (bytesNeeded (max - min + 1)) / (max - min + 1).
Proof.
  intros Hle Ht. unfold hits.
  set (range := max - min + 1).
  set (n := bytesNeeded range).
  set (maxValue := 256 ^ Z.of_nat n).
  assert (Hrange : 1 <= range) by (unfold range; lia).
  assert (Hmax : 0 < maxValue) by (apply Z.pow_pos_nonneg; lia).
  set (q := maxValue / range).
  assert (Hq : 0 <= q) by (apply Z.div_pos; lia).
  pose proof (Z.mul_div_le maxValue range ltac:(lia)) as Hqr.
  fold q in Hqr.
  set (p := fun value : Z =>
              if rejected range maxValue value then false
              else min + Z.rem value range =? t).
  rewrite (filter_ext _ (fun bytes => p (bigEndian bytes))).
  2:{ intros bytes. unfold p, attempt. fold range n maxValue.
      now destruct (rejected _ _ _). }
  rewrite filter_map_length, byteVectors_values.
  replace (256 ^ n)%nat
    with (Z.to_nat q * Z.to_nat range + Z.to_nat (maxValue - q * range))%nat.
  2:{ apply Nat2Z.inj. rewrite Nat2Z.inj_pow, Nat2Z.inj_add, Nat2Z.inj_mul.
      fold maxValue. rewrite !Z2Nat.id by lia. cbn. lia. }
  rewrite upto_add, filter_app, length_app.
  rewrite (filter_none p (map _ _)).
  2:{ intros v Hv. apply in_map_iff in Hv. destruct Hv as [i [<- Hi]].
      apply in_upto in Hi. unfold p.
      replace (rejected range maxValue _) with true; [reflexivity|].
      symmetry. apply rejected_iff; [lia|lia|].
      rewrite Nat2Z.inj_mul, !Z2Nat.id by lia. fold q. lia. }
  rewrite (filter_ext_in p (fun v => v mod Z.of_nat (Z.to_nat range) =? t - min)).
  2:{ intros v Hv. apply in_upto in Hv.
      rewrite Nat2Z.inj_mul, !Z2Nat.id in Hv by lia.
      rewrite Z2Nat.id by lia. unfold p.
      replace (rejected range maxValue v) with false.
      - rewrite Z.rem_mod_nonneg by lia.
        destruct (Z.eqb_spec (min + v mod range) t);
          destruct (Z.eqb_spec (v mod range) (t - min)); lia || reflexivity.
      - symmetry. apply not_true_is_false. intros Hrej.
        apply rejected_iff in Hrej; [|lia|lia]. fold q in Hrej. lia. }
  rewrite count_residue by (rewrite Z2Nat.id; unfold range; lia).
  cbn [List.length]. rewrite Nat.add_0_r, Z2Nat.id by lia. reflexivity.
Qed.

Lemma byteVectors_NoDup (n : nat) : NoDup (byteVectors n).
Proof.
  apply (NoDup_map_inv bigEndian). rewrite byteVectors_values.
  unfold upto. apply NoDup_map_NoDup_ForallPairs; [|apply seq_NoDup].
  intros a b _ _. apply Nat2Z.inj.
Qed.

Lemma attempt_none_iff (min max : Z) (bytes : list Z) :
  min <= max ->
  attempt min max bytes = None
  <-> 256 ^ Z.of_nat (bytesNeeded (max - min + 1)) / (max - min + 1)
      * (max - min + 1) <= bigEndian bytes.
Proof.
  intros Hle. rewrite <- rejected_iff; [|lia|apply Z.pow_nonneg; lia].
  unfold attempt. destruct (rejected _ _ _); split; congruence.
Qed.

(** *** The rounded sampler on small ranges *)

Lemma toNumber_exact (z : Z) : Z.abs z <= 2 ^ 53 -> Rounded.toNumber z = z.
Proof.
  intros Hz. unfold Rounded.toNumber. cbv zeta.
  apply Z.leb_le in Hz. rewrite Hz. reflexivity.
Qed.

Lemma rounded_fold (bytes : list Z) (acc : Z) :
  Forall (fun b => 0 <= b < 256) bytes ->
  0 <= acc -> (acc + 1) * 256 ^ Z.of_nat (List.length bytes) <= 2 ^ 53 ->
  fold_left (fun value b => Rounded.add (value * 256) b) bytes acc
  = fold_left (fun value b => value * 256 + b) bytes acc.
Proof.
  intros Hb. revert acc.
  induction Hb as [|b bytes Hb _ IH]; intros acc Hacc Hsize.
  - reflexivity.
  - cbn [fold_left]. cbn [List.length] in Hsize.
    rewrite Nat2Z.inj_succ, Z.pow_succ_r in Hsize by lia.
    assert (Hp : 0 < 256 ^ Z.of_nat (List.length bytes))
      by (apply Z.pow_pos_nonneg; lia).
    assert (Hstep : Rounded.add (acc * 256) b = acc * 256 + b).
    { unfold Rounded.add. apply toNumber_exact. rewrite Z.abs_eq by lia. nia. }
    rewrite Hstep. apply IH; [lia|nia].
Qed.

Lemma rounded_bigEndian (bytes : list Z) :
  Forall (fun b => 0 <= b < 256) bytes ->
  256 ^ Z.of_nat (List.length bytes) <= 2 ^ 53 ->
  Rounded.bigEndian bytes = bigEndian bytes.
Proof.
  intros Hb Hsize. unfold Rounded.bigEndian, bigEndian.
  apply rounded_fold; [exact Hb|lia|lia].
Qed.

(** Up to a range of 2^48, between numbers of at most 53 bits, no step of
    the sampler rounds. *)
Lemma rounded_exact rng fuel (min max : Z) (pos : nat) :
  min <= max -> - 2 ^ 53 <= min -> max <= 2 ^ 53 -> max - min + 1 <= 2 ^ 48 ->
  Rounded.getSecureRandomInt rng fuel min max pos
  = getSecureRandomInt rng fuel min max pos.
Proof.
  intros Hle Hmin Hmax Hsize.
  unfold Rounded.getSecureRandomInt, getSecureRandomInt. revert pos.
  assert (H53 : 2 ^ 48 < 2 ^ 53) by reflexivity.
  assert (Hrange : Rounded.add (Rounded.sub max min) 1 = max - min + 1).
  { unfold Rounded.add, Rounded.sub.
    rewrite (toNumber_exact (max - min)) by (rewrite Z.abs_eq; lia).
    apply toNumber_exact. rewrite Z.abs_eq; lia. }
  assert (Hr : 1 <= max - min + 1) by lia.
  set (range := max - min + 1) in *.
  assert (Hn : (bytesNeeded range <= 6)%nat).
  { apply bytesNeeded_smallest; [lia|]. exact Hsize. }
  set (n := bytesNeeded range) in *.
  assert (Hpow : 0 < 256 ^ Z.of_nat n <= 2 ^ 48).
  { split; [apply Z.pow_pos_nonneg; lia|].
    change (2 ^ 48) with (256 ^ Z.of_nat 6).
    apply Z.pow_le_mono_r; lia. }
  induction fuel as [|depth IH]; intros pos; [reflexivity|].
  cbn [Rounded.getSecureRandomInt_rec getSecureRandomInt_rec].
  rewrite Hrange. fold range. fold n.
  destruct (range <? 0) eqn:Hneg; [apply Z.ltb_lt in Hneg; lia|].
  destruct (range =? 0) eqn:H0; [apply Z.eqb_eq in H0; lia|].
  pose proof (getRandomValues_bytes rng n pos) as Hbytes.
  pose proof (getRandomValues_length rng n pos) as Hlen.
  rewrite rounded_bigEndian; [|exact Hbytes|rewrite Hlen; lia].
  pose proof (bigEndian_bounds _ Hbytes) as Hv. rewrite Hlen in Hv.
  set (value := bigEndian (getRandomValues rng n pos)) in *.
  assert (Hrej : Rounded.rejected range (256 ^ Z.of_nat n) value
                 = rejected range (256 ^ Z.of_nat n) value).
  { unfold Rounded.rejected, rejected, Rounded.sub. f_equal.
    apply toNumber_exact. rewrite Z.rem_mod_nonneg by lia.
    pose proof (Z.mod_pos_bound (256 ^ Z.of_nat n) range ltac:(lia)).
    pose proof (Z.mod_le (256 ^ Z.of_nat n) range ltac:(lia) ltac:(lia)).
    rewrite Z.abs_eq; lia. }
  rewrite Hrej. destruct (rejected _ _ _); [apply IH|].
  f_equal. unfold Rounded.add. apply toNumber_exact.
  rewrite Z.rem_mod_nonneg by lia.
  pose proof (Z.mod_pos_bound value range ltac:(lia)).
  apply Z.abs_le. unfold range in *. lia.
Qed.

(** *** The sampler on the bytes it reads *)

Lemma bigEndian_unsigned (bytes : list Z) : bigEndian bytes = unsigned bytes.
Proof.
  induction bytes as [|b bytes IH]; [reflexivity|].
  rewrite bigEndian_cons, IH. reflexivity.
Qed.

Lemma getRandomValues_bytesAt rng n pos :
  getRandomValues rng n pos = bytesAt rng pos n.
Proof. reflexivity. Qed.

(** One level of the recursion on the bytes of the stream. *)
Lemma getSecureRandomInt_rec_bytes rng depth (min max : Z) (pos : nat) :
  min <= max ->
  let range := max - min + 1 in
  let n := bytesNeeded range in
  let value := unsigned (bytesAt rng pos n) in
  getSecureRandomInt_rec rng (S depth) min max pos
  = if 256 ^ Z.of_nat n / range * range <=? value
    then getSecureRandomInt_rec rng depth min max (pos + n)
    else Ok (min + value mod range) (pos + n)%nat.
Proof.
  intros Hle range n value.
  rewrite getSecureRandomInt_rec_step by exact Hle. fold range. fold n.
  rewrite getRandomValues_bytesAt.
  assert (Hb : Forall (fun b => 0 <= b < 256) (bytesAt rng pos n))
    by (rewrite <- getRandomValues_bytesAt; apply getRandomValues_bytes).
  destruct (attempt min max (bytesAt rng pos n)) as [v|] eqn:Ha.
  - apply attempt_some in Ha; [|exact Hle|apply bigEndian_bounds, Hb].
    rewrite bigEndian_unsigned in Ha. fold range n value in Ha.
    destruct Ha as [Hlt ->].
    destruct (Z.leb_spec (256 ^ Z.of_nat n / range * range) value); [lia|].
    reflexivity.
  - apply attempt_none_iff in Ha; [|exact Hle].
    rewrite bigEndian_unsigned in Ha. fold range n value in Ha.
    apply Z.leb_le in Ha. rewrite Ha. reflexivity.
Qed.

Lemma accepted_at_bytes rng (min max : Z) (pos k : nat) :
  min <= max ->
  let range := max - min + 1 in
  let n := bytesNeeded range in
  accepted_at rng min max pos k
  <-> unsigned (bytesAt rng (pos + k * n) n)
      < 256 ^ Z.of_nat n / range * range.
Proof.
  intros Hle range n. unfold accepted_at. cbv zeta. fold range. fold n.
  rewrite getRandomValues_bytesAt.
  pose proof (attempt_none_iff min max (bytesAt rng (pos + k * n) n) Hle) as H.
  rewrite bigEndian_unsigned in H. fold range n in H.
  destruct (attempt min max (bytesAt rng (pos + k * n) n)) as [v|].
  - split; [intros _|discriminate].
    destruct (Z.lt_ge_cases (unsigned (bytesAt rng (pos + k * n) n))
                (256 ^ Z.of_nat n / range * range)) as [Hlt|Hge];
      [exact Hlt|]. apply H in Hge. discriminate Hge.
  - split; [congruence|]. intros Hlt _.
    assert (Hge := proj1 H eq_refl). lia.
Qed.

(** A stream that starts with a byte vector hands it to the first
    attempt. *)
Lemma bytesAt_stream (bytes : list Z) :
  Forall (fun b => 0 <= b < 256) bytes ->
  bytesAt (stream bytes) 0 (List.length bytes) = bytes.
Proof.
  unfold bytesAt, stream. induction 1 as [|b bytes Hb _ IH].
  - reflexivity.
  - cbn [List.length seq map nth]. f_equal.
    + apply Z.mod_small. exact Hb.
    + rewrite <- seq_shift, map_map. exact IH.
Qed.

Lemma sampled_hits (min max : Z) (n : nat) (t : Z) :
  min <= max -> n = bytesNeeded (max - min + 1) ->
  sampled min max n t = hits min max n t.
Proof.
  intros Hle Hn. unfold sampled, hits. f_equal.
  apply filter_ext_in. intros bytes Hin.
  apply in_byteVectors in Hin. destruct Hin as [Hl Hb].
  unfold getSecureRandomInt. rewrite getSecureRandomInt_rec_step by exact Hle.
  rewrite <- Hn, getRandomValues_bytesAt, <- Hl, bytesAt_stream by exact Hb.
  destruct (attempt min max bytes); reflexivity.
Qed.

(** C3.  For numbers [min <= max] of at most 53 bits with a range
    [max - min + 1] of at most 2^48, where no step of the sampler rounds,
    [getSecureRandomInt(min, max)] returns an integer of [[min, max]], and
    it returns as soon as one of the attempts that the stack allows is
    accepted.  A call is a sequence of attempts on fresh bytes of an
    arbitrary stream, the smallest number of bytes that covers the range;
    an attempt is rejected exactly when the big-endian value of its bytes
    is at least [floor(256^bytesNeeded / range) * range], an accepted one
    returns [min + value mod range], and every result of the interval is
    returned for the same number of byte vectors,
    [floor(256^bytesNeeded / range) >= 1]. *)
Theorem getSecureRandomInt_uniform (min max : Z) :
  min <= max -> - 2 ^ 53 <= min -> max <= 2 ^ 53 -> max - min + 1 <= 2 ^ 48 ->
  let range := max - min + 1 in
  let n := bytesNeeded range in
  let maxValue := 256 ^ Z.of_nat n in
  let limit := maxValue / range * range in
  (forall rng fuel pos,
      Rounded.getSecureRandomInt rng fuel min max pos
      = getSecureRandomInt rng fuel min max pos)
  /\ (forall rng fuel pos v pos',
        getSecureRandomInt rng fuel min max pos = Ok v pos' ->
        min <= v <= max)
  /\ (forall rng fuel pos k,
        (k < fuel)%nat -> unsigned (bytesAt rng (pos + k * n) n) < limit ->
        exists v pos', getSecureRandomInt rng fuel min max pos = Ok v pos')
  /\ (forall rng depth pos,
        getSecureRandomInt_rec rng (S depth) min max pos
        = if limit <=? unsigned (bytesAt rng pos n)
          then getSecureRandomInt_rec rng depth min max (pos + n)
          else Ok (min + unsigned (bytesAt rng pos n) mod range)
                  (pos + n)%nat)
  /\ (range <= maxValue
      /\ forall m : nat, range <= 256 ^ Z.of_nat m -> (n <= m)%nat)
  /\ 1 <= maxValue / range
  /\ (forall t, min <= t <= max ->
                Z.of_nat (sampled min max n t) = maxValue / range).
Proof.
  intros Hle Hmin Hmax Hsize range n maxValue limit.
  split; [|split; [|split; [|split; [|split; [|split]]]]].
  - intros. apply rounded_exact; assumption.
  - intros. eapply getSecureRandomInt_in_range; eauto.
  - intros rng fuel pos k Hk Hacc.
    apply (getSecureRandomInt_returns rng fuel min max pos k Hle Hk).
    apply accepted_at_bytes; assumption.
  - intros. apply getSecureRandomInt_rec_bytes; exact Hle.
  - split.
    + apply bytesNeeded_covers. unfold range. lia.
    + intros m Hm. apply bytesNeeded_smallest; [unfold range; lia|exact Hm].
  - apply Z.div_le_lower_bound; [unfold range; lia|].
    rewrite Z.mul_1_r. apply bytesNeeded_covers. unfold range. lia.
  - intros t Ht. rewrite sampled_hits by (exact Hle || reflexivity).
    apply hits_uniform; assumption.
Qed.

(** The sampler between 0 and 87, the indices of the full character set:
    one byte is drawn and each index is returned for 2 of the 256 bytes; on
    the bytes 200, 100 the first attempt is rejected and the second
    returns. *)
Lemma getSecureRandomInt_uniform_witness :
  0 <= 87
  /\ (forall t, 0 <= t <= 87 -> Z.of_nat (sampled 0 87 1 t) = 2)
  /\ exists v pos',
       getSecureRandomInt (stream [200; 100]) 2 0 87 0%nat = Ok v pos'
       /\ 0 <= v <= 87.
Proof.
  split; [lia|].
  destruct (getSecureRandomInt_uniform 0 87 ltac:(lia) ltac:(lia) ltac:(lia)
              ltac:(lia))
    as [_ [Hrange [Hret [_ [_ [_ Hhits]]]]]].
  split; [exact Hhits|].
  destruct (Hret (stream [200; 100]) 2%nat 0%nat 1%nat)
    as [v [pos' Hv]].
  - lia.
  - vm_compute. reflexivity.
  - exists v, pos'. split; [exact Hv|]. exact (Hrange _ _ _ _ _ Hv).
Defined.

(** *** Beyond 53 bits *)

Lemma large_range_step rng depth (pos : nat) :
  Rounded.getSecureRandomInt_rec rng (S depth) 0 (2 ^ 53) pos
  = if Rounded.rejected (2 ^ 53) (256 ^ 7)
         (Rounded.bigEndian (getRandomValues rng 7 pos))
    then Rounded.getSecureRandomInt_rec rng depth 0 (2 ^ 53) (pos + 7)
    else Ok (Rounded.add 0
               (Z.rem (Rounded.bigEndian (getRandomValues rng 7 pos))
                  (2 ^ 53)))
            (pos + 7)%nat.
Proof.
  cbn [Rounded.getSecureRandomInt_rec].
  replace (Rounded.add (Rounded.sub (2 ^ 53) 0) 1) with (2 ^ 53)
    by (vm_compute; reflexivity).
  replace (bytesNeeded (2 ^ 53)) with 7%nat by (vm_compute; reflexivity).
  reflexivity.
Qed.

Lemma large_range_below rng fuel (pos : nat) (v : Z) (pos' : nat) :
  Rounded.getSecureRandomInt rng fuel 0 (2 ^ 53) pos = Ok v pos' ->
  v < 2 ^ 53.
Proof.
  unfold Rounded.getSecureRandomInt. revert pos.
  induction fuel as [|depth IH]; intros pos; [discriminate|].
  rewrite large_range_step.
  destruct (Rounded.rejected _ _ _); [apply IH|].
  intros [= <- _].
  pose proof (Z.rem_bound_abs
                (Rounded.bigEndian (getRandomValues rng 7 pos)) (2 ^ 53)
                ltac:(discriminate)) as Hrem.
  rewrite (Z.abs_eq (2 ^ 53)) in Hrem by (apply Z.pow_nonneg; lia).
  unfold Rounded.add. rewrite toNumber_exact by (cbn [Z.add]; lia).
  cbn [Z.add]. apply Z.abs_lt in Hrem. lia.
Qed.

(** C3, as first stated for every [min <= max], fails between 0 and 2^53.
    The range 2^53 + 1 is no number and is rounded to 2^53, so on the seven
    bytes FF FF FF FF FF FF 00 the call returns 2^53 - 256, although their
    value 2^56 - 256 is not below [floor(256^bytesNeeded / range) * range]
    for the range [max - min + 1]; and [max] itself is returned on no bytes
    at all. *)
Theorem getSecureRandomInt_large_range :
  Rounded.getSecureRandomInt (stream [255; 255; 255; 255; 255; 255; 0])
    1 0 (2 ^ 53) 0%nat
  = Ok (2 ^ 53 - 256) 7%nat
  /\ 256 ^ Z.of_nat (bytesNeeded (2 ^ 53 - 0 + 1)) / (2 ^ 53 - 0 + 1)
     * (2 ^ 53 - 0 + 1)
     <= unsigned [255; 255; 255; 255; 255; 255; 0]
  /\ (forall rng fuel pos v pos',
        Rounded.getSecureRandomInt rng fuel 0 (2 ^ 53) pos = Ok v pos' ->
        v <> 2 ^ 53).
Proof.
  split; [vm_compute; reflexivity|].
  split; [vm_compute; discriminate|].
  intros rng fuel pos v pos' H. apply large_range_below in H. lia.
Qed.

End SamplerFacts.

(** ** Properties of the generator *)

Module GeneratorFacts.
Import Js Generator Spec SamplerFacts.
Local Open Scope Z_scope.

(** *** Removing the similar characters *)

Lemma in_replace_first (c x : ascii) (s : jsstring) :
  NoDup s -> In x (replace_first c [] s) <-> In x s /\ x <> c.
Proof.
  induction 1 as [|y s Hy Hnd IH]; cbn [replace_first].
  - cbn. tauto.
  - destruct (Ascii.eqb_spec y c) as [->|Hne]; cbn [app In].
    + split.
      * intros Hx. split; [now right|]. intros ->. contradiction.
      * intros [[->|Hx] Hxc]; [congruence|exact Hx].
    + rewrite IH. split.
      * intros [->|[Hx Hxc]]; auto.
      * intros [[->|Hx] Hxc]; auto.
Qed.

Lemma replace_first_NoDup (c : ascii) (s : jsstring) :
  NoDup s -> NoDup (replace_first c [] s).
Proof.
  induction 1 as [|y s Hy Hnd IH]; cbn [replace_first].
  - constructor.
  - destruct (Ascii.eqb_spec y c) as [->|Hne]; cbn [app]; [exact Hnd|].
    constructor; [|exact IH].
    rewrite in_replace_first by exact Hnd. tauto.
Qed.

Lemma replace_first_length (c : ascii) (s : jsstring) :
  (List.length (replace_first c [] s) <= List.length s)%nat.
Proof.
  induction s as [|y s IH]; cbn [replace_first]; [lia|].
  destruct (Ascii.eqb y c); cbn [app List.length]; lia.
Qed.

Lemma in_remove_all (l : jsstring) (x : ascii) (s : jsstring) :
  NoDup s ->
  In x (fold_left (fun acc c => replace_first c [] acc) l s)
  <-> In x s /\ ~ In x l.
Proof.
  revert s. induction l as [|c l IH]; intros s Hnd; cbn [fold_left In].
  - tauto.
  - rewrite IH by (apply replace_first_NoDup, Hnd).
    rewrite in_replace_first by exact Hnd.
    intuition congruence.
Qed.

(** On a string without repetition, removing the first occurrence of each
    similar character removes them all. *)
Lemma in_removeSimilar (x : ascii) (s : jsstring) :
  NoDup s -> In x (removeSimilar s) <-> In x s /\ ~ In x similarChars.
Proof. apply in_remove_all. Qed.

Lemma removeSimilar_length (s : jsstring) :
  (List.length (removeSimilar s) <= List.length s)%nat.
Proof.
  unfold removeSimilar. generalize similarChars. intros l. revert s.
  induction l as [|c l IH]; intros s; cbn [fold_left]; [lia|].
  etransitivity; [apply IH|apply replace_first_length].
Qed.

Lemma includes_char_In (s : jsstring) (c : ascii) :
  includes_char s c = true <-> In c s.
Proof.
  unfold includes_char. rewrite existsb_exists. split.
  - intros [x [Hx Heq]]. apply Ascii.eqb_eq in Heq. now subst.
  - intros Hc. exists c. split; [exact Hc|apply Ascii.eqb_refl].
Qed.

Lemma distinct_NoDup (s : jsstring) : distinct s = true -> NoDup s.
Proof.
  induction s as [|x r IH]; cbn [distinct]; intros H; constructor.
  - apply andb_prop in H. destruct H as [H _].
    rewrite <- includes_char_In. now destruct (includes_char r x).
  - apply IH. now apply andb_prop in H.
Qed.

Lemma unfiltered_NoDup (o : options) : NoDup (unfiltered o).
Proof.
  apply distinct_NoDup.
  destruct o as [l [] [] [] [] e]; vm_compute; reflexivity.
Qed.

Lemma in_unfiltered (o : options) (c : ascii) :
  In c (unfiltered o) <-> exists charSet, enabled o charSet /\ In c charSet.
Proof.
  unfold unfiltered, enabled. rewrite !in_app_iff. split.
  - intros [H|[H|[H|H]]].
    + destruct (uppercase o); [|destruct H]. exists uppercaseChars. tauto.
    + destruct (lowercase o); [|destruct H]. exists lowercaseChars. tauto.
    + destruct (numbers o); [|destruct H]. exists numberChars. tauto.
    + destruct (symbols o); [|destruct H]. exists symbolChars. tauto.
  - intros [charSet [[[E ->]|[[E ->]|[[E ->]|[E ->]]]] Hc]]; rewrite E; tauto.
Qed.

Lemma buildCharset_unfold (o : options) :
  buildCharset o
  = let charset :=
      if excludeSimilar o then removeSimilar (unfiltered o) else unfiltered o in
    if len charset =? 0 then lowercaseChars ++ numberChars else charset.
Proof.
  destruct o as [l [] [] [] [] e]; reflexivity.
Qed.

Lemma in_filtered (o : options) (c : ascii) :
  In c (if excludeSimilar o then removeSimilar (unfiltered o) else unfiltered o)
  <-> contributed o c.
Proof.
  unfold contributed, kept. rewrite <- in_unfiltered.
  destruct (excludeSimilar o).
  - rewrite in_removeSimilar by apply unfiltered_NoDup. tauto.
  - split; [intros H; split; [exact H|discriminate]|tauto].
Qed.

(** The string [generatePassword] draws from holds exactly the alphabet of
    the configuration. *)
Lemma in_buildCharset (o : options) (c : ascii) :
  In c (buildCharset o) <-> in_alphabet o c.
Proof.
  rewrite buildCharset_unfold. cbv zeta. unfold in_alphabet.
  set (charset := if excludeSimilar o then _ else _).
  assert (Hin : forall d, In d charset <-> contributed o d)
    by (intros d; apply in_filtered).
  destruct (Z.eqb_spec (len charset) 0) as [H0|H0].
  - assert (charset = []) as Hnil.
    { destruct charset; [reflexivity|]. unfold len in H0. cbn in H0. lia. }
    rewrite Hnil in Hin. split.
    + intros Hc. right. split; [|exact Hc]. intros d Hd. now apply Hin in Hd.
    + intros [Hc|[_ Hc]]; [|exact Hc]. now apply Hin in Hc.
  - rewrite Hin. split; [tauto|]. intros [Hc|[Hno _]]; [exact Hc|].
    destruct charset as [|d r]; [now cbn in H0|].
    exfalso. apply (Hno d). apply Hin. now left.
Qed.

Lemma buildCharset_size (o : options) : 8 <= len (buildCharset o) <= 88.
Proof.
  destruct o as [l [] [] [] [] []]; vm_compute; split; discriminate.
Qed.

(** *** Indexing and patching strings *)

Lemma char_text_in (s : jsstring) (i : Z) :
  0 <= i < len s -> exists c, char_text s i = [c] /\ In c s.
Proof.
  intros Hi. unfold char_text, char_at, len in *.
  destruct (Z.ltb_spec i 0) as [?|_]; [lia|].
  destruct (nth_error s (Z.to_nat i)) as [c|] eqn:Hn.
  - exists c. split; [reflexivity|]. eapply nth_error_In, Hn.
  - apply nth_error_None in Hn. lia.
Qed.

Lemma substring_prefix (s : jsstring) (p : Z) :
  0 <= p <= len s -> substring s 0 p = firstn (Z.to_nat p) s.
Proof.
  intros Hp. unfold substring, clamp, len in *. cbv zeta.
  match goal with
  | |- firstn ?n (skipn ?m s) = _ =>
      assert (Hn : n = Z.to_nat p) by lia;
      assert (Hm : m = 0%nat) by lia;
      rewrite Hn, Hm
  end.
  reflexivity.
Qed.

Lemma substring_suffix (s : jsstring) (p : Z) :
  0 <= p <= len s -> substring_from s p = skipn (Z.to_nat p) s.
Proof.
  intros Hp. unfold substring_from, substring, clamp, len in *. cbv zeta.
  match goal with
  | |- firstn ?n (skipn ?m s) = _ =>
      assert (Hn : n = (List.length s - Z.to_nat p)%nat) by lia;
      assert (Hm : m = Z.to_nat p) by lia;
      rewrite Hn, Hm
  end.
  apply firstn_all2. rewrite length_skipn. lia.
Qed.

(** Overwriting position [p] of [s] with the text [t]. *)
Lemma patch_shape (s t : jsstring) (p : Z) :
  0 <= p < len s ->
  substring s 0 p ++ t ++ substring_from s (p + 1)
  = firstn (Z.to_nat p) s ++ t ++ skipn (S (Z.to_nat p)) s.
Proof.
  intros Hp. rewrite substring_prefix, substring_suffix by lia.
  now replace (Z.to_nat (p + 1)) with (S (Z.to_nat p)) by lia.
Qed.

Lemma patch_length (s t : jsstring) (p : Z) :
  0 <= p < len s -> List.length t = 1%nat ->
  List.length (substring s 0 p ++ t ++ substring_from s (p + 1))
  = List.length s.
Proof.
  intros Hp Ht. rewrite patch_shape by exact Hp.
  rewrite !length_app, length_firstn, length_skipn, Ht.
  unfold len in Hp. lia.
Qed.

Lemma Forall_firstn_skipn {A : Type} (P : A -> Prop) (n : nat) (l : list A) :
  Forall P l -> Forall P (firstn n l) /\ Forall P (skipn n l).
Proof.
  intros H. rewrite <- (firstn_skipn n l) in H. now apply Forall_app in H.
Qed.

Lemma patch_Forall (P : ascii -> Prop) (s t : jsstring) (p : Z) :
  0 <= p < len s -> Forall P s -> Forall P t ->
  Forall P (substring s 0 p ++ t ++ substring_from s (p + 1)).
Proof.
  intros Hp Hs Ht. rewrite patch_shape by exact Hp.
  rewrite !Forall_app. repeat split.
  - now apply Forall_firstn_skipn.
  - exact Ht.
  - now apply Forall_firstn_skipn.
Qed.

(** *** What the calls return *)

Lemma sampler_index rng fuel (s : jsstring) pos v pos' :
  s <> [] ->
  getSecureRandomInt rng fuel 0 (len s - 1) pos = Ok v pos' -> 0 <= v < len s.
Proof.
  intros Hs Hget.
  assert (0 < len s) by (unfold len; destruct s; [congruence|cbn; lia]).
  apply getSecureRandomInt_in_range in Hget; lia.
Qed.

Lemma drawPassword_ok rng fuel count (charset password : jsstring) pos r pos' :
  charset <> [] ->
  drawPassword rng fuel count charset password pos = Ok r pos' ->
  exists drawn, r = password ++ drawn
                /\ List.length drawn = count
                /\ Forall (fun c => In c charset) drawn.
Proof.
  intros Hcs. revert password pos.
  induction count as [|count IH]; intros password pos; cbn [drawPassword].
  - unfold ret. intros [= <- <-]. exists []. now rewrite app_nil_r.
  - unfold bind.
    destruct (getSecureRandomInt _ _ _ _ _) as [i pos1|e] eqn:Hi; [|discriminate].
    apply sampler_index in Hi; [|exact Hcs].
    destruct (char_text_in charset i Hi) as [c [-> Hc]].
    intros Hrec. apply IH in Hrec. destruct Hrec as [drawn [-> [Hl Hf]]].
    exists (c :: drawn). rewrite <- app_assoc. cbn. auto.
Qed.

Lemma in_requiredSets (o : options) (charSet : jsstring) :
  In charSet (requiredSets o) <-> enabled o charSet.
Proof.
  unfold requiredSets, enabled.
  destruct (uppercase o), (lowercase o), (numbers o), (symbols o);
    cbn; intuition congruence.
Qed.

Lemma enabled_class (o : options) (charSet : jsstring) :
  enabled o charSet ->
  NoDup charSet /\ everySimilar charSet = false /\ 10 <= len charSet <= 26.
Proof.
  intros [[_ ->]|[[_ ->]|[[_ ->]|[_ ->]]]];
    (split; [apply distinct_NoDup; vm_compute; reflexivity
            |split; [vm_compute; reflexivity|vm_compute; split; discriminate]]).
Qed.

(** The characters a patch may write belong to the alphabet. *)
Lemma validChars_alphabet (o : options) (charSet : jsstring) (c : ascii) :
  enabled o charSet ->
  In c (if excludeSimilar o then removeSimilar charSet else charSet) ->
  in_alphabet o c.
Proof.
  intros Hen Hc. left. unfold contributed, kept.
  destruct (enabled_class o charSet Hen) as [Hnd _].
  destruct (excludeSimilar o).
  - apply in_removeSimilar in Hc; [|exact Hnd]. destruct Hc as [Hc Hs].
    split; [exists charSet; auto|intros _; exact Hs].
  - split; [exists charSet; auto|discriminate].
Qed.

Lemma ensureCharType_ok rng fuel (o : options) (password charSet : jsstring)
  pos r pos' :
  enabled o charSet -> password <> [] ->
  Forall (in_alphabet o) password ->
  ensureCharType rng fuel o password charSet pos = Ok r pos' ->
  List.length r = List.length password /\ Forall (in_alphabet o) r.
Proof.
  intros Hen Hne Hpw. unfold ensureCharType, ret, bind.
  destruct (excludeSimilar o && everySimilar charSet);
    [intros [= <- <-]; auto|].
  destruct (negb (hasCharFromSet charSet password) && (len charSet >? 0));
    [|intros [= <- <-]; auto].
  set (validChars := if excludeSimilar o then _ else _).
  destruct (len validChars >? 0) eqn:Hv; [|intros [= <- <-]; auto].
  destruct (getSecureRandomInt _ _ _ _ _) as [i pos1|e] eqn:Hi; [|discriminate].
  destruct (getSecureRandomInt _ _ 0 (len password - 1) _) as [p pos2|e] eqn:Hp;
    [|discriminate].
  intros [= <- <-].
  apply sampler_index in Hp; [|exact Hne].
  apply sampler_index in Hi.
  2:{ intros Hnil. rewrite Hnil in Hv. discriminate. }
  destruct (char_text_in validChars i Hi) as [c [-> Hc]].
  split.
  - now apply patch_length.
  - apply patch_Forall; [exact Hp|exact Hpw|].
    constructor; [|constructor]. eapply validChars_alphabet; eauto.
Qed.

Lemma ensureLoop_ok rng fuel (o : options) (sets : list jsstring)
  (password : jsstring) pos r pos' :
  (forall charSet, In charSet sets -> enabled o charSet) ->
  password <> [] -> Forall (in_alphabet o) password ->
  ensureLoop rng fuel o sets password pos = Ok r pos' ->
  List.length r = List.length password /\ Forall (in_alphabet o) r.
Proof.
  revert password pos.
  induction sets as [|charSet sets IH]; intros password pos Hen Hne Hpw;
    cbn [ensureLoop].
  - unfold ret. intros [= <- <-]. auto.
  - unfold bind.
    destruct (ensureCharType _ _ _ _ _ _) as [password1 pos1|e] eqn:H1;
      [|discriminate].
    apply ensureCharType_ok in H1; [|apply Hen; now left|exact Hne|exact Hpw].
    destruct H1 as [Hl1 Hf1]. intros Hrec.
    apply IH in Hrec.
    + destruct Hrec as [Hl Hf]. split; [congruence|exact Hf].
    + intros cs Hcs. apply Hen. now right.
    + intros ->. destruct password; [congruence|discriminate].
    + exact Hf1.
Qed.

Lemma buildCharset_nonempty (o : options) : buildCharset o <> [].
Proof.
  pose proof (buildCharset_size o) as H. intros Hnil. rewrite Hnil in H.
  cbn in H. lia.
Qed.

(** Whatever the bytes, a password returned for a positive length has that
    length and is written in the alphabet of the configuration. *)
Lemma generatePassword_ok rng fuel (o : options) pos r pos' :
  1 <= length o ->
  generatePassword rng fuel o pos = Ok r pos' ->
  len r = length o /\ Forall (in_alphabet o) r.
Proof.
  intros Hlen. unfold generatePassword, ensureAllCharTypes, bind.
  destruct (drawPassword _ _ _ _ _ _) as [password pos1|e] eqn:Hd; [|discriminate].
  apply drawPassword_ok in Hd; [|apply buildCharset_nonempty].
  destruct Hd as [drawn [-> [Hl Hf]]]. cbn [app].
  intros Hloop. apply ensureLoop_ok in Hloop.
  - destruct Hloop as [Hl' Hf']. split; [|exact Hf'].
    unfold len. rewrite Hl', Hl. lia.
  - intros cs. apply in_requiredSets.
  - intros ->. cbn in Hl. lia.
  - eapply Forall_impl; [|exact Hf]. intros c. apply in_buildCharset.
Qed.

(** *** When the calls return *)

Lemma bytesNeeded_one (range : Z) :
  2 <= range <= 256 -> bytesNeeded range = 1%nat.
Proof.
  intros Hr.
  assert (bytesNeeded range <= 1)%nat
    by (apply bytesNeeded_smallest; [lia|cbn; lia]).
  pose proof (bytesNeeded_covers range ltac:(lia)) as Hc.
  destruct (bytesNeeded range) as [|[|n]]; [cbn in Hc; lia|reflexivity|lia].
Qed.

(** On a fair stream a draw over at most 88 values returns. *)
Lemma sampler_returns rng fuel (range : Z) pos :
  1 <= range <= 88 -> fair rng fuel ->
  exists v pos', getSecureRandomInt rng fuel 0 (range - 1) pos = Ok v pos'.
Proof.
  intros Hr Hfair. destruct (Hfair pos) as [k [Hk Hb]].
  apply (getSecureRandomInt_returns rng fuel 0 (range - 1) pos k);
    [lia|exact Hk|].
  unfold accepted_at. replace (range - 1 - 0 + 1) with range by lia.
  destruct (Z.eq_dec range 1) as [->|Hne].
  - vm_compute. discriminate.
  - rewrite bytesNeeded_one by lia. rewrite Nat.mul_1_r.
    intros Hnone. apply attempt_none_iff in Hnone; [|lia].
    replace (range - 1 - 0 + 1) with range in Hnone by lia.
    rewrite bytesNeeded_one in Hnone by lia.
    change (getRandomValues rng 1 (pos + k))
      with [rng (pos + k)%nat mod 256] in Hnone.
    change (256 ^ Z.of_nat 1) with 256 in Hnone.
    unfold bigEndian in Hnone. cbn [fold_left] in Hnone.
    pose proof (Z.div_mod 256 range ltac:(lia)).
    pose proof (Z.mod_pos_bound 256 range ltac:(lia)).
    lia.
Qed.

Lemma drawPassword_returns rng fuel count (charset password : jsstring) pos :
  1 <= len charset <= 88 -> fair rng fuel ->
  exists r pos', drawPassword rng fuel count charset password pos = Ok r pos'.
Proof.
  intros Hcs Hfair. revert password pos.
  induction count as [|count IH]; intros password pos; cbn [drawPassword].
  - unfold ret. eauto.
  - unfold bind.
    destruct (sampler_returns rng fuel (len charset) pos Hcs Hfair)
      as [i [pos1 ->]].
    apply IH.
Qed.

Lemma ensureCharType_returns rng fuel (o : options)
  (password charSet : jsstring) pos :
  enabled o charSet -> 1 <= len password <= 88 -> fair rng fuel ->
  exists r pos', ensureCharType rng fuel o password charSet pos = Ok r pos'.
Proof.
  intros Hen Hpw Hfair. unfold ensureCharType, ret, bind.
  destruct (excludeSimilar o && everySimilar charSet); [eauto|].
  destruct (negb (hasCharFromSet charSet password) && (len charSet >? 0));
    [|eauto].
  set (validChars := if excludeSimilar o then _ else _).
  destruct (Z.gtb_spec (len validChars) 0) as [Hv|Hv]; [|eauto].
  assert (Hsize : len validChars <= 26).
  { destruct (enabled_class o charSet Hen) as [_ [_ Hc]].
    subst validChars. destruct (excludeSimilar o); [|lia].
    pose proof (removeSimilar_length charSet). unfold len in *. lia. }
  destruct (sampler_returns rng fuel (len validChars) pos ltac:(lia) Hfair)
    as [i [pos1 ->]].
  destruct (sampler_returns rng fuel (len password) pos1 Hpw Hfair)
    as [p [pos2 ->]].
  eauto.
Qed.

Lemma ensureLoop_returns rng fuel (o : options) (sets : list jsstring)
  (password : jsstring) pos :
  (forall charSet, In charSet sets -> enabled o charSet) ->
  1 <= len password <= 88 -> Forall (in_alphabet o) password ->
  fair rng fuel ->
  exists r pos', ensureLoop rng fuel o sets password pos = Ok r pos'.
Proof.
  intros Hen Hpw Hf Hfair. revert password pos Hpw Hf.
  induction sets as [|charSet sets IH]; intros password pos Hpw Hf;
    cbn [ensureLoop].
  - unfold ret. eauto.
  - unfold bind.
    destruct (ensureCharType_returns rng fuel o password charSet pos)
      as [password1 [pos1 H1]]; [apply Hen; now left|exact Hpw|exact Hfair|].
    rewrite H1. apply ensureCharType_ok in H1.
    + destruct H1 as [Hl1 Hf1]. apply IH.
      * intros cs Hcs. apply Hen. now right.
      * unfold len in *. rewrite Hl1. exact Hpw.
      * exact Hf1.
    + apply Hen. now left.
    + intros ->. cbn in Hpw. lia.
    + exact Hf.
Qed.

(** On a fair stream [generatePassword] returns for every length from 1
    to 88. *)
Lemma generatePassword_returns rng fuel (o : options) pos :
  1 <= length o <= 88 -> fair rng fuel ->
  exists r pos', generatePassword rng fuel o pos = Ok r pos'.
Proof.
  intros Hlen Hfair. unfold generatePassword, ensureAllCharTypes, bind.
  pose proof (buildCharset_size o) as Hsize.
  destruct (drawPassword_returns rng fuel (Z.to_nat (length o))
              (buildCharset o) [] pos ltac:(lia) Hfair) as [password [pos1 Hd]].
  rewrite Hd. apply drawPassword_ok in Hd; [|apply buildCharset_nonempty].
  destruct Hd as [drawn [-> [Hl Hf]]]. cbn [app].
  apply ensureLoop_returns.
  - intros cs. apply in_requiredSets.
  - unfold len. rewrite Hl. lia.
  - eapply Forall_impl; [|exact Hf]. intros c. apply in_buildCharset.
  - exact Hfair.
Qed.

(** *** What the calls can throw *)

Lemma sampler_no_invalid rng fuel (min max : Z) pos :
  min <= max ->
  getSecureRandomInt rng fuel min max pos <> Err InvalidTypedArrayLength.
Proof.
  intros Hle. unfold getSecureRandomInt. revert pos.
  induction fuel as [|fuel IH]; intros pos; [discriminate|].
  rewrite getSecureRandomInt_rec_step by exact Hle.
  destruct (attempt _ _ _); [discriminate|apply IH].
Qed.

Lemma drawPassword_no_invalid rng fuel count (charset password : jsstring) pos :
  charset <> [] ->
  drawPassword rng fuel count charset password pos
  <> Err InvalidTypedArrayLength.
Proof.
  intros Hcs. revert password pos.
  induction count as [|count IH]; intros password pos; cbn [drawPassword];
    [discriminate|].
  unfold bind.
  destruct (getSecureRandomInt _ _ _ _ _) as [i pos1|e] eqn:Hi; [apply IH|].
  intros [= ->]. revert Hi. apply sampler_no_invalid.
  unfold len. destruct charset; [congruence|cbn [List.length]; lia].
Qed.

Lemma ensureCharType_no_invalid rng fuel (o : options)
  (password charSet : jsstring) pos :
  password <> [] ->
  ensureCharType rng fuel o password charSet pos
  <> Err InvalidTypedArrayLength.
Proof.
  intros Hne. unfold ensureCharType, ret, bind.
  destruct (excludeSimilar o && everySimilar charSet); [discriminate|].
  destruct (negb (hasCharFromSet charSet password) && (len charSet >? 0));
    [|discriminate].
  set (validChars := if excludeSimilar o then _ else _).
  destruct (Z.gtb_spec (len validChars) 0) as [Hv|Hv]; [|discriminate].
  destruct (getSecureRandomInt _ _ _ _ _) as [i pos1|e] eqn:Hi.
  - destruct (getSecureRandomInt _ _ 0 (len password - 1) _) as [p pos2|e] eqn:Hp;
      [discriminate|].
    intros [= ->]. revert Hp. apply sampler_no_invalid.
    unfold len. destruct password; [congruence|cbn [List.length]; lia].
  - intros [= ->]. revert Hi. apply sampler_no_invalid. lia.
Qed.

Lemma ensureLoop_no_invalid rng fuel (o : options) (sets : list jsstring)
  (password : jsstring) pos :
  (forall charSet, In charSet sets -> enabled o charSet) ->
  password <> [] -> Forall (in_alphabet o) password ->
  ensureLoop rng fuel o sets password pos <> Err InvalidTypedArrayLength.
Proof.
  revert password pos.
  induction sets as [|charSet sets IH]; intros password pos Hen Hne Hf;
    cbn [ensureLoop]; [discriminate|].
  unfold bind.
  destruct (ensureCharType _ _ _ _ _ _) as [password1 pos1|e] eqn:H1.
  - apply ensureCharType_ok in H1; [|apply Hen; now left|exact Hne|exact Hf].
    destruct H1 as [Hl1 Hf1]. apply IH.
    + intros cs Hcs. apply Hen. now right.
    + intros ->. destruct password; [congruence|discriminate].
    + exact Hf1.
  - intros [= ->]. revert H1. now apply ensureCharType_no_invalid.
Qed.

(** For a positive length the only failure is the exhaustion of the
    stack by the sampler. *)
Lemma generatePassword_no_invalid rng fuel (o : options) pos :
  1 <= length o ->
  generatePassword rng fuel o pos <> Err InvalidTypedArrayLength.
Proof.
  intros Hlen. unfold generatePassword, ensureAllCharTypes, bind.
  destruct (drawPassword _ _ _ _ _ _) as [password pos1|e] eqn:Hd.
  - apply drawPassword_ok in Hd; [|apply buildCharset_nonempty].
    destruct Hd as [drawn [-> [Hl Hf]]]. cbn [app].
    apply ensureLoop_no_invalid.
    + intros cs. apply in_requiredSets.
    + intros ->. cbn in Hl. lia.
    + eapply Forall_impl; [|exact Hf]. intros c. apply in_buildCharset.
  - intros [= ->]. revert Hd. apply drawPassword_no_invalid.
    apply buildCharset_nonempty.
Qed.

(** *** The inclusion step *)

Lemma hasCharFromSet_true (charSet password : jsstring) :
  hasCharFromSet charSet password = true
  <-> exists c, In c password /\ In c charSet.
Proof.
  unfold hasCharFromSet. rewrite existsb_exists.
  split; intros [c [H1 H2]]; exists c; split; auto;
    now apply includes_char_In.
Qed.

Lemma hasCharFromSet_true_intro (charSet password : jsstring) (c : ascii) :
  In c password -> In c charSet -> hasCharFromSet charSet password = true.
Proof. intros H1 H2. apply hasCharFromSet_true. eauto. Qed.

(** A round of the inclusion loop leaves a character of its own class in
    the password. *)
Lemma ensureCharType_covers rng fuel (o : options)
  (password charSet : jsstring) pos r pos' :
  enabled o charSet -> password <> [] ->
  ensureCharType rng fuel o password charSet pos = Ok r pos' ->
  exists c, In c r /\ In c charSet.
Proof.
  intros Hen Hne. destruct (enabled_class o charSet Hen) as [Hnd [Hev Hsz]].
  unfold ensureCharType, ret, bind. rewrite Hev, andb_false_r.
  destruct (hasCharFromSet charSet password) eqn:Hhas; cbn [negb andb].
  - intros [= <- <-]. now apply hasCharFromSet_true.
  - destruct (Z.gtb_spec (len charSet) 0) as [_|?]; [|lia].
    set (validChars := if excludeSimilar o then _ else _).
    destruct (Z.gtb_spec (len validChars) 0) as [Hv|Hv].
    + destruct (getSecureRandomInt _ _ _ _ _) as [i pos1|e] eqn:Hi;
        [|discriminate].
      destruct (getSecureRandomInt _ _ 0 (len password - 1) _)
        as [p pos2|e] eqn:Hp; [|discriminate].
      intros [= <- <-].
      apply sampler_index in Hp; [|exact Hne].
      apply sampler_index in Hi.
      2:{ intros Hnil. rewrite Hnil in Hv. cbn in Hv. lia. }
      destruct (char_text_in validChars i Hi) as [c [-> Hc]].
      exists c. split.
      * rewrite !in_app_iff. right. left. now left.
      * subst validChars. destruct (excludeSimilar o); [|exact Hc].
        apply in_removeSimilar in Hc; tauto.
    + exfalso. subst validChars.
      destruct Hen as [[_ ->]|[[_ ->]|[[_ ->]|[_ ->]]]];
        destruct (excludeSimilar o); vm_compute in Hv;
        apply Hv; reflexivity.
Qed.

(** *** Length, alphabet and coverage of the passwords *)

(** C1.  For every valid configuration (a length of 8 to 64, any flags), a
    password returned by [generatePassword] has exactly [length]
    characters, all of them in the alphabet of the configuration: the
    enabled classes without the similar characters when these are excluded,
    or lowercase letters and digits when no class contributes.  This holds
    whatever bytes the source delivers; the call can fail only by exhausting
    the stack in the sampler, and it returns on every fair byte stream. *)
Theorem generatePassword_length_alphabet (o : options) :
  valid o ->
  (forall rng fuel pos r pos',
      generatePassword rng fuel o pos = Ok r pos' ->
      len r = length o /\ Forall (in_alphabet o) r)
  /\ (forall rng fuel pos,
        generatePassword rng fuel o pos <> Err InvalidTypedArrayLength)
  /\ (forall rng fuel pos,
        fair rng fuel ->
        exists r pos', generatePassword rng fuel o pos = Ok r pos').
Proof.
  intros Hv. unfold valid in Hv. split; [|split].
  - intros. eapply generatePassword_ok; [lia|eassumption].
  - intros. apply generatePassword_no_invalid. lia.
  - intros. apply generatePassword_returns; [lia|assumption].
Qed.

(** The default options on the all-zero byte stream. *)
Lemma generatePassword_length_alphabet_witness :
  valid (mkOptions 16 true true true true false)
  /\ exists r pos',
       generatePassword (fun _ => 0) 1
         (mkOptions 16 true true true true false) 0%nat = Ok r pos'
       /\ len r = 16.
Proof.
  assert (Hv : valid (mkOptions 16 true true true true false))
    by (unfold valid; cbn; lia).
  split; [exact Hv|].
  destruct (generatePassword_length_alphabet _ Hv) as [Hok [_ Hret]].
  destruct (Hret (fun _ => 0) 1%nat 0%nat) as [r [pos' Hr]].
  - intros pos. exists 0%nat. split; [lia|]. cbn. lia.
  - exists r, pos'. split; [exact Hr|]. exact (proj1 (Hok _ _ _ _ _ Hr)).
Defined.

Lemma fallback_charset (o : options) :
  uppercase o = false -> lowercase o = false ->
  numbers o = false -> symbols o = false ->
  buildCharset o = lowercaseChars ++ numberChars /\ requiredSets o = [].
Proof.
  destruct o as [l u lo n sy e]. cbn. intros -> -> -> ->.
  destruct e; split; reflexivity.
Qed.

(** C9.  With a valid length and all four include-flags false,
    [generatePassword] raises no error of its own: it draws from the
    fallback alphabet of lowercase letters and digits, so every password it
    returns has [length] characters of that alphabet, and it returns on
    every fair byte stream. *)
Theorem generatePassword_fallback (o : options) :
  valid o ->
  uppercase o = false -> lowercase o = false ->
  numbers o = false -> symbols o = false ->
  buildCharset o = lowercaseChars ++ numberChars
  /\ (forall rng fuel pos,
        generatePassword rng fuel o pos <> Err InvalidTypedArrayLength)
  /\ (forall rng fuel pos r pos',
        generatePassword rng fuel o pos = Ok r pos' ->
        len r = length o
        /\ Forall (fun c => In c (lowercaseChars ++ numberChars)) r)
  /\ (forall rng fuel pos,
        fair rng fuel ->
        exists r pos', generatePassword rng fuel o pos = Ok r pos').
Proof.
  intros Hv Hu Hl Hn Hs.
  destruct (fallback_charset o Hu Hl Hn Hs) as [Hcs Hreq].
  unfold valid in Hv. split; [exact Hcs|split; [|split]].
  - intros. apply generatePassword_no_invalid. lia.
  - intros rng fuel pos r pos' Hr.
    apply generatePassword_ok in Hr; [|lia].
    destruct Hr as [Hlen Hf]. split; [exact Hlen|].
    eapply Forall_impl; [|exact Hf]. intros c Hc.
    apply in_buildCharset in Hc. now rewrite Hcs in Hc.
  - intros. apply generatePassword_returns; [lia|assumption].
Qed.

(** Length 12 with every class switched off, on the all-zero stream. *)
Lemma generatePassword_fallback_witness :
  valid (mkOptions 12 false false false false true)
  /\ exists r pos',
       generatePassword (fun _ => 0) 1
         (mkOptions 12 false false false false true) 0%nat = Ok r pos'
       /\ len r = 12
       /\ Forall (fun c => In c (lowercaseChars ++ numberChars)) r.
Proof.
  assert (Hv : valid (mkOptions 12 false false false false true))
    by (unfold valid; cbn; lia).
  split; [exact Hv|].
  destruct (generatePassword_fallback _ Hv eq_refl eq_refl eq_refl eq_refl)
    as [_ [_ [Hok Hret]]].
  destruct (Hret (fun _ => 0) 1%nat 0%nat) as [r [pos' Hr]].
  - intros pos. exists 0%nat. split; [lia|]. cbn. lia.
  - exists r, pos'. split; [exact Hr|]. exact (Hok _ _ _ _ _ Hr).
Defined.

(** C2.  A password returned for a valid configuration should hold a
    character of every enabled class that keeps one, whatever the draws.
    The inclusion step does not keep what it has established.  With
    every class enabled and length 8, let the source deliver "aaaaaaaa",
    then [A] for position 0 (uppercase was missing), [5] for position 0
    (digits were missing) and [!] for position 1: the digit overwrites the
    only uppercase letter and the password returned, "5!aaaaaa", has no
    uppercase letter although that class is enabled. *)
Theorem generatePassword_loses_class :
  valid (mkOptions 8 true true true true false)
  /\ generatePassword
       (fun i => nth i [26; 26; 26; 26; 26; 26; 26; 26; 0; 0; 5; 0; 0; 1] 0)
       1 (mkOptions 8 true true true true false) 0%nat
     = Ok (lit "5!aaaaaa") 14
  /\ ~ covers (mkOptions 8 true true true true false) (lit "5!aaaaaa").
Proof.
  split; [unfold valid; cbn; lia|]. split; [reflexivity|].
  intros Hcov.
  destruct (Hcov uppercaseChars) as [c [Hc Hu]].
  - left. split; reflexivity.
  - exists "A"%char. split; [now left|]. intros H. discriminate H.
  - pose proof (hasCharFromSet_true_intro _ _ _ Hc Hu) as Hhas.
    vm_compute in Hhas. discriminate Hhas.
Qed.

(** *** A length that is not positive *)

Lemma ensureCharType_empty rng fuel (o : options) (charSet : jsstring) pos :
  enabled o charSet ->
  (exists e, ensureCharType rng fuel o [] charSet pos = Err e)
  /\ (fair rng fuel ->
      ensureCharType rng fuel o [] charSet pos = Err InvalidTypedArrayLength).
Proof.
  intros Hen. destruct (enabled_class o charSet Hen) as [Hnd [Hev Hsz]].
  unfold ensureCharType, ret, bind. rewrite Hev, andb_false_r.
  cbn [hasCharFromSet existsb negb andb].
  destruct (Z.gtb_spec (len charSet) 0) as [_|?]; [|lia].
  set (validChars := if excludeSimilar o then _ else _).
  assert (Hv : 1 <= len validChars <= 26).
  { subst validChars.
    destruct Hen as [[_ ->]|[[_ ->]|[[_ ->]|[_ ->]]]];
      destruct (excludeSimilar o); vm_compute; split; discriminate. }
  destruct (Z.gtb_spec (len validChars) 0) as [_|?]; [|lia].
  split.
  - destruct (getSecureRandomInt _ _ _ _ _) as [i pos1|e]; [|eauto].
    unfold getSecureRandomInt. destruct fuel; cbn; eauto.
  - intros Hfair.
    destruct (sampler_returns rng fuel (len validChars) pos ltac:(lia) Hfair)
      as [i [pos1 ->]].
    destruct (Hfair 0%nat) as [k [Hk _]].
    unfold getSecureRandomInt. destruct fuel; [lia|reflexivity].
Qed.

(** C8, as the code has it.  [generatePassword] does not validate the
    length.  With a length that is not positive it draws no character; when
    all four include-flags are false it then returns the empty string, and
    when a class is enabled the inclusion step fails on the empty password:
    the call throws, and on a fair byte stream what it throws is the
    [RangeError] of the typed array. *)
Theorem generatePassword_nonpositive_length (o : options) :
  length o <= 0 ->
  forall rng fuel pos,
    (uppercase o = false /\ lowercase o = false
     /\ numbers o = false /\ symbols o = false ->
     generatePassword rng fuel o pos = Ok [] pos)
    /\ ((exists charSet, enabled o charSet) ->
        (exists e, generatePassword rng fuel o pos = Err e)
        /\ (fair rng fuel ->
            generatePassword rng fuel o pos = Err InvalidTypedArrayLength)).
Proof.
  intros Hlen rng fuel pos.
  unfold generatePassword, ensureAllCharTypes, bind.
  replace (Z.to_nat (length o)) with 0%nat by lia.
  cbn [drawPassword]. unfold ret. split.
  - intros [Hu [Hl [Hn Hs]]].
    destruct (fallback_charset o Hu Hl Hn Hs) as [_ ->]. reflexivity.
  - intros [charSet Hen].
    destruct (requiredSets o) as [|first sets] eqn:Hreq.
    + apply in_requiredSets in Hen. rewrite Hreq in Hen. destruct Hen.
    + assert (Hfirst : enabled o first)
        by (apply in_requiredSets; rewrite Hreq; now left).
      cbn [ensureLoop]. unfold bind.
      destruct (ensureCharType_empty rng fuel o first pos Hfirst)
        as [[e He] Hfair].
      split.
      * rewrite He. eauto.
      * intros Hf. now rewrite (Hfair Hf).
Qed.

(** Length 0 with uppercase letters, on the all-zero stream. *)
Lemma generatePassword_nonpositive_length_witness :
  length (mkOptions 0 true false false false false) <= 0
  /\ generatePassword (fun _ => 0) 1
       (mkOptions 0 true false false false false) 0%nat
     = Err InvalidTypedArrayLength.
Proof.
  split; [cbn; lia|].
  apply (generatePassword_nonpositive_length
           (mkOptions 0 true false false false false) ltac:(cbn; lia)
           (fun _ => 0) 1%nat 0%nat).
  - exists uppercaseChars. left. split; reflexivity.
  - intros pos. exists 0%nat. split; [lia|]. cbn. lia.
Defined.

(** C8, as stated, fails: length 0 with every class switched off is
    answered with the empty password, not with an error. *)
Lemma generatePassword_zero_length_no_error :
  length (mkOptions 0 false false false false false) <= 0
  /\ generatePassword (fun _ => 0) 1
       (mkOptions 0 false false false false false) 0%nat
     = Ok [] 0
  /\ ~ (forall o rng fuel pos,
          length o <= 0 -> exists e, generatePassword rng fuel o pos = Err e).
Proof.
  split; [cbn; lia|]. split; [reflexivity|].
  intros H.
  destruct (H (mkOptions 0 false false false false false)
              (fun _ => 0) 1%nat 0%nat ltac:(cbn; lia)) as [e He].
  discriminate He.
Qed.

End GeneratorFacts.

(** ** Properties of the analyzer *)

Module AnalyzerFacts.
Import Js Num Analyzer AnalyzerSpec.
Local Open Scope R_scope.

(** *** Standards compliance *)

Lemma test_class_iff (cls : ascii -> bool) (password : jsstring) :
  test_class cls password = true <-> has_class cls password.
Proof. unfold test_class, has_class. apply existsb_exists. Qed.

Lemma hasComplexity_iff (password : jsstring) :
  (Z.b2z (test_class isUpper password) + Z.b2z (test_class isLower password)
   + Z.b2z (test_class isDigit password)
   + Z.b2z (test_class isSymbol password) >=? 3)%Z = true
  <-> complexity password.
Proof.
  unfold complexity. cbv zeta. rewrite <- !test_class_iff.
  destruct (test_class isUpper password), (test_class isLower password),
    (test_class isDigit password), (test_class isSymbol password);
    cbn; intuition discriminate.
Qed.

(** C7.  In the report of [analyzePassword] the compliance flags are: NIST
    iff the length is at least 8; OWASP iff the length is at least 10 and
    at least three of the four character classes occur in the password;
    MICROSOFT (the vendor-style check) iff the length is at least 8 and the
    same complexity holds. *)
Theorem checkSecurityStandards_thresholds
  (password : jsstring) (options : Generator.options) :
  let c := securityStandardsCompliance (analyzePassword password options) in
  (NIST c = true <-> (8 <= len password)%Z)
  /\ (OWASP c = true <-> (10 <= len password)%Z /\ complexity password)
  /\ (MICROSOFT c = true <-> (8 <= len password)%Z /\ complexity password).
Proof.
  cbn [analyzePassword securityStandardsCompliance checkSecurityStandards
       NIST OWASP MICROSOFT minLength requiresComplexity
       SECURITY_STANDARDS.NIST SECURITY_STANDARDS.OWASP
       SECURITY_STANDARDS.MICROSOFT negb].
  rewrite !orb_false_r, !andb_true_iff, !hasComplexity_iff, !Z.geb_le.
  tauto.
Qed.

(** *** Strength tiers *)

Ltac level_cases :=
  unfold getStrengthLevel, STRENGTH_LEVELS.entries;
  cbn [find snd min max geb ltb andb
       STRENGTH_LEVELS.VERY_WEAK STRENGTH_LEVELS.WEAK STRENGTH_LEVELS.MEDIUM
       STRENGTH_LEVELS.STRONG STRENGTH_LEVELS.VERY_STRONG];
  repeat match goal with
         | |- context [Rle_dec ?a ?b] => destruct (Rle_dec a b)
         | |- context [Rlt_dec ?a ?b] => destruct (Rlt_dec a b)
         end;
  cbn [andb]; try reflexivity; try lra.

Lemma getStrengthLevel_finite (y : R) :
  0 <= y ->
  (y < 30 -> getStrengthLevel (Finite y) = STRENGTH_LEVELS.VERY_WEAK)
  /\ (30 <= y < 50 -> getStrengthLevel (Finite y) = STRENGTH_LEVELS.WEAK)
  /\ (50 <= y < 70 -> getStrengthLevel (Finite y) = STRENGTH_LEVELS.MEDIUM)
  /\ (70 <= y < 90 -> getStrengthLevel (Finite y) = STRENGTH_LEVELS.STRONG)
  /\ (90 <= y -> getStrengthLevel (Finite y) = STRENGTH_LEVELS.VERY_STRONG).
Proof.
  intros Hy. repeat split; intros H; level_cases.
Qed.

(** [Infinity] is in no range, the last one being open at [Infinity]; the
    fallback after the loop classifies it. *)
Lemma getStrengthLevel_infinity :
  find (fun entry => geb Infinity (min (snd entry))
                     && ltb Infinity (max (snd entry)))
       STRENGTH_LEVELS.entries = None
  /\ getStrengthLevel Infinity = STRENGTH_LEVELS.VERY_STRONG.
Proof. split; reflexivity. Qed.

(** C6.  For an entropy [e >= 0] the level is fixed by half-open
    intervals: VERY_WEAK below 30, WEAK on [30, 50), MEDIUM on [50, 70),
    STRONG on [70, 90) and VERY_STRONG from 90 on, [Infinity] included. *)
Theorem getStrengthLevel_intervals (e : number) :
  le (Finite 0) e ->
  (lt e (Finite 30) -> getStrengthLevel e = STRENGTH_LEVELS.VERY_WEAK)
  /\ (le (Finite 30) e -> lt e (Finite 50) ->
      getStrengthLevel e = STRENGTH_LEVELS.WEAK)
  /\ (le (Finite 50) e -> lt e (Finite 70) ->
      getStrengthLevel e = STRENGTH_LEVELS.MEDIUM)
  /\ (le (Finite 70) e -> lt e (Finite 90) ->
      getStrengthLevel e = STRENGTH_LEVELS.STRONG)
  /\ (le (Finite 90) e -> getStrengthLevel e = STRENGTH_LEVELS.VERY_STRONG).
Proof.
  destruct e as [| |y|]; cbn [le lt]; intros H0; try contradiction.
  - destruct (getStrengthLevel_finite y H0) as [H1 [H2 [H3 [H4 H5]]]].
    split; [|split; [|split; [|split]]]; intros; auto.
  - split; [|split; [|split; [|split]]]; intros; try contradiction.
    apply getStrengthLevel_infinity.
Qed.

(** An entropy of 45 bits is WEAK. *)
Lemma getStrengthLevel_intervals_witness :
  le (Finite 0) (Finite 45)
  /\ getStrengthLevel (Finite 45) = STRENGTH_LEVELS.WEAK.
Proof.
  assert (H0 : le (Finite 0) (Finite 45)) by (cbn; lra).
  split; [exact H0|].
  apply (getStrengthLevel_intervals (Finite 45) H0); cbn; lra.
Defined.

(** *** Sequential characters *)

Lemma starts_with_iff (p s : jsstring) :
  starts_with p s = true <-> exists post, s = p ++ post.
Proof.
  revert s. induction p as [|x p IH]; intros s; cbn [starts_with].
  - split; [intros _; exists s; reflexivity|reflexivity].
  - destruct s as [|y s].
    + split; [discriminate|]. intros [post H]. discriminate H.
    + rewrite andb_true_iff, IH, Ascii.eqb_eq. split.
      * intros [-> [post ->]]. exists post. reflexivity.
      * intros [post [= -> ->]]. split; [reflexivity|]. exists post. reflexivity.
Qed.

Lemma includes_iff (s sub : jsstring) :
  includes s sub = true <-> occurs sub s.
Proof.
  unfold occurs. induction s as [|y s IH]; cbn [includes];
    rewrite orb_true_iff, starts_with_iff.
  - split.
    + intros [[post H]|H]; [|discriminate]. exists [], post. exact H.
    + intros [pre [post H]]. left.
      destruct pre; [exists post; exact H|discriminate].
  - rewrite IH. split.
    + intros [[post H]|[pre [post H]]].
      * exists [], post. exact H.
      * exists (y :: pre), post. now rewrite H.
    + intros [pre [post H]]. destruct pre as [|z pre].
      * left. exists post. exact H.
      * right. injection H as _ H. exists pre, post. exact H.
Qed.

Lemma occurs_ci_iff (sub s : jsstring) :
  occurs_ci sub s <-> occurs sub (toLowerCase s).
Proof.
  unfold occurs_ci, occurs, toLowerCase. split.
  - intros [pre [w [post [-> <-]]]].
    exists (map lower_char pre), (map lower_char post).
    now rewrite !map_app.
  - intros [pre' [post' H]].
    apply map_eq_app in H. destruct H as [pre [r [-> [_ H]]]].
    apply map_eq_app in H. destruct H as [w [post [-> [Hw _]]]].
    exists pre, w, post. split; [reflexivity|exact Hw].
Qed.

Lemma count_of_filter {A : Type} (P : A -> Prop) (b : A -> bool) (l : list A) :
  (forall x, b x = true <-> P x) ->
  count_of P l (List.length (filter b l)).
Proof.
  intros Hb. induction l as [|x l IH]; cbn [filter]; [constructor|].
  destruct (b x) eqn:Hx.
  - cbn [List.length]. constructor; [now apply Hb|exact IH].
  - constructor; [|exact IH]. intros HP. apply Hb in HP. congruence.
Qed.

Lemma count_of_unique {A : Type} (P : A -> Prop) (l : list A) (n m : nat) :
  count_of P l n -> count_of P l m -> n = m.
Proof.
  intros Hn. revert m.
  induction Hn; intros m Hm; inversion Hm; subst; auto; contradiction.
Qed.

(** A loop of [checkForSequentialChars] adds 3 for every window of the
    source that the text includes. *)
Lemma countSequences_count (source text : jsstring) (count : Z) :
  Forall (fun w => List.length w = 3%nat)
    (map (fun i => substring source i (i + 3)) (indices (len source - 2))) ->
  countSequences source text count
  = (count + 3 * Z.of_nat
       (List.length
          (filter (includes text)
             (map (fun i => substring source i (i + 3))
                  (indices (len source - 2))))))%Z.
Proof.
  unfold countSequences. generalize (indices (len source - 2)). intros l.
  revert count. induction l as [|i l IH]; intros count Hl;
    cbn [fold_left map filter].
  - cbn. lia.
  - inversion Hl as [|w ws Hw Hws]; subst. rewrite IH by exact Hws.
    destruct (includes text _); cbn [List.length]; [|reflexivity].
    unfold len. rewrite Hw. lia.
Qed.

Lemma alphabet_windows :
  map (fun i => substring (lit "abcdefghijklmnopqrstuvwxyz") i (i + 3))
      (indices (len (lit "abcdefghijklmnopqrstuvwxyz") - 2))
  = letter_runs.
Proof. vm_compute. reflexivity. Qed.

Lemma numbers_windows :
  map (fun i => substring (lit "0123456789") i (i + 3))
      (indices (len (lit "0123456789") - 2))
  = digit_runs.
Proof. vm_compute. reflexivity. Qed.

Lemma runs_have_three :
  Forall (fun w => List.length w = 3%nat) letter_runs
  /\ Forall (fun w => List.length w = 3%nat) digit_runs.
Proof.
  split; apply Forall_forall; intros w Hw; apply in_map_iff in Hw;
    destruct Hw as [n [<- _]]; reflexivity.
Qed.

(** [checkForSequentialChars] counts 3 for every ascending run of letters
    present in the lowered password and for every ascending run of digits
    present in the password. *)
Lemma checkForSequentialChars_count (password : jsstring) :
  checkForSequentialChars password
  = (3 * Z.of_nat
       (List.length (filter (includes (toLowerCase password)) letter_runs)
        + List.length (filter (includes password) digit_runs)))%Z.
Proof.
  unfold checkForSequentialChars. cbv zeta.
  rewrite (countSequences_count (lit "0123456789"))
    by (rewrite numbers_windows; apply runs_have_three).
  rewrite (countSequences_count (lit "abcdefghijklmnopqrstuvwxyz"))
    by (rewrite alphabet_windows; apply runs_have_three).
  rewrite alphabet_windows, numbers_windows. lia.
Qed.

Lemma calculateEntropy_unfold (password : jsstring) :
  calculateEntropy password
  = Math_max0 (sub (baseEntropy password)
                 (repeatedPenalty password + sequentialPenalty password
                  + patternPenalty password)).
Proof.
  unfold calculateEntropy. cbv zeta. do 2 f_equal. ring.
Qed.

(** C4, as the code has it.  The penalty for sequential characters that
    [calculateEntropy] subtracts is 0.8 for each of the 3 characters of
    every ascending three-character run of the lowercase alphabet that
    occurs in the password, the case of its letters ignored, and of every
    ascending three-character run of the digits that occurs in it: 2.4 for
    each run present, overlapping runs each counted, a run present several
    times counted once. *)
Theorem sequentialPenalty_counts (password : jsstring) :
  exists a d : nat,
    count_of (fun run => occurs_ci run password) letter_runs a
    /\ count_of (fun run => occurs run password) digit_runs d
    /\ sequentialPenalty password = 8 / 10 * 3 * INR (a + d)
    /\ calculateEntropy password
       = Math_max0 (sub (baseEntropy password)
                      (repeatedPenalty password + sequentialPenalty password
                       + patternPenalty password)).
Proof.
  exists (List.length (filter (includes (toLowerCase password)) letter_runs)),
         (List.length (filter (includes password) digit_runs)).
  split; [|split; [|split]].
  - apply count_of_filter. intros run.
    rewrite includes_iff. symmetry. apply occurs_ci_iff.
  - apply count_of_filter. intros run. apply includes_iff.
  - unfold sequentialPenalty. cbv zeta.
    rewrite checkForSequentialChars_count, mult_IZR, <- INR_IZR_INZ. lra.
  - apply calculateEntropy_unfold.
Qed.

(** C4, as stated, fails on "abc": one run is present and the penalty is
    2.4, not 0.8. *)
Lemma sequentialPenalty_abc :
  count_of (fun run => occurs_ci run (lit "abc")) letter_runs 1
  /\ count_of (fun run => occurs run (lit "abc")) digit_runs 0
  /\ sequentialPenalty (lit "abc") = 24 / 10
  /\ sequentialPenalty (lit "abc") <> 8 / 10 * INR (1 + 0).
Proof.
  assert (Hp : sequentialPenalty (lit "abc") = 24 / 10).
  { unfold sequentialPenalty. cbv zeta.
    replace (checkForSequentialChars (lit "abc")) with 3%Z
      by (vm_compute; reflexivity).
    lra. }
  split; [|split; [|split]].
  - pose proof (count_of_filter (fun run => occurs_ci run (lit "abc"))
                  (includes (toLowerCase (lit "abc"))) letter_runs) as H.
    replace (List.length (filter (includes (toLowerCase (lit "abc")))
                            letter_runs)) with 1%nat in H
      by (vm_compute; reflexivity).
    apply H. intros run. rewrite includes_iff. symmetry. apply occurs_ci_iff.
  - pose proof (count_of_filter (fun run => occurs run (lit "abc"))
                  (includes (lit "abc")) digit_runs) as H.
    replace (List.length (filter (includes (lit "abc")) digit_runs))
      with 0%nat in H by (vm_compute; reflexivity).
    apply H. intros run. apply includes_iff.
  - exact Hp.
  - rewrite Hp. cbn [INR Nat.add]. lra.
Qed.

(** *** Repeated characters *)

Lemma match_repeated_skip (k : nat) (s : jsstring) :
  match_repeated_from k s = match_repeated_from O (skipn k s).
Proof.
  revert k. induction s as [|c r IH]; intros k.
  - now destruct k.
  - destruct k as [|k]; [reflexivity|].
    cbn [match_repeated_from skipn]. apply IH.
Qed.

Lemma excess_cons (m : jsstring) (ms : list jsstring) :
  excess (m :: ms) = (len m - 1 + excess ms)%Z.
Proof.
  unfold excess. cbn [fold_left].
  assert (H : forall l a,
             fold_left (fun total m0 => (total + len m0 - 1)%Z) l a
             = (a + fold_left (fun total m0 => (total + len m0 - 1)%Z) l 0)%Z).
  { induction l as [|x l IH]; intros a; cbn [fold_left]; [lia|].
    rewrite IH, (IH (0 + len x - 1)%Z). lia. }
  rewrite H. lia.
Qed.

Lemma run_length_le (c : ascii) (s : jsstring) :
  (run_length c s <= List.length s)%nat.
Proof.
  induction s as [|x r IH]; cbn [run_length List.length]; [lia|].
  destruct (Ascii.eqb x c); lia.
Qed.

Lemma equal_pairs_cons (keep : ascii -> bool) (c d : ascii) (r : jsstring) :
  equal_pairs keep (c :: d :: r)
  = ((if keep c && Ascii.eqb c d then 1 else 0) + equal_pairs keep (d :: r))%Z.
Proof. reflexivity. Qed.

(** The pairs of a string that starts with a run of [c]. *)
Lemma equal_pairs_run (keep : ascii -> bool) (c : ascii) (r : jsstring) :
  equal_pairs keep (c :: r)
  = ((if keep c then Z.of_nat (run_length c r) else 0)
     + equal_pairs keep (skipn (run_length c r) r))%Z.
Proof.
  revert c. induction r as [|d r IH]; intros c.
  - cbn. now destruct (keep c).
  - rewrite equal_pairs_cons. cbn [run_length]. rewrite (Ascii.eqb_sym d c).
    destruct (Ascii.eqb_spec c d) as [<-|Hne].
    + cbn [skipn]. rewrite IH, andb_true_r. destruct (keep c); lia.
    + cbn [skipn]. rewrite andb_false_r. destruct (keep c); lia.
Qed.

Lemma equal_pairs_run_skip (keep : ascii -> bool) (c : ascii) (r : jsstring) :
  keep c = false ->
  (0 + equal_pairs keep (skipn (run_length c r) r))%Z = equal_pairs keep r.
Proof.
  intros Hk. destruct r as [|d r]; [reflexivity|].
  cbn [run_length]. rewrite (Ascii.eqb_sym d c).
  destruct (Ascii.eqb_spec c d) as [<-|Hne]; [|reflexivity].
  cbn [skipn]. rewrite (equal_pairs_run keep c r), Hk. reflexivity.
Qed.

(** The matches of [/(.)\1+/g] cover exactly the adjacent equal pairs of
    characters that are not line terminators. *)
Lemma excess_matches (s : jsstring) :
  excess (match_repeated_from O s) = equal_pairs dot s.
Proof.
  remember (List.length s) as n eqn:Hn.
  revert s Hn. induction n as [n IH] using lt_wf_ind. intros s Hn.
  destruct s as [|c r]; [reflexivity|].
  cbn [match_repeated_from]. rewrite equal_pairs_run.
  pose proof (run_length_le c r) as Hle.
  assert (Hrest : excess (match_repeated_from O (skipn (run_length c r) r))
                  = equal_pairs dot (skipn (run_length c r) r)).
  { apply (IH (List.length (skipn (run_length c r) r))); [|reflexivity].
    rewrite length_skipn. subst n. cbn [List.length]. lia. }
  destruct (dot c) eqn:Hdot; cbn [andb].
  - destruct (Nat.leb_spec 1 (run_length c r)) as [H1|H1].
    + rewrite excess_cons, match_repeated_skip, Hrest.
      unfold len. cbn [List.length]. rewrite length_firstn. lia.
    + replace (run_length c r) with O in * by lia. cbn [skipn] in *.
      rewrite Hrest. lia.
  - rewrite equal_pairs_run_skip by exact Hdot.
    apply (IH (List.length r)); [subst n; cbn [List.length]; lia|reflexivity].
Qed.

Lemma runs_head (c : ascii) (r : jsstring) :
  exists k t, runs (c :: r) = (c, S k) :: t.
Proof.
  cbn [runs]. destruct (runs r) as [|[d k] t]; [eauto|].
  destruct (Ascii.eqb c d); eauto.
Qed.

Lemma runs_cons (c d : ascii) (r : jsstring) (k : nat) (t : list (ascii * nat)) :
  runs (d :: r) = (d, k) :: t ->
  runs (c :: d :: r)
  = if Ascii.eqb c d then (c, S k) :: t else (c, 1%nat) :: (d, k) :: t.
Proof.
  intros H. change (runs (c :: d :: r))
    with (match runs (d :: r) with
          | (d0, k0) :: t0 =>
              if Ascii.eqb c d0 then (c, S k0) :: t0
              else (c, 1%nat) :: (d0, k0) :: t0
          | [] => [(c, 1%nat)]
          end).
  now rewrite H.
Qed.

(** Summing [k - 1] over the maximal runs counts the adjacent equal
    pairs. *)
Lemma run_excess_pairs (keep : ascii -> bool) (s : jsstring) :
  run_excess_where keep s = equal_pairs keep s.
Proof.
  induction s as [|c r IH]; [reflexivity|].
  destruct r as [|d r]; [reflexivity|].
  destruct (runs_head d r) as [k [t Hr]].
  rewrite equal_pairs_cons, <- IH. unfold run_excess_where.
  rewrite (runs_cons c d r (S k) t Hr), Hr.
  destruct (Ascii.eqb_spec c d) as [<-|Hne].
  - cbn [filter fst snd Nat.leb]. rewrite andb_true_r.
    destruct (keep c), k; cbn [andb fold_right snd Nat.leb]; lia.
  - rewrite andb_false_r. reflexivity.
Qed.

(** What [calculateEntropy] adds to the penalty for repeated characters:
    0.5 * (k - 1) for every maximal run of [k >= 2] equal characters other
    than line terminators. *)
Lemma repeatedPenalty_runs (password : jsstring) :
  repeatedPenalty password = 5 / 10 * IZR (run_excess_where dot password).
Proof.
  rewrite run_excess_pairs, <- excess_matches.
  unfold repeatedPenalty, match_repeated.
  destruct (match_repeated_from O password) as [|m ms].
  - cbn. lra.
  - fold (excess (m :: ms)). lra.
Qed.

Lemma run_excess_where_dot (password : jsstring) :
  Forall (fun c => dot c = true) password ->
  run_excess_where dot password = run_excess password.
Proof.
  intros Hdot. unfold run_excess. rewrite !run_excess_pairs.
  induction password as [|c r IH]; [reflexivity|].
  destruct r as [|d r]; [reflexivity|].
  inversion Hdot as [|? ? Hc Hr]; subst.
  rewrite !equal_pairs_cons, IH, Hc by exact Hr. reflexivity.
Qed.

(** On passwords without line terminators the penalty for repeated
    characters is the one of the specification. *)
Lemma repeatedPenalty_spec (password : jsstring) :
  Forall (fun c => dot c = true) password ->
  repeatedPenalty password = run_penalty password.
Proof.
  intros Hdot. unfold run_penalty.
  now rewrite repeatedPenalty_runs, run_excess_where_dot.
Qed.

(** *** Bounds on base-2 logarithms *)

Lemma ln_2_pos : 0 < ln 2.
Proof. pose proof ln_lt_2. lra. Qed.

Lemma ln_monotone (x y : R) : 0 < x -> x <= y -> ln x <= ln y.
Proof.
  intros Hx [Hlt | ->]; [left; now apply ln_increasing | right; reflexivity].
Qed.

Lemma ln_IZR_pow (x p : Z) :
  (0 < x)%Z -> (0 <= p)%Z -> ln (IZR (x ^ p)) = IZR p * ln (IZR x).
Proof.
  intros Hx Hp.
  rewrite <- (Z2Nat.id p Hp) at 1. rewrite <- pow_IZR, ln_pow.
  - now rewrite INR_IZR_INZ, Z2Nat.id.
  - now apply IZR_lt.
Qed.

(** [q / p <= log2 x] follows from [2^q <= x^p], a comparison of
    integers. *)
Lemma log2_lower (x q p : Z) :
  (0 < x)%Z -> (0 <= q)%Z -> (0 < p)%Z -> (2 ^ q <= x ^ p)%Z ->
  IZR q / IZR p <= log2 (IZR x).
Proof.
  intros Hx Hq Hp Hpow. unfold log2.
  assert (Hl : IZR q * ln 2 <= IZR p * ln (IZR x)).
  { rewrite <- !ln_IZR_pow by lia. apply ln_monotone.
    - apply IZR_lt. apply Z.pow_pos_nonneg; lia.
    - now apply IZR_le. }
  pose proof ln_2_pos as H2. assert (Hp' : 0 < IZR p) by now apply IZR_lt.
  apply Rmult_le_reg_r with (IZR p * ln 2); [nra|].
  field_simplify; [|lra|lra]. nra.
Qed.

Lemma log2_upper (x q p : Z) :
  (0 < x)%Z -> (0 <= q)%Z -> (0 < p)%Z -> (x ^ p <= 2 ^ q)%Z ->
  log2 (IZR x) <= IZR q / IZR p.
Proof.
  intros Hx Hq Hp Hpow. unfold log2.
  assert (Hl : IZR p * ln (IZR x) <= IZR q * ln 2).
  { rewrite <- !ln_IZR_pow by lia. apply ln_monotone.
    - apply IZR_lt. apply Z.pow_pos_nonneg; lia.
    - now apply IZR_le. }
  pose proof ln_2_pos as H2. assert (Hp' : 0 < IZR p) by now apply IZR_lt.
  apply Rmult_le_reg_r with (IZR p * ln 2); [nra|].
  field_simplify; [|lra|lra]. nra.
Qed.

(** The base entropy of a password whose [Math.pow] does not overflow. *)
Lemma baseEntropy_finite (password : jsstring) (size : Z) :
  charsetSizeOf password = size ->
  (0 < size ^ Z.of_nat (List.length password) < 2 ^ 1024)%Z ->
  baseEntropy password
  = Finite (log2 (IZR (size ^ Z.of_nat (List.length password)))).
Proof.
  intros Hs Hp. unfold baseEntropy. rewrite Hs. unfold Math_pow.
  destruct (Z.leb_spec (2 ^ 1024) (size ^ Z.of_nat (List.length password)))
    as [H|_]; [lia|].
  unfold Math_log2.
  assert (0 < IZR (size ^ Z.of_nat (List.length password)))
    by (apply IZR_lt; lia).
  destruct (Rlt_dec _ 0); [lra|]. destruct (Rlt_dec 0 _); [reflexivity|lra].
Qed.

(** *** The penalties and the floor *)

Lemma equal_pairs_nonneg (keep : ascii -> bool) (s : jsstring) :
  (0 <= equal_pairs keep s)%Z.
Proof.
  induction s as [|c r IH]; [cbn; lia|].
  destruct r as [|d r]; [cbn; lia|].
  rewrite equal_pairs_cons. destruct (keep c && Ascii.eqb c d); lia.
Qed.

Lemma repeatedPenalty_nonneg (password : jsstring) :
  0 <= repeatedPenalty password.
Proof.
  rewrite repeatedPenalty_runs, run_excess_pairs.
  pose proof (IZR_le _ _ (equal_pairs_nonneg dot password)). lra.
Qed.

Lemma sequentialPenalty_nonneg (password : jsstring) :
  0 <= sequentialPenalty password.
Proof.
  unfold sequentialPenalty. cbv zeta. rewrite checkForSequentialChars_count.
  match goal with
  | |- 0 <= IZR ?z * _ => assert (0 <= IZR z) by (apply IZR_le; lia)
  end.
  lra.
Qed.

Lemma patternPenalty_nonneg (password : jsstring) :
  0 <= patternPenalty password.
Proof.
  unfold patternPenalty. destruct (checkForCommonPatterns password); [|lra].
  assert (0 <= IZR (len password)) by (apply IZR_le; unfold len; lia).
  lra.
Qed.

Lemma charsetSizeOf_nonneg (password : jsstring) :
  (0 <= charsetSizeOf password)%Z.
Proof.
  unfold charsetSizeOf.
  destruct (test_class isUpper password), (test_class isLower password),
    (test_class isDigit password), (test_class isSymbol password); cbn; lia.
Qed.

(** The base entropy is a number: finite, or infinite on overflow or on an
    empty character set. *)
Lemma baseEntropy_not_NaN (password : jsstring) : baseEntropy password <> NaN.
Proof.
  unfold baseEntropy, Math_pow.
  destruct (Z.leb _ _); [discriminate|]. unfold Math_log2.
  assert (0 <= IZR (charsetSizeOf password ^ Z.of_nat (List.length password))).
  { apply IZR_le. apply Z.pow_nonneg, charsetSizeOf_nonneg. }
  destruct (Rlt_dec _ 0); [lra|]. destruct (Rlt_dec 0 _); discriminate.
Qed.

(** The penalties on the passwords that the expression for repeated
    characters reads in full: without line terminators,
    [calculateEntropy] subtracts 0.5 * (k - 1) for every maximal run of
    [k >= 2] equal characters, next to the two other penalties, and floors
    the result at 0. *)
Lemma calculateEntropy_penalized (password : jsstring) :
  Forall (fun c => dot c = true) password ->
  calculateEntropy password
  = Math_max0 (sub (baseEntropy password)
                 (run_penalty password + sequentialPenalty password
                  + patternPenalty password))
  /\ le (Finite 0) (calculateEntropy password).
Proof.
  intros Hdot. rewrite calculateEntropy_unfold, repeatedPenalty_spec by exact Hdot.
  split; [reflexivity|].
  pose proof (baseEntropy_not_NaN password) as Hn.
  destruct (baseEntropy password); cbn [sub Math_max0 le];
    [congruence|lra|apply Rmax_l|exact I].
Qed.

(** *** The password "aaaaaaaa" *)

Ltac zle := apply Z.leb_le; vm_compute; reflexivity.

Lemma base_aaaaaaaa :
  baseEntropy (lit "aaaaaaaa") = Finite (log2 (IZR (26 ^ 8)))
  /\ 376 / 10 <= log2 (IZR (26 ^ 8)) <= 192 / 5.
Proof.
  split; [|split].
  - apply (baseEntropy_finite (lit "aaaaaaaa") 26); [reflexivity|].
    vm_compute. split; reflexivity.
  - apply (log2_lower (26 ^ 8) 376 10); try lia; zle.
  - apply (log2_upper (26 ^ 8) 192 5); try lia; zle.
Qed.

Lemma penalties_aaaaaaaa :
  repeatedPenalty (lit "aaaaaaaa") = 35 / 10
  /\ sequentialPenalty (lit "aaaaaaaa") = 0
  /\ patternPenalty (lit "aaaaaaaa") = 16 / 10.
Proof.
  split; [|split].
  - rewrite repeatedPenalty_runs.
    replace (run_excess_where dot (lit "aaaaaaaa")) with 7%Z
      by (vm_compute; reflexivity).
    lra.
  - unfold sequentialPenalty. cbv zeta.
    replace (checkForSequentialChars (lit "aaaaaaaa")) with 0%Z
      by (vm_compute; reflexivity).
    lra.
  - unfold patternPenalty.
    replace (checkForCommonPatterns (lit "aaaaaaaa")) with true
      by (vm_compute; reflexivity).
    replace (len (lit "aaaaaaaa")) with 8%Z by (vm_compute; reflexivity).
    lra.
Qed.

(** The example "aaaaaaaa": the run of length 8 contributes
    3.5 bits to the penalty, the entropy is below the unpenalized base
    entropy (before and after rounding), and the tier is "weak", the second
    lowest. *)
Lemma analyzePassword_aaaaaaaa (options : Generator.options) :
  let password := lit "aaaaaaaa" in
  let base := log2 (IZR (26 ^ 8)) in
  runs password = [("a"%char, 8%nat)]
  /\ baseEntropy password = Finite base
  /\ repeatedPenalty password = 5 / 10 * (8 - 1)
  /\ calculateEntropy password = Finite (base - 35 / 10 - 0 - 16 / 10)
  /\ lt (calculateEntropy password) (baseEntropy password)
  /\ entropy (analyzePassword password options) = Finite 33
  /\ 33 < base
  /\ strengthLevel (analyzePassword password options) = lit "weak".
Proof.
  intros password base.
  destruct base_aaaaaaaa as [Hb [Hlo Hhi]].
  destruct penalties_aaaaaaaa as [Hr [Hs Hp]].
  fold password in Hb, Hr, Hs, Hp. fold base in Hb, Hlo, Hhi.
  assert (He : calculateEntropy password = Finite (base - 35 / 10 - 0 - 16 / 10)).
  { rewrite calculateEntropy_unfold, Hb, Hr, Hs, Hp. cbn [sub Math_max0].
    f_equal. rewrite Rmax_right; lra. }
  split; [reflexivity|]. split; [exact Hb|]. split; [rewrite Hr; lra|].
  split; [exact He|]. split; [rewrite He, Hb; cbn [lt]; lra|].
  split; [|split; [lra|]].
  - unfold analyzePassword. cbn [entropy]. rewrite He. cbn [Math_round].
    f_equal. f_equal. apply Zfloor_eq. lra.
  - unfold analyzePassword. cbn [strengthLevel]. rewrite He.
    destruct (getStrengthLevel_finite (base - 35 / 10 - 0 - 16 / 10))
      as [_ [Hweak _]]; [lra|].
    rewrite Hweak by lra. reflexivity.
Qed.

(** *** Two line feeds *)

(** C5.  [calculateEntropy] should subtract 0.5 * (k - 1) for every
    maximal run of [k >= 2] equal characters of any password.  The group
    [(.)] of the expression that finds the repeated characters does not
    match a line terminator.  On the password made of
    two line feeds, one maximal run of length 2, the specification
    subtracts 0.5 * (2 - 1), while [calculateEntropy] finds no repeated
    character, adds nothing to the penalty and returns the base entropy. *)
Theorem calculateEntropy_skips_line_terminators :
  runs [LF; LF] = [(LF, 2%nat)]
  /\ run_penalty [LF; LF] = 5 / 10 * (2 - 1)
  /\ match_repeated [LF; LF] = None
  /\ repeatedPenalty [LF; LF] = 0
  /\ baseEntropy [LF; LF] = Finite (log2 (IZR (33 ^ 2)))
  /\ calculateEntropy [LF; LF] = baseEntropy [LF; LF].
Proof.
  assert (Hb : baseEntropy [LF; LF] = Finite (log2 (IZR (33 ^ 2)))).
  { apply (baseEntropy_finite [LF; LF] 33); [reflexivity|].
    vm_compute. split; reflexivity. }
  assert (Hr : repeatedPenalty [LF; LF] = 0) by reflexivity.
  assert (Hs : sequentialPenalty [LF; LF] = 0).
  { unfold sequentialPenalty. cbv zeta.
    replace (checkForSequentialChars [LF; LF]) with 0%Z
      by (vm_compute; reflexivity).
    lra. }
  assert (Hp : patternPenalty [LF; LF] = 0).
  { unfold patternPenalty.
    replace (checkForCommonPatterns [LF; LF]) with false
      by (vm_compute; reflexivity).
    reflexivity. }
  split; [reflexivity|]. split.
  { unfold run_penalty.
    replace (run_excess [LF; LF]) with 1%Z by (vm_compute; reflexivity). lra. }
  split; [reflexivity|]. split; [exact Hr|]. split; [exact Hb|].
  rewrite calculateEntropy_unfold, Hb, Hr, Hs, Hp. cbn [sub Math_max0].
  f_equal. rewrite Rmax_right; [lra|].
  assert (0 <= log2 (IZR (33 ^ 2))).
  { pose proof (log2_lower (33 ^ 2) 0 1 ltac:(lia) ltac:(lia) ltac:(lia)
                  ltac:(zle)) as H. lra. }
  lra.
Qed.

(** *** The two classifiers *)

Lemma generator_tier (password : jsstring) :
  Generator.strengthLevel (Generator.calculateStrength password)
  = if ltb (baseEntropy password) (Finite 40) then lit "weak"
    else if ltb (baseEntropy password) (Finite 60) then lit "medium"
    else if ltb (baseEntropy password) (Finite 80) then lit "strong"
    else lit "very-strong".
Proof. reflexivity. Qed.

Lemma analyzer_tier (password : jsstring) (options : Generator.options) :
  strengthLevel (analyzePassword password options)
  = replace_first " "%char (lit "-")
      (toLowerCase (label (getStrengthLevel (calculateEntropy password)))).
Proof. reflexivity. Qed.

Lemma level_names :
  let name l := replace_first " "%char (lit "-") (toLowerCase (label l)) in
  name STRENGTH_LEVELS.VERY_WEAK = lit "very-weak"
  /\ name STRENGTH_LEVELS.WEAK = lit "weak"
  /\ name STRENGTH_LEVELS.MEDIUM = lit "medium"
  /\ name STRENGTH_LEVELS.STRONG = lit "strong"
  /\ name STRENGTH_LEVELS.VERY_STRONG = lit "very-strong".
Proof. repeat split. Qed.

(** The tier of the analyzer for a finite entropy, by rank. *)
Lemma analyzer_rank_finite (y : R) :
  0 <= y ->
  exists a,
    tier_rank (replace_first " "%char (lit "-")
                 (toLowerCase (label (getStrengthLevel (Finite y))))) = Some a
    /\ (y < 30 -> a = 0%nat) /\ (y < 50 -> (a <= 1)%nat)
    /\ (y < 70 -> (a <= 2)%nat) /\ (y < 90 -> (a <= 3)%nat)
    /\ (a <= 4)%nat.
Proof.
  intros Hy. destruct (getStrengthLevel_finite y Hy) as [H0 [H1 [H2 [H3 H4]]]].
  destruct (Rlt_dec y 30); [exists 0%nat; rewrite H0 by lra|].
  2: destruct (Rlt_dec y 50); [exists 1%nat; rewrite H1 by lra|].
  3: destruct (Rlt_dec y 70); [exists 2%nat; rewrite H2 by lra|].
  4: destruct (Rlt_dec y 90);
       [exists 3%nat; rewrite H3 by lra|exists 4%nat; rewrite H4 by lra].
  all: split; [reflexivity|]; repeat split; intros; try lia; lra.
Qed.

(** C10, as the code has it.  The two classifiers read the same base
    entropy, the generator with the thresholds 40, 60 and 80 and the
    analyzer, after the penalties, with 30, 50, 70 and 90.  In the order
    very-weak < weak < medium < strong < very-strong the tier of the
    analyzer is never above the tier of the generator. *)
Theorem analyzer_tier_not_above_generator
  (password : jsstring) (options : Generator.options) :
  exists g a : nat,
    tier_rank (Generator.strengthLevel (Generator.calculateStrength password))
    = Some g
    /\ tier_rank (strengthLevel (analyzePassword password options)) = Some a
    /\ (a <= g)%nat.
Proof.
  rewrite generator_tier, analyzer_tier, calculateEntropy_unfold.
  pose proof (repeatedPenalty_nonneg password) as Hrep.
  pose proof (sequentialPenalty_nonneg password) as Hseq.
  pose proof (patternPenalty_nonneg password) as Hpat.
  set (p := repeatedPenalty password + sequentialPenalty password
            + patternPenalty password).
  assert (Hp : 0 <= p) by (subst p; lra).
  destruct (baseEntropy password) as [| |x|]; cbn [sub Math_max0 ltb].
  - exists 4%nat, 4%nat. repeat split; lia.
  - exists 1%nat, 0%nat. split; [reflexivity|]. split; [|lia].
    destruct (getStrengthLevel_finite 0) as [Hvw _]; [lra|].
    rewrite Hvw by lra. reflexivity.
  - destruct (analyzer_rank_finite (Rmax 0 (x - p)) (Rmax_l _ _))
      as [a [Ha [_ [H1 [H2 [H3 H4]]]]]].
    assert (Hmax : forall t, 0 < t -> x < t -> Rmax 0 (x - p) < t).
    { intros t Ht Hx. apply Rmax_lub_lt; lra. }
    destruct (Rlt_dec x 40); [exists 1%nat, a|].
    2: destruct (Rlt_dec x 60); [exists 2%nat, a|].
    3: destruct (Rlt_dec x 80); [exists 3%nat, a|exists 4%nat, a].
    all: split; [reflexivity|]; split; [exact Ha|].
    + apply H1, Hmax; lra.
    + apply H2, Hmax; lra.
    + apply H3, Hmax; lra.
    + exact H4.
  - exists 4%nat, 4%nat. repeat split; lia.
Qed.

(** C10, as stated, fails on "aB3dE5gH": the generator calls it "medium",
    the analyzer "weak". *)
Lemma classifiers_differ :
  Generator.strengthLevel (Generator.calculateStrength (lit "aB3dE5gH"))
  = lit "medium"
  /\ strengthLevel
       (analyzePassword (lit "aB3dE5gH")
          (Generator.mkOptions 8 true true true false false))
     = lit "weak"
  /\ Generator.strengthLevel (Generator.calculateStrength (lit "aB3dE5gH"))
     <> strengthLevel
          (analyzePassword (lit "aB3dE5gH")
             (Generator.mkOptions 8 true true true false false)).
Proof.
  assert (Hb : baseEntropy (lit "aB3dE5gH") = Finite (log2 (IZR (62 ^ 8)))).
  { apply (baseEntropy_finite (lit "aB3dE5gH") 62); [reflexivity|].
    vm_compute. split; reflexivity. }
  assert (Hlo : 47 <= log2 (IZR (62 ^ 8))).
  { pose proof (log2_lower (62 ^ 8) 47 1 ltac:(lia) ltac:(lia) ltac:(lia)
                  ltac:(zle)). lra. }
  assert (Hhi : log2 (IZR (62 ^ 8)) <= 48).
  { pose proof (log2_upper (62 ^ 8) 48 1 ltac:(lia) ltac:(lia) ltac:(lia)
                  ltac:(zle)). lra. }
  assert (Hg : Generator.strengthLevel
                 (Generator.calculateStrength (lit "aB3dE5gH")) = lit "medium").
  { rewrite generator_tier, Hb. cbn [ltb].
    destruct (Rlt_dec _ 40); [lra|]. destruct (Rlt_dec _ 60); [reflexivity|lra]. }
  assert (Ha : strengthLevel
                 (analyzePassword (lit "aB3dE5gH")
                    (Generator.mkOptions 8 true true true false false))
               = lit "weak").
  { rewrite analyzer_tier, calculateEntropy_unfold, Hb.
    assert (Hr : repeatedPenalty (lit "aB3dE5gH") = 0) by reflexivity.
    assert (Hs : sequentialPenalty (lit "aB3dE5gH") = 0).
    { unfold sequentialPenalty. cbv zeta.
      replace (checkForSequentialChars (lit "aB3dE5gH")) with 0%Z
        by (vm_compute; reflexivity).
      lra. }
    assert (Hp : patternPenalty (lit "aB3dE5gH") = 16 / 10).
    { unfold patternPenalty.
      replace (checkForCommonPatterns (lit "aB3dE5gH")) with true
        by (vm_compute; reflexivity).
      replace (len (lit "aB3dE5gH")) with 8%Z by (vm_compute; reflexivity).
      lra. }
    rewrite Hr, Hs, Hp. cbn [sub Math_max0].
    rewrite Rmax_right by lra.
    destruct (getStrengthLevel_finite (log2 (IZR (62 ^ 8)) - (0 + 0 + 16 / 10)))
      as [_ [Hweak _]]; [lra|].
    rewrite Hweak by lra. reflexivity. }
  split; [exact Hg|]. split; [exact Ha|].
  rewrite Hg, Ha. discriminate.
Qed.

End AnalyzerFacts.

(** ** More on the sampler *)

Module SamplerMore.
Import Js Generator Spec SamplerFacts.
Local Open Scope Z_scope.

(** A call returns what its first accepted attempt yields, and has then
    read the bytes of every attempt up to that one.  For numbers of at most
    53 bits and a range of at most 2^48, where no step rounds: if the
    values of the attempts [0 .. k-1] reach the limit
    [floor(256^n / range) * range] and the value of attempt [k < fuel] is
    below it, the call returns [min] plus that value modulo the range, and
    the stream stands [(k + 1) * n] bytes further. *)
Theorem getSecureRandomInt_first_accepted
  rng fuel (min max : Z) (pos k : nat) :
  let range := max - min + 1 in
  let n := bytesNeeded range in
  let limit := 256 ^ Z.of_nat n / range * range in
  let value := fun j : nat => unsigned (bytesAt rng (pos + j * n) n) in
  min <= max -> - 2 ^ 53 <= min -> max <= 2 ^ 53 -> range <= 2 ^ 48 ->
  (k < fuel)%nat ->
  (forall j, (j < k)%nat -> limit <= value j) ->
  value k < limit ->
  getSecureRandomInt rng fuel min max pos
  = Ok (min + value k mod range) (pos + (k + 1) * n)
  /\ Rounded.getSecureRandomInt rng fuel min max pos
     = Ok (min + value k mod range) (pos + (k + 1) * n).
Proof.
  intros range n limit value Hle Hmin Hmax Hsize Hk Hrej Hacc.
  assert (Hexact :
    getSecureRandomInt rng fuel min max pos
    = Ok (min + value k mod range) (pos + (k + 1) * n)).
  { unfold getSecureRandomInt. subst value. cbv beta in *.
    revert pos k Hk Hrej Hacc.
    induction fuel as [|depth IH]; intros pos k Hk Hrej Hacc; [lia|].
    rewrite getSecureRandomInt_rec_bytes by exact Hle.
    fold range. fold n. fold limit.
    destruct k as [|k].
    - rewrite Nat.mul_0_l, Nat.add_0_r in Hacc |- *.
      destruct (Z.leb_spec limit (unsigned (bytesAt rng pos n))); [lia|].
      f_equal. lia.
    - pose proof (Hrej 0%nat ltac:(lia)) as H0.
      rewrite Nat.mul_0_l, Nat.add_0_r in H0.
      apply Z.leb_le in H0. rewrite H0.
      replace (pos + S k * n)%nat with (pos + n + k * n)%nat in * by lia.
      rewrite (IH (pos + n)%nat k).
      + f_equal. lia.
      + lia.
      + intros j Hj. specialize (Hrej (S j) ltac:(lia)).
        replace (pos + S j * n)%nat with (pos + n + j * n)%nat in Hrej by lia.
        exact Hrej.
      + exact Hacc. }
  split; [exact Hexact|].
  rewrite rounded_exact by assumption. exact Hexact.
Qed.

(** Between 0 and 87 on the bytes 200, 100: the first byte is rejected,
    the second gives 100 mod 88. *)
Lemma getSecureRandomInt_first_accepted_witness :
  getSecureRandomInt (stream [200; 100]) 2 0 87 0%nat = Ok 12 2%nat.
Proof.
  refine (proj1 (getSecureRandomInt_first_accepted
                   (stream [200; 100]) 2 0 87 0 1 _ _ _ _ _ _ _)).
  - lia.
  - lia.
  - lia.
  - vm_compute. discriminate.
  - lia.
  - intros j Hj. assert (j = 0%nat) as -> by lia.
    vm_compute. discriminate.
  - vm_compute. reflexivity.
Defined.

(** The ranges that are no ranges.  With [min = max] the sampler returns
    that number and reads no byte; with [max = min - 1], an empty range, it
    throws the [RangeError] of the typed array; with [max < min - 1] it
    quietly returns [min]. *)
Theorem getSecureRandomInt_degenerate rng fuel (m : Z) (pos : nat) :
  (0 < fuel)%nat ->
  getSecureRandomInt rng fuel m m pos = Ok m pos
  /\ getSecureRandomInt rng fuel m (m - 1) pos = Err InvalidTypedArrayLength
  /\ (forall max, max < m - 1 ->
                  getSecureRandomInt rng fuel m max pos = Ok m pos).
Proof.
  intros Hfuel. destruct fuel as [|fuel]; [lia|].
  unfold getSecureRandomInt. split; [|split].
  - rewrite getSecureRandomInt_rec_step by lia.
    replace (m - m + 1) with 1 by lia.
    change (bytesNeeded 1) with 0%nat.
    unfold attempt. replace (m - m + 1) with 1 by lia.
    change (bytesNeeded 1) with 0%nat. cbn. f_equal; lia.
  - cbn [getSecureRandomInt_rec].
    replace (m - 1 - m + 1) with 0 by lia. reflexivity.
  - intros max Hmax. cbn [getSecureRandomInt_rec].
    destruct (Z.ltb_spec (max - m + 1) 0) as [_|H]; [|lia].
    rewrite Z.rem_0_l by lia. f_equal. lia.
Qed.

Lemma getSecureRandomInt_degenerate_witness :
  (0 < 1)%nat
  /\ getSecureRandomInt (fun _ => 255) 1 7 7 0%nat = Ok 7 0.
Proof.
  split; [lia|].
  exact (proj1 (getSecureRandomInt_degenerate (fun _ => 255) 1 7 0
                  ltac:(lia))).
Defined.

End SamplerMore.

(** ** More on the generator *)

Module GeneratorMore.
Import Js Generator Spec SamplerFacts GeneratorFacts.
Local Open Scope Z_scope.

(** *** The alphabet when a class is enabled *)

Lemma enabled_contributes (o : options) (charSet : jsstring) :
  enabled o charSet -> exists d, contributed o d.
Proof.
  intros Hen.
  assert (Hd : exists d, In d charSet /\ ~ In d similarChars).
  { destruct Hen as [[_ ->]|[[_ ->]|[[_ ->]|[_ ->]]]].
    - exists "A"%char. split; [now left|].
      intros H. apply includes_char_In in H. discriminate H.
    - exists "a"%char. split; [now left|].
      intros H. apply includes_char_In in H. discriminate H.
    - exists "2"%char. split; [right; right; now left|].
      intros H. apply includes_char_In in H. discriminate H.
    - exists "!"%char. split; [now left|].
      intros H. apply includes_char_In in H. discriminate H. }
  destruct Hd as [d [Hd Hs]]. exists d. split; [eauto|].
  intros _. exact Hs.
Qed.

Lemma in_alphabet_enabled (o : options) (c : ascii) :
  (exists charSet, enabled o charSet) -> in_alphabet o c -> contributed o c.
Proof.
  intros [charSet Hen] [Hc|[Hno _]]; [exact Hc|].
  destruct (enabled_contributes o charSet Hen) as [d Hd].
  now apply Hno in Hd.
Qed.

(** *** Similar characters *)

Lemma drawPassword_constant (b : Z) (fuel count : nat)
  (charset password : jsstring) (c : ascii) (pos : nat) :
  2 <= len charset <= 256 ->
  attempt 0 (len charset - 1) [b mod 256] = Some (b mod 256) ->
  char_text charset (b mod 256) = [c] ->
  (0 < fuel)%nat ->
  drawPassword (fun _ => b) fuel count charset password pos
  = Ok (password ++ repeat c count) (pos + count).
Proof.
  intros Hsize Hatt Hc Hfuel. destruct fuel as [|fuel]; [lia|].
  revert password pos.
  induction count as [|count IH]; intros password pos; cbn [drawPassword].
  - unfold ret. cbn [repeat]. rewrite app_nil_r. f_equal. lia.
  - unfold bind, getSecureRandomInt.
    rewrite getSecureRandomInt_rec_step by lia.
    replace (len charset - 1 - 0 + 1) with (len charset) by lia.
    rewrite bytesNeeded_one by lia.
    change (getRandomValues (fun _ : nat => b) 1 pos) with [b mod 256].
    rewrite Hatt, Hc, IH. cbn [repeat].
    rewrite <- app_assoc. cbn [app]. f_equal. lia.
Qed.

(** With similar characters excluded and at least one class enabled, no
    password returned for a positive length holds one of [1 l I 0 O].  With
    all four classes off the exclusion is lost: the fallback alphabet is
    used as it is, and on the constant byte 11 the password is made of the
    letter [l] alone. *)
Theorem generatePassword_excludes_similar (o : options) :
  1 <= length o -> excludeSimilar o = true ->
  ((exists charSet, enabled o charSet) ->
   forall rng fuel pos r pos',
     generatePassword rng fuel o pos = Ok r pos' ->
     Forall (fun c => ~ In c similarChars) r)
  /\ (uppercase o = false -> lowercase o = false ->
      numbers o = false -> symbols o = false ->
      forall pos,
        generatePassword (fun _ => 11) 1 o pos
        = Ok (repeat "l"%char (Z.to_nat (length o)))
             (pos + Z.to_nat (length o))).
Proof.
  intros Hlen Hex. split.
  - intros Hen rng fuel pos r pos' Hr.
    apply generatePassword_ok in Hr; [|exact Hlen].
    destruct Hr as [_ Hf]. eapply Forall_impl; [|exact Hf].
    intros c Hc. apply in_alphabet_enabled in Hc; [|exact Hen].
    destruct Hc as [_ Hk]. now apply Hk.
  - intros Hu Hl Hn Hs pos.
    destruct (fallback_charset o Hu Hl Hn Hs) as [Hcs Hreq].
    unfold generatePassword, ensureAllCharTypes, bind.
    rewrite Hcs, Hreq.
    rewrite (drawPassword_constant 11 1 _ _ [] "l"%char); try reflexivity.
    + vm_compute. split; discriminate.
    + lia.
Qed.

Lemma generatePassword_excludes_similar_witness :
  1 <= length (mkOptions 8 false false true false true)
  /\ excludeSimilar (mkOptions 8 false false true false true) = true
  /\ generatePassword (fun _ => 0) 1
       (mkOptions 8 false false true false true) 0%nat
     = Ok (lit "22222222") 8
  /\ Forall (fun c => ~ In c similarChars) (lit "22222222")
  /\ generatePassword (fun _ => 11) 1
       (mkOptions 8 false false false false true) 0%nat
     = Ok (lit "llllllll") 8.
Proof.
  split; [cbn; lia|]. split; [reflexivity|]. split; [reflexivity|]. split.
  - apply (proj1 (generatePassword_excludes_similar
                    (mkOptions 8 false false true false true)
                    ltac:(cbn; lia) eq_refl))
      with (rng := fun _ => 0) (fuel := 1%nat) (pos := 0%nat) (pos' := 8%nat).
    + exists numberChars. right. right. left. split; reflexivity.
    + reflexivity.
  - exact (proj2 (generatePassword_excludes_similar
                    (mkOptions 8 false false false false true)
                    ltac:(cbn; lia) eq_refl)
             eq_refl eq_refl eq_refl eq_refl 0%nat).
Defined.

(** *** The inclusion step *)

(** When the password drawn already holds a character of every enabled
    class, the inclusion step returns it unchanged and reads no random
    byte. *)
Theorem ensureAllCharTypes_unchanged
  rng fuel (o : options) (password charset : jsstring) (pos : nat) :
  (forall charSet, enabled o charSet ->
                   exists c, In c password /\ In c charSet) ->
  ensureAllCharTypes rng fuel o password charset pos = Ok password pos.
Proof.
  intros Hcov. unfold ensureAllCharTypes.
  assert (Hsets : forall charSet, In charSet (requiredSets o) ->
                                  hasCharFromSet charSet password = true).
  { intros cs Hcs. apply hasCharFromSet_true, Hcov.
    now apply in_requiredSets. }
  clear Hcov. revert pos.
  induction (requiredSets o) as [|cs sets IH]; intros pos; cbn [ensureLoop].
  - reflexivity.
  - unfold bind, ensureCharType.
    rewrite (Hsets cs (or_introl eq_refl)). cbn [negb andb].
    destruct (excludeSimilar o && everySimilar cs); unfold ret;
      apply IH; intros cs' Hcs'; apply Hsets; now right.
Qed.

Lemma ensureAllCharTypes_unchanged_witness :
  ensureAllCharTypes (fun _ => 0) 0
    (mkOptions 8 true true true true false) (lit "aB3!aB3!") [] 5%nat
  = Ok (lit "aB3!aB3!") 5.
Proof.
  apply ensureAllCharTypes_unchanged.
  intros cs [[_ ->]|[[_ ->]|[[_ ->]|[_ ->]]]].
  - exists "B"%char. split; apply includes_char_In; reflexivity.
  - exists "a"%char. split; apply includes_char_In; reflexivity.
  - exists "3"%char. split; apply includes_char_In; reflexivity.
  - exists "!"%char. split; apply includes_char_In; reflexivity.
Defined.

Lemma ensureLoop_app rng fuel (o : options) (front back : list jsstring)
  (password : jsstring) (pos : nat) :
  ensureLoop rng fuel o (front ++ back) password pos
  = match ensureLoop rng fuel o front password pos with
    | Ok password' pos' => ensureLoop rng fuel o back password' pos'
    | Err e => Err e
    end.
Proof.
  revert password pos.
  induction front as [|cs front IH]; intros password pos;
    cbn [app ensureLoop]; [reflexivity|].
  unfold bind. destruct (ensureCharType _ _ _ _ _ _); [apply IH|reflexivity].
Qed.

Lemma generatePassword_last_round
  (o : options) (front : list jsstring) (charSet : jsstring) :
  1 <= length o ->
  requiredSets o = front ++ [charSet] ->
  forall rng fuel pos r pos',
    generatePassword rng fuel o pos = Ok r pos' ->
    exists c, In c r /\ In c charSet.
Proof.
  intros Hlen Hreq rng fuel pos r pos'.
  unfold generatePassword, ensureAllCharTypes, bind.
  destruct (drawPassword _ _ _ _ _ _) as [password pos1|e] eqn:Hd;
    [|discriminate].
  apply drawPassword_ok in Hd; [|apply buildCharset_nonempty].
  destruct Hd as [drawn [-> [Hl Hf]]]. cbn [app].
  assert (Hen : forall cs, In cs (front ++ [charSet]) -> enabled o cs).
  { intros cs Hcs. apply in_requiredSets. now rewrite Hreq. }
  rewrite Hreq, ensureLoop_app.
  destruct (ensureLoop rng fuel o front drawn pos1)
    as [password1 pos2|e] eqn:Hfront; [|discriminate].
  apply ensureLoop_ok in Hfront.
  - destruct Hfront as [Hl1 _]. cbn [ensureLoop]. unfold bind.
    destruct (ensureCharType _ _ _ _ _ _) as [password2 pos3|e] eqn:Hlast;
      [|discriminate].
    unfold ret. intros [= <- <-].
    eapply ensureCharType_covers; [|
      |exact Hlast].
    + apply Hen. apply in_or_app. right. now left.
    + intros ->. cbn in Hl1. lia.
  - intros cs Hcs. apply Hen. apply in_or_app. now left.
  - intros ->. cbn in Hl. lia.
  - eapply Forall_impl; [|exact Hf]. intros c. apply in_buildCharset.
Qed.

Lemma requiredSets_symbols (o : options) :
  symbols o = true -> exists front, requiredSets o = front ++ [symbolChars].
Proof.
  intros Hs. unfold requiredSets. rewrite Hs. eauto.
Qed.

(** The class patched last is always there: a password returned for a
    positive length holds a character of the last enabled class, in the
    order uppercase, lowercase, numbers, symbols; so it holds a symbol
    whenever symbols are enabled. *)
Theorem generatePassword_last_class
  (o : options) (front : list jsstring) (charSet : jsstring) :
  1 <= length o ->
  requiredSets o = front ++ [charSet] ->
  forall rng fuel pos r pos',
    generatePassword rng fuel o pos = Ok r pos' ->
    (exists c, In c r /\ In c charSet)
    /\ (symbols o = true -> exists c, In c r /\ In c symbolChars).
Proof.
  intros Hlen Hreq rng fuel pos r pos' Hr. split.
  - eapply generatePassword_last_round; eauto.
  - intros Hs. destruct (requiredSets_symbols o Hs) as [front' Hreq'].
    eapply generatePassword_last_round; eauto.
Qed.

(** All classes on the all-zero stream: the draw is "AAAAAAAA", and the
    patches for lowercase, numbers and symbols all land on position 0. *)
Lemma generatePassword_last_class_witness :
  1 <= length (mkOptions 8 true true true true false)
  /\ requiredSets (mkOptions 8 true true true true false)
     = [uppercaseChars; lowercaseChars; numberChars] ++ [symbolChars]
  /\ generatePassword (fun _ => 0) 1
       (mkOptions 8 true true true true false) 0%nat
     = Ok (lit "!AAAAAAA") 14
  /\ exists c, In c (lit "!AAAAAAA") /\ In c symbolChars.
Proof.
  split; [cbn; lia|]. split; [reflexivity|]. split; [reflexivity|].
  refine (proj1 (generatePassword_last_class
                   (mkOptions 8 true true true true false)
                   [uppercaseChars; lowercaseChars; numberChars] symbolChars
                   ltac:(cbn; lia) eq_refl (fun _ => 0) 1%nat 0%nat _ 14%nat
                   _)).
  reflexivity.
Defined.

(** A round of the inclusion loop keeps the other class of a password
    written in two classes: it overwrites one position only when the
    password has no character of its own class, and then every other
    position holds a character of the other class. *)
Lemma ensureCharType_keeps rng fuel (o : options)
  (password A B : jsstring) pos r pos' :
  enabled o B -> (2 <= List.length password)%nat ->
  Forall (fun c => In c A \/ In c B) password ->
  (exists c, In c password /\ In c A) ->
  ensureCharType rng fuel o password B pos = Ok r pos' ->
  exists c, In c r /\ In c A.
Proof.
  intros Hen Hlen Hf HA.
  unfold ensureCharType, ret, bind.
  destruct (excludeSimilar o && everySimilar B); [intros [= <- <-]; exact HA|].
  destruct (hasCharFromSet B password) eqn:Hhas; cbn [negb andb];
    [intros [= <- <-]; exact HA|].
  destruct (len B >? 0); [|intros [= <- <-]; exact HA].
  set (validChars := if excludeSimilar o then _ else _).
  destruct (len validChars >? 0); [|intros [= <- <-]; exact HA].
  destruct (getSecureRandomInt _ _ _ _ _) as [i pos1|e]; [|discriminate].
  destruct (getSecureRandomInt _ _ 0 (len password - 1) _) as [p pos2|e] eqn:Hp;
    [|discriminate].
  intros [= <- <-].
  assert (Hne : password <> []) by (intros ->; cbn in Hlen; lia).
  apply sampler_index in Hp; [|exact Hne].
  rewrite patch_shape by exact Hp.
  assert (HallA : Forall (fun c => In c A) password).
  { apply Forall_forall. intros c Hc.
    destruct (proj1 (Forall_forall _ _) Hf c Hc) as [Ha|Hb]; [exact Ha|].
    rewrite (hasCharFromSet_true_intro B password c Hc Hb) in Hhas.
    discriminate. }
  destruct (Forall_firstn_skipn (fun c => In c A) (Z.to_nat p) password HallA)
    as [Hfirst _].
  destruct (Forall_firstn_skipn (fun c => In c A) (S (Z.to_nat p)) password
              HallA) as [_ Hskip].
  destruct (Z.to_nat p) as [|n] eqn:Hn.
  - destruct (skipn 1 password) as [|c rest] eqn:Hs.
    + assert (List.length (skipn 1 password) = 0%nat) by now rewrite Hs.
      rewrite length_skipn in H. lia.
    + exists c. inversion Hskip; subst. split; [|assumption].
      rewrite !in_app_iff. right. right. now left.
  - destruct (firstn (S n) password) as [|c rest] eqn:Hs.
    + assert (List.length (firstn (S n) password) = 0%nat) by now rewrite Hs.
      rewrite length_firstn in H. unfold len in Hp. lia.
    + exists c. inversion Hfirst; subst. split; [|assumption].
      rewrite !in_app_iff. left. now left.
Qed.

(** With at most two classes enabled the inclusion step keeps its
    promise: every password returned for a valid configuration holds a
    character of each enabled class, whatever the bytes drawn. *)
Theorem generatePassword_covers_two_classes (o : options) :
  valid o -> (List.length (requiredSets o) <= 2)%nat ->
  forall rng fuel pos r pos',
    generatePassword rng fuel o pos = Ok r pos' -> covers o r.
Proof.
  intros Hv Hcount rng fuel pos r pos'. unfold valid in Hv.
  unfold generatePassword, ensureAllCharTypes, bind.
  destruct (drawPassword _ _ _ _ _ _) as [password pos1|e] eqn:Hd;
    [|discriminate].
  apply drawPassword_ok in Hd; [|apply buildCharset_nonempty].
  destruct Hd as [drawn [-> [Hl Hf]]]. cbn [app].
  assert (Hal : Forall (in_alphabet o) drawn).
  { eapply Forall_impl; [|exact Hf]. intros c. apply in_buildCharset. }
  assert (Hne : drawn <> []) by (intros ->; cbn in Hl; lia).
  pose proof (in_requiredSets o) as Hin.
  destruct (requiredSets o) as [|A [|B [|C sets]]] eqn:Hreq;
    cbn [List.length] in Hcount; try lia; cbn [ensureLoop]; unfold bind, ret.
  - intros [= <- <-] cs Hcs _. apply Hin in Hcs. destruct Hcs.
  - destruct (ensureCharType _ _ _ _ _ _) as [p1 q1|e] eqn:H1; [|discriminate].
    intros [= <- <-] cs Hcs _. apply Hin in Hcs.
    destruct Hcs as [<-|[]].
    eapply ensureCharType_covers; [|exact Hne|exact H1].
    apply Hin. now left.
  - destruct (ensureCharType _ _ _ _ _ _) as [p1 q1|e] eqn:H1; [|discriminate].
    destruct (ensureCharType _ _ _ p1 _ _) as [p2 q2|e] eqn:H2; [|discriminate].
    intros [= <- <-] cs Hcs _.
    assert (HenA : enabled o A) by (apply Hin; now left).
    assert (HenB : enabled o B) by (apply Hin; right; now left).
    pose proof (ensureCharType_covers _ _ _ _ _ _ _ _ HenA Hne H1) as HA1.
    destruct (ensureCharType_ok _ _ _ _ _ _ _ _ HenA Hne Hal H1) as [Hl1 Hal1].
    assert (Hne1 : p1 <> []).
    { intros ->. destruct drawn; [congruence|discriminate]. }
    apply Hin in Hcs. destruct Hcs as [<-|[<-|[]]].
    + eapply (ensureCharType_keeps _ _ _ p1 A B); [exact HenB| | |exact HA1|exact H2].
      * rewrite Hl1, Hl. lia.
      * eapply Forall_impl; [|exact Hal1]. intros c Hc.
        apply in_alphabet_enabled in Hc; [|eauto].
        destruct Hc as [[cs' [Hcs' Hc]] _]. apply Hin in Hcs'.
        destruct Hcs' as [<-|[<-|[]]]; auto.
    + eapply ensureCharType_covers; [exact HenB|exact Hne1|exact H2].
Qed.

(** Letters of both cases, length 8, on the all-zero stream. *)
Lemma generatePassword_covers_two_classes_witness :
  valid (mkOptions 8 true true false false false)
  /\ (List.length (requiredSets (mkOptions 8 true true false false false))
      <= 2)%nat
  /\ generatePassword (fun _ => 0) 1
       (mkOptions 8 true true false false false) 0%nat
     = Ok (lit "aAAAAAAA") 10
  /\ covers (mkOptions 8 true true false false false) (lit "aAAAAAAA").
Proof.
  assert (Hv : valid (mkOptions 8 true true false false false))
    by (unfold valid; cbn; lia).
  split; [exact Hv|]. split; [cbn; lia|]. split; [reflexivity|].
  apply (generatePassword_covers_two_classes
           (mkOptions 8 true true false false false) Hv ltac:(cbn; lia)
           (fun _ => 0) 1%nat 0%nat _ 10%nat).
  reflexivity.
Defined.

End GeneratorMore.

(** ** More on the analyzer *)

Module AnalyzerMore.
Import Js Num NumOps Analyzer AnalyzerSpec AnalyzerDetails AnalyzerFacts.
Local Open Scope R_scope.

(** *** The common patterns *)

Lemma isLower_lower_char (c : ascii) : isLower (lower_char c) = isLetter c.
Proof. destruct c as [[] [] [] [] [] [] [] []]; reflexivity. Qed.

Lemma forallb_imp {A : Type} (p q : A -> bool) (l : list A) :
  (forall x, p x = true -> q x = true) ->
  forallb p l = true -> forallb q l = true.
Proof.
  intros Hpq. rewrite !forallb_forall. auto.
Qed.

Lemma isLetter_isAlnum (c : ascii) : isLetter c = true -> isAlnum c = true.
Proof. unfold isAlnum. intros ->. reflexivity. Qed.

Lemma isDigit_isAlnum (c : ascii) : isDigit c = true -> isAlnum c = true.
Proof. unfold isAlnum. intros ->. apply orb_true_r. Qed.

Lemma span_letters (s : jsstring) :
  forallb isLetter (firstn (span_length isLetter s) s) = true.
Proof.
  induction s as [|c r IH]; [reflexivity|].
  cbn [span_length]. destruct (isLetter c) eqn:Hc; [|reflexivity].
  cbn [firstn forallb]. now rewrite Hc.
Qed.

Lemma nonempty_iff (s : jsstring) : nonempty s = true <-> s <> [].
Proof. destruct s; cbn; split; congruence. Qed.

Lemma starts_with_lower_letters (w s : jsstring) :
  forallb isLower w = true ->
  starts_with w (toLowerCase s) = true ->
  forallb isLetter (firstn (List.length w) s) = true
  /\ (w <> [] -> s <> []).
Proof.
  revert s. induction w as [|x w IH]; intros s Hw Hs.
  - split; [reflexivity|congruence].
  - destruct s as [|y s]; [discriminate Hs|].
    cbn [forallb] in Hw. apply andb_prop in Hw. destruct Hw as [Hx Hw].
    cbn [toLowerCase map starts_with] in Hs. apply andb_prop in Hs.
    destruct Hs as [Hxy Hs]. apply Ascii.eqb_eq in Hxy.
    destruct (IH s Hw Hs) as [Hf _].
    split; [|congruence].
    cbn [List.length firstn forallb]. rewrite Hf, andb_true_r.
    rewrite <- isLower_lower_char, <- Hxy. exact Hx.
Qed.

Lemma firstn_skipn_forallb {A : Type} (p : A -> bool) (n : nat) (l : list A) :
  forallb p (firstn n l) = true -> forallb p (skipn n l) = true ->
  forallb p l = true.
Proof.
  intros H1 H2. rewrite <- (firstn_skipn n l), forallb_app, H1, H2.
  reflexivity.
Qed.

(** The first five patterns only match what "alphanumeric only" matches. *)
Lemma alnum_subsumes (s : jsstring) :
  pattern_letters s = true \/ pattern_digits s = true
  \/ pattern_word_digits s = true \/ pattern_common_words s = true ->
  pattern_alnum s = true.
Proof.
  unfold pattern_letters, pattern_digits, pattern_alnum, pattern_word_digits,
    pattern_common_words.
  intros [H|[H|[H|H]]].
  - apply andb_prop in H. destruct H as [-> H].
    apply (forallb_imp _ _ _ isLetter_isAlnum H).
  - apply andb_prop in H. destruct H as [-> H].
    apply (forallb_imp _ _ _ isDigit_isAlnum H).
  - cbv zeta in H. rewrite !andb_true_iff in H.
    destruct H as [[[[H3 _] H1] _] Hd].
    apply andb_true_intro. split.
    + apply nonempty_iff. intros ->. cbn in H3. discriminate.
    + apply (firstn_skipn_forallb _ (span_length isLetter s)).
      * apply (forallb_imp _ _ _ isLetter_isAlnum), span_letters.
      * apply (forallb_imp _ _ _ isDigit_isAlnum Hd).
  - apply existsb_exists in H. destruct H as [w [Hw H]].
    apply andb_prop in H. destruct H as [Hs Hd].
    assert (Hlow : forallb isLower w = true /\ w <> []).
    { cbn [In] in Hw.
      destruct Hw as [<-|[<-|[<-|[<-|[<-|[]]]]]]; split;
        (reflexivity || discriminate). }
    destruct Hlow as [Hlow Hne].
    destruct (starts_with_lower_letters w s Hlow Hs) as [Hf Hnes].
    apply andb_true_intro. split.
    + apply nonempty_iff. auto.
    + apply (firstn_skipn_forallb _ (List.length w)).
      * apply (forallb_imp _ _ _ isLetter_isAlnum Hf).
      * apply (forallb_imp _ _ _ isDigit_isAlnum Hd).
Qed.

Lemma checkForCommonPatterns_three (s : jsstring) :
  checkForCommonPatterns s
  = pattern_alnum s || pattern_keyboard s || pattern_repeated s.
Proof.
  unfold checkForCommonPatterns, COMMON_PATTERNS. cbn [existsb].
  rewrite orb_false_r.
  destruct (pattern_alnum s) eqn:Ha.
  - rewrite !orb_true_r. cbn [orb]. now destruct (pattern_letters s),
      (pattern_digits s).
  - pose proof (alnum_subsumes s) as Hsub. rewrite Ha in Hsub.
    destruct (pattern_letters s); [discriminate Hsub; auto|].
    destruct (pattern_digits s); [discriminate Hsub; auto|].
    destruct (pattern_word_digits s); [discriminate Hsub; auto|].
    destruct (pattern_common_words s); [discriminate Hsub; auto|].
    reflexivity.
Qed.

Lemma run_length_two (c : ascii) (r : jsstring) :
  (2 <=? run_length c r)%nat = true <-> exists post, r = c :: c :: post.
Proof.
  split.
  - destruct r as [|x [|y r]]; cbn [run_length].
    + discriminate.
    + destruct (Ascii.eqb x c); discriminate.
    + destruct (Ascii.eqb_spec x c) as [->|]; [|discriminate].
      destruct (Ascii.eqb_spec y c) as [->|]; [|discriminate].
      eauto.
  - intros [post ->]. cbn [run_length]. now rewrite Ascii.eqb_refl.
Qed.

Lemma pattern_repeated_iff (s : jsstring) :
  pattern_repeated s = true
  <-> exists c pre post, dot c = true /\ s = pre ++ [c; c; c] ++ post.
Proof.
  induction s as [|x r IH]; cbn [pattern_repeated].
  - split; [discriminate|]. intros [c [pre [post [_ H]]]].
    destruct pre; discriminate H.
  - rewrite orb_true_iff, andb_true_iff, run_length_two, IH. split.
    + intros [[Hd [post ->]]|[c [pre [post [Hd ->]]]]].
      * exists x, [], post. split; [exact Hd|reflexivity].
      * exists c, (x :: pre), post. split; [exact Hd|reflexivity].
    + intros [c [pre [post [Hd H]]]]. destruct pre as [|y pre].
      * injection H as -> ->. left. split; [exact Hd|].
        exists post. reflexivity.
      * injection H as -> ->. right. exists c, pre, post.
        split; [exact Hd|reflexivity].
Qed.

(** Of the seven common patterns three decide: a password is reported to
    contain common patterns exactly when it is not empty and alphanumeric
    throughout, or starts with one of the keyboard words, or holds three
    equal characters in a row that are not line terminators. *)
Theorem checkForCommonPatterns_iff (password : jsstring) :
  checkForCommonPatterns password = true
  <-> (password <> [] /\ Forall (fun c => isAlnum c = true) password)
      \/ (exists w post,
             In w [lit "qwerty"; lit "asdf"; lit "zxcv"; lit "1234";
                   lit "0000"]
             /\ password = w ++ post)
      \/ (exists c pre post,
             dot c = true /\ password = pre ++ [c; c; c] ++ post).
Proof.
  rewrite checkForCommonPatterns_three, !orb_true_iff, pattern_repeated_iff.
  unfold pattern_alnum, pattern_keyboard.
  rewrite andb_true_iff, nonempty_iff, forallb_forall, <- Forall_forall.
  rewrite existsb_exists.
  split.
  - intros [[H|[w [Hw H]]]|H]; auto.
    right. left. apply starts_with_iff in H. destruct H as [post H]. eauto.
  - intros [H|[[w [post [Hw H]]]|H]]; auto.
    left. right. exists w. split; [exact Hw|].
    apply starts_with_iff. eauto.
Qed.

(** *** The findings of [generateDetailedAnalysis] *)

Ltac literals :=
  repeat match goal with
         | H : lit _ = lit _ |- _ => vm_compute in H; discriminate H
         | H : _ \/ _ |- _ => destruct H
         | H : False |- _ => destruct H
         | H : _ :: _ = [] |- _ => discriminate H
         end.

Lemma calculateEntropy_not_NaN (password : jsstring) :
  calculateEntropy password <> NaN.
Proof.
  rewrite calculateEntropy_unfold.
  pose proof (baseEntropy_not_NaN password) as Hn.
  destruct (baseEntropy password); cbn [sub Math_max0]; congruence.
Qed.

Lemma ltb_false_le (e : number) (t : R) :
  e <> NaN -> (ltb e (Finite t) = false <-> le (Finite t) e).
Proof.
  intros Hn. destruct e as [| |y|]; cbn [ltb le]; try congruence.
  - split; [discriminate|tauto].
  - destruct (Rlt_dec y t); split; intros; try reflexivity; try discriminate;
      lra.
  - tauto.
Qed.

(** [analyzePassword] reports no weakness exactly for a password of at
    least 10 characters that holds all four character classes and no
    common pattern; such a password passes the three security standards. *)
Theorem no_weakness_iff (show fixed : number -> jsstring)
  (password : jsstring) (options : Generator.options) :
  (weaknesses (findings show fixed password options) = []
   <-> (10 <= len password)%Z
       /\ has_class isUpper password /\ has_class isLower password
       /\ has_class isDigit password /\ has_class isSymbol password
       /\ checkForCommonPatterns password = false)
  /\ (weaknesses (findings show fixed password options) = [] ->
      let c := securityStandardsCompliance (analyzePassword password options) in
      NIST c = true /\ OWASP c = true /\ MICROSOFT c = true).
Proof.
  assert (Hiff :
    weaknesses (findings show fixed password options) = []
    <-> (10 <= len password)%Z
        /\ has_class isUpper password /\ has_class isLower password
        /\ has_class isDigit password /\ has_class isSymbol password
        /\ checkForCommonPatterns password = false).
  { rewrite <- !test_class_iff.
    unfold findings, analyzePassword_figures.
    cbn [analysis_].
    unfold generateDetailedAnalysis. cbn [weaknesses].
    destruct (Z.ltb_spec (len password) 10);
      destruct (test_class isUpper password),
        (test_class isLower password), (test_class isDigit password),
        (test_class isSymbol password), (checkForCommonPatterns password);
      cbn [negb app]; split; intros H'; literals;
      try reflexivity; try (repeat split; (reflexivity || lia));
      try (decompose [and] H'; (discriminate || lia)). }
  split; [exact Hiff|].
  intros Hw. apply Hiff in Hw.
  destruct Hw as [Hlen [HU [HL [HD [HS _]]]]].
  cbn [analyzePassword securityStandardsCompliance checkSecurityStandards
       NIST OWASP MICROSOFT minLength requiresComplexity
       SECURITY_STANDARDS.NIST SECURITY_STANDARDS.OWASP
       SECURITY_STANDARDS.MICROSOFT negb].
  apply test_class_iff in HU, HL, HD, HS. rewrite HU, HL, HD, HS.
  cbn [Z.b2z]. rewrite !orb_false_r.
  repeat split; rewrite ?andb_true_iff, ?Z.geb_le; repeat split; lia.
Qed.

(** The strengths name the character diversity "excellent" exactly when
    all four classes occur, and "good" exactly when digits and symbols
    occur with letters of one case only.  A password with both cases and
    digits but no symbol has the complexity the standards ask for and is
    credited with no diversity at all. *)
Theorem diversity_findings (show fixed : number -> jsstring)
  (password : jsstring) (options : Generator.options) :
  let U := has_class isUpper password in
  let L := has_class isLower password in
  let D := has_class isDigit password in
  let S := has_class isSymbol password in
  let found text := In text (strengths (findings show fixed password options)) in
  (found (lit "Excellent character diversity") <-> U /\ L /\ D /\ S)
  /\ (found (lit "Good character diversity")
      <-> D /\ S /\ ((U /\ ~ L) \/ (~ U /\ L)))
  /\ (complexity password -> ~ S ->
      ~ found (lit "Excellent character diversity")
      /\ ~ found (lit "Good character diversity")).
Proof.
  cbv zeta. unfold complexity. cbv zeta. rewrite <- !test_class_iff.
  unfold findings, analyzePassword_figures.
    cbn [analysis_].
  unfold generateDetailedAnalysis. cbn [strengths].
  destruct (len password >=? 12)%Z;
    destruct (test_class isUpper password),
      (test_class isLower password), (test_class isDigit password),
      (test_class isSymbol password), (checkForCommonPatterns password);
    cbn [negb andb orb app In];
    (split; [|split]);
    try (split; intros H'; literals; intuition (discriminate || auto));
    try (intros H1 H2; split; intros H'; literals;
         intuition (discriminate || auto)).
Qed.

(** [analyzePassword] recommends nothing exactly when the password has at
    least 12 characters and no common pattern, its entropy is at least 70
    bits, and all four classes are enabled in the options. *)
Theorem no_recommendation_iff (show fixed : number -> jsstring)
  (password : jsstring) (options : Generator.options) :
  recommendations (findings show fixed password options) = []
  <-> (12 <= len password)%Z
      /\ (Generator.uppercase options = true
          /\ Generator.lowercase options = true
          /\ Generator.numbers options = true
          /\ Generator.symbols options = true)
      /\ checkForCommonPatterns password = false
      /\ le (Finite 70) (calculateEntropy password).
Proof.
  rewrite <- (ltb_false_le _ _ (calculateEntropy_not_NaN password)).
  unfold findings, analyzePassword_figures.
    cbn [analysis_].
  unfold generateDetailedAnalysis. cbn [recommendations].
  destruct (Z.ltb_spec (len password) 12);
    destruct (Generator.uppercase options), (Generator.lowercase options),
      (Generator.numbers options), (Generator.symbols options),
      (checkForCommonPatterns password),
      (ltb (calculateEntropy password) (Finite 70));
    cbn [negb orb app]; split; intros H'; literals;
    try reflexivity; try (repeat split; (reflexivity || lia));
    try (decompose [and] H'; (discriminate || lia)).
Qed.

(** *** The size of the base entropy *)

Lemma charsetSizeOf_bounds (password : jsstring) :
  password <> [] -> (10 <= charsetSizeOf password <= 95)%Z.
Proof.
  intros Hne. destruct password as [|x r]; [congruence|].
  unfold charsetSizeOf, test_class. cbn [existsb].
  assert (Hx : isSymbol x = negb (isUpper x || isLower x || isDigit x))
    by reflexivity.
  rewrite Hx.
  destruct (isUpper x), (isLower x), (isDigit x); cbn [orb negb];
    destruct (existsb isUpper r), (existsb isLower r), (existsb isDigit r),
      (existsb isSymbol r); cbn; lia.
Qed.

Lemma baseEntropy_empty : baseEntropy [] = Finite 0.
Proof.
  unfold baseEntropy, Math_pow. cbn [charsetSizeOf test_class existsb
    List.length]. change (Z.of_nat 0) with 0%Z.
  change (0 ^ 0)%Z with 1%Z.
  destruct (Z.leb_spec (2 ^ 1024) 1) as [H|_].
  { exfalso. revert H. apply Z.lt_nge. reflexivity. }
  unfold Math_log2. destruct (Rlt_dec 1 0); [lra|].
  destruct (Rlt_dec 0 1); [|lra].
  unfold log2. rewrite ln_1. f_equal. unfold Rdiv. ring.
Qed.

Lemma baseEntropy_nonempty (password : jsstring) :
  password <> [] ->
  let n := Z.of_nat (List.length password) in
  let power := (charsetSizeOf password ^ n)%Z in
  ((2 ^ 1024 <= power)%Z /\ baseEntropy password = Infinity)
  \/ ((power < 2 ^ 1024)%Z
      /\ baseEntropy password = Finite (log2 (IZR power))
      /\ 3 * IZR n <= log2 (IZR power) <= 7 * IZR n).
Proof.
  intros Hne n power. pose proof (charsetSizeOf_bounds password Hne) as Hc.
  assert (Hn : (0 <= n)%Z) by (subst n; lia).
  assert (Hlo : (2 ^ (3 * n) <= power)%Z).
  { subst power. rewrite Z.pow_mul_r by lia. change (2 ^ 3)%Z with 8%Z.
    apply Z.pow_le_mono_l. lia. }
  assert (Hhi : (power <= 2 ^ (7 * n))%Z).
  { subst power. rewrite Z.pow_mul_r by lia. change (2 ^ 7)%Z with 128%Z.
    apply Z.pow_le_mono_l. lia. }
  assert (Hpos : (0 < power)%Z).
  { eapply Z.lt_le_trans; [|exact Hlo]. apply Z.pow_pos_nonneg; lia. }
  destruct (Z.le_gt_cases (2 ^ 1024) power) as [Hover|Hfin].
  - left. split; [exact Hover|]. unfold baseEntropy, Math_pow.
    fold n. fold power. apply Z.leb_le in Hover. rewrite Hover. reflexivity.
  - right. split; [exact Hfin|]. split.
    + apply (baseEntropy_finite password (charsetSizeOf password));
        [reflexivity|]. fold n. fold power. lia.
    + split.
      * pose proof (log2_lower power (3 * n) 1 Hpos ltac:(lia) ltac:(lia)) as H.
        rewrite Z.pow_1_r in H. specialize (H Hlo).
        rewrite mult_IZR in H. lra.
      * pose proof (log2_upper power (7 * n) 1 Hpos ltac:(lia) ltac:(lia)) as H.
        rewrite Z.pow_1_r in H. specialize (H Hhi).
        rewrite mult_IZR in H. lra.
Qed.

(** The entropy before penalties, which both classes compute alike, is 0
    for the empty password; for a password of [n >= 1] characters it is
    between [3 * n] and [7 * n] bits, or [Infinity] when [Math.pow]
    overflows, which it does not up to 155 characters. *)
Theorem baseEntropy_bounds (password : jsstring) :
  let n := IZR (Z.of_nat (List.length password)) in
  (password = [] -> baseEntropy password = Finite 0)
  /\ (baseEntropy password = Infinity
      \/ exists x, baseEntropy password = Finite x /\ 3 * n <= x <= 7 * n)
  /\ ((List.length password <= 155)%nat ->
      exists x, baseEntropy password = Finite x)
  /\ Generator.entropy (Generator.calculateStrength password)
     = Math_round (baseEntropy password).
Proof.
  intros n. split; [intros ->; apply baseEntropy_empty|].
  assert (Hcase : password = [] \/ password <> [])
    by (destruct password; [left|right]; congruence).
  destruct Hcase as [He|Hne].
  - subst password. split; [|split; [|reflexivity]].
    + right. exists 0. split; [apply baseEntropy_empty|].
      subst n. cbn. lra.
    + intros _. exists 0. apply baseEntropy_empty.
  - destruct (baseEntropy_nonempty password Hne) as [[Hover H]|[Hfin [H Hb]]].
    + split; [left; exact H|split; [|reflexivity]].
      intros Hlen. exfalso.
      pose proof (charsetSizeOf_bounds password Hne) as Hc.
      assert (charsetSizeOf password ^ Z.of_nat (List.length password)
              <= 95 ^ 155)%Z.
      { etransitivity; [apply Z.pow_le_mono_l; split; [lia|apply Hc]|].
        apply Z.pow_le_mono_r; lia. }
      assert (95 ^ 155 < 2 ^ 1024)%Z by reflexivity.
      lia.
    + split; [right; eexists; split; [exact H|exact Hb]|].
      split; [intros _; eexists; exact H|reflexivity].
Qed.

Lemma baseEntropy_bounds_witness :
  (List.length (lit "aB3!cD4@") <= 155)%nat
  /\ exists x, baseEntropy (lit "aB3!cD4@") = Finite x.
Proof.
  assert (H : (List.length (lit "aB3!cD4@") <= 155)%nat) by (cbn; lia).
  split; [exact H|].
  exact (proj1 (proj2 (proj2 (baseEntropy_bounds (lit "aB3!cD4@")))) H).
Defined.

Lemma baseEntropy_cases (password : jsstring) :
  baseEntropy password = Infinity
  \/ exists x, baseEntropy password = Finite x /\ 0 <= x.
Proof.
  destruct password as [|c r] eqn:Hp.
  - right. exists 0. split; [apply baseEntropy_empty|lra].
  - rewrite <- Hp.
    assert (Hne : password <> []) by (rewrite Hp; discriminate).
    destruct (baseEntropy_nonempty password Hne) as [[_ H]|[_ [H Hb]]];
      [left; exact H|].
    right. eexists. split; [exact H|].
    pose proof (IZR_le 0 _ (Nat2Z.is_nonneg (List.length password))). lra.
Qed.

Lemma calculateEntropy_cases (password : jsstring) :
  calculateEntropy password = Infinity
  \/ exists y, calculateEntropy password = Finite y /\ 0 <= y
               /\ exists x, baseEntropy password = Finite x /\ y <= x.
Proof.
  rewrite calculateEntropy_unfold.
  pose proof (repeatedPenalty_nonneg password).
  pose proof (sequentialPenalty_nonneg password).
  pose proof (patternPenalty_nonneg password).
  destruct (baseEntropy_cases password) as [->|[x [-> Hx]]];
    cbn [sub Math_max0]; [now left|].
  right. eexists. split; [reflexivity|]. split; [apply Rmax_l|].
  exists x. split; [reflexivity|]. apply Rmax_lub; lra.
Qed.

(** From 309 characters on [Math.pow] overflows whatever the password
    holds: the entropy is [Infinity], no penalty counts any more, and both
    classes call the password "very-strong". *)
Theorem long_password_infinite
  (password : jsstring) (options : Generator.options) :
  (309 <= List.length password)%nat ->
  calculateEntropy password = Infinity
  /\ getStrengthLevel (calculateEntropy password)
     = STRENGTH_LEVELS.VERY_STRONG
  /\ strengthLevel (analyzePassword password options) = lit "very-strong"
  /\ Generator.strengthLevel (Generator.calculateStrength password)
     = lit "very-strong".
Proof.
  intros Hlen.
  assert (Hne : password <> []) by (intros ->; cbn in Hlen; lia).
  assert (Hb : baseEntropy password = Infinity).
  { destruct (baseEntropy_nonempty password Hne) as [[_ H]|[Hfin _]];
      [exact H|]. exfalso.
    pose proof (charsetSizeOf_bounds password Hne) as Hc.
    assert (10 ^ 309 <= charsetSizeOf password
                         ^ Z.of_nat (List.length password))%Z.
    { etransitivity; [apply (Z.pow_le_mono_r 10 309
                               (Z.of_nat (List.length password))); lia|].
      apply Z.pow_le_mono_l. lia. }
    assert (2 ^ 1024 <= 10 ^ 309)%Z by (apply Z.leb_le; reflexivity).
    lia. }
  assert (He : calculateEntropy password = Infinity)
    by (rewrite calculateEntropy_unfold, Hb; reflexivity).
  split; [exact He|]. split; [rewrite He; reflexivity|].
  split; [rewrite analyzer_tier, He; reflexivity|].
  rewrite generator_tier, Hb. reflexivity.
Qed.

(** The letter [a] 309 times. *)
Lemma long_password_infinite_witness :
  (309 <= List.length (repeat "a"%char 309))%nat
  /\ strengthLevel
       (analyzePassword (repeat "a"%char 309)
          (Generator.mkOptions 64 true true true true false))
     = lit "very-strong".
Proof.
  assert (H : (309 <= List.length (repeat "a"%char 309))%nat)
    by (rewrite repeat_length; lia).
  split; [exact H|].
  exact (proj1 (proj2 (proj2 (long_password_infinite _ _ H)))).
Defined.

(** *** The meter and the crack time *)

Lemma Zfloor_upper (x : R) (z : Z) : x < IZR z + 1 -> (Zfloor x <= z)%Z.
Proof.
  intros Hx. pose proof (Zfloor_bound x) as [Hlo _].
  assert (IZR (Zfloor x) < IZR (z + 1)) by (rewrite plus_IZR; lra).
  apply lt_IZR in H. lia.
Qed.

Lemma round_range (x : R) (lo hi : Z) :
  IZR lo <= x -> x < IZR hi + / 2 ->
  (lo <= Zfloor (x + / 2) <= hi)%Z.
Proof.
  intros Hlo Hhi. split.
  - apply Zfloor_lub. lra.
  - apply Zfloor_upper. lra.
Qed.

Lemma strengthPercentageOf_range (e : number) :
  e = Infinity \/ (exists y, e = Finite y /\ 0 <= y) ->
  exists p : Z, strengthPercentageOf e = Finite (IZR p) /\ (0 <= p <= 100)%Z
                /\ (le (Finite 100) e -> p = 100%Z).
Proof.
  intros [->|[y [-> Hy]]].
  - exists 100%Z. split; [reflexivity|]. split; [lia|reflexivity].
  - unfold strengthPercentageOf. cbn [div mul Math_round Math_min100 le].
    set (z := Zfloor (y / 100 * 100 + / 2)).
    assert (Hz : (0 <= z)%Z) by (apply Zfloor_lub; lra).
    destruct (Z.le_gt_cases z 100) as [Hle|Hgt].
    + exists z. rewrite Rmin_right by (apply IZR_le; exact Hle).
      split; [reflexivity|]. split; [lia|].
      intros H100. apply Z.le_antisymm; [exact Hle|].
      apply Zfloor_lub. lra.
    + exists 100%Z. rewrite Rmin_left by (apply IZR_le; lia).
      split; [reflexivity|]. split; [lia|reflexivity].
Qed.

(** The width of the strength meter is a whole percentage between 0 and
    100 for every password, in the analyzer and in the generator, and it is
    100 from 100 bits of entropy on. *)
Theorem strengthPercentage_range
  (show fixed : number -> jsstring)
  (password : jsstring) (options : Generator.options) :
  (exists p : Z,
      strengthPercentage (analyzePassword_figures show fixed password options)
      = Finite (IZR p)
      /\ (0 <= p <= 100)%Z
      /\ (le (Finite 100) (calculateEntropy password) -> p = 100%Z))
  /\ (exists p : Z,
        generatorPercentage (calculateStrength_figures show password)
        = Finite (IZR p)
        /\ (0 <= p <= 100)%Z
        /\ (le (Finite 100) (baseEntropy password) -> p = 100%Z)).
Proof.
  split.
  - cbn [analyzePassword_figures strengthPercentage].
    apply strengthPercentageOf_range.
    destruct (calculateEntropy_cases password) as [H|[y [H [Hy _]]]];
      [left; exact H|right; eauto].
  - change (generatorPercentage (calculateStrength_figures show password))
      with (strengthPercentageOf (baseEntropy password)).
    apply strengthPercentageOf_range.
    destruct (baseEntropy_cases password) as [H|[x [H Hx]]];
      [left; exact H|right; eauto].
Qed.

Lemma Rpower_2_monotone (x y : R) : x <= y -> Rpower 2 x <= Rpower 2 y.
Proof.
  intros [Hlt | ->]; [left; apply Rpower_lt; lra | right; reflexivity].
Qed.

Lemma Rpower_2_pos (x : R) : 0 < Rpower 2 x.
Proof. unfold Rpower. apply exp_pos. Qed.

Lemma calculateCrackTime_monotone (x y : R) :
  x <= y ->
  le (calculateCrackTime (Finite x)) (calculateCrackTime (Finite y)).
Proof.
  intros Hxy. unfold calculateCrackTime, Math_pow2, GUESSES_PER_SECOND.
  destruct (Rle_dec 1024 x), (Rle_dec 1024 y); cbn [div le]; try exact I;
    try lra.
  pose proof (Rpower_2_monotone x y Hxy). lra.
Qed.

(** The penalties never lengthen the crack time: for every password the
    time [analyzePassword] reports is at most the one [calculateStrength]
    reports, and both are positive. *)
Theorem crackTime_analyzer_below_generator
  (show fixed : number -> jsstring)
  (password : jsstring) (options : Generator.options) :
  le (crackTime (analyzePassword_figures show fixed password options))
     (secondsToCrack (calculateStrength_figures show password))
  /\ lt (Finite 0)
        (crackTime (analyzePassword_figures show fixed password options)).
Proof.
  change (secondsToCrack (calculateStrength_figures show password))
    with (div (div (Math_pow2 (baseEntropy password)) 10000000000) 2).
  cbn [analyzePassword_figures crackTime].
  destruct (calculateEntropy_cases password)
    as [He|[y [He [Hy [x [Hb Hyx]]]]]].
  - assert (Hb : baseEntropy password = Infinity).
    { rewrite calculateEntropy_unfold in He.
      destruct (baseEntropy_cases password) as [H|[x [H _]]]; [exact H|].
      rewrite H in He. discriminate He. }
    rewrite He, Hb. split; exact I.
  - rewrite He, Hb. split.
    + apply (calculateCrackTime_monotone y x Hyx).
    + unfold calculateCrackTime, Math_pow2, GUESSES_PER_SECOND.
      destruct (Rle_dec 1024 y); cbn [div lt]; [exact I|].
      pose proof (Rpower_2_pos y). lra.
Qed.

(** More entropy never shortens the crack time: for entropies
    [0 <= e1 <= e2] the time for [e1] is at most the time for [e2].  No
    crack time is below [1 / (2 * 10^10)] seconds, the time for no entropy
    at all, and the time is [Infinity] exactly from 1024 bits on, where the
    power of two overflows. *)
Theorem calculateCrackTime_grows (e1 e2 : R) :
  0 <= e1 -> e1 <= e2 ->
  le (calculateCrackTime (Finite e1)) (calculateCrackTime (Finite e2))
  /\ le (Finite (1 / 20000000000)) (calculateCrackTime (Finite e1))
  /\ (calculateCrackTime (Finite e1) = Infinity <-> 1024 <= e1)
  /\ calculateCrackTime Infinity = Infinity.
Proof.
  intros H0 H12. split; [apply calculateCrackTime_monotone; exact H12|].
  unfold calculateCrackTime, Math_pow2, GUESSES_PER_SECOND.
  destruct (Rle_dec 1024 e1) as [Hover|Hfin]; cbn [div le].
  - split; [exact I|]. split; [tauto|reflexivity].
  - split.
    + pose proof (Rpower_2_monotone 0 e1 H0) as Hm.
      rewrite Rpower_O in Hm by lra. lra.
    + split; [|reflexivity]. split; [discriminate|]. intros H. lra.
Qed.

Lemma calculateCrackTime_grows_witness :
  0 <= 40 /\ 40 <= 41
  /\ le (calculateCrackTime (Finite 40)) (calculateCrackTime (Finite 41)).
Proof.
  assert (H0 : 0 <= 40) by lra. assert (H1 : 40 <= 41) by lra.
  split; [exact H0|]. split; [exact H1|].
  exact (proj1 (calculateCrackTime_grows 40 41 H0 H1)).
Defined.

(** *** The text of the crack time *)

Ltac pick_unit :=
  first [ left; split; [reflexivity|apply round_range; lra]
        | right; pick_unit
        | split; [reflexivity|apply round_range; lra]
        | split; [reflexivity|apply Zfloor_lub; lra] ].

(** For a crack time of [s >= 0] seconds [formatCrackTime] writes a whole
    count and a unit, and the count stays within the unit: 0 to 60 seconds,
    1 to 60 minutes, 1 to 24 hours, 1 to 365 days, 1 to 100 years, 1 to 10
    hundred years, 1 to 1000 thousand years, 1 to 1000 million years, or at
    least 1 billion years.  Above the seconds the count is never 0, and a
    time just below a boundary is rounded up to it ("60 minutes") rather
    than moved to the next unit.  [Infinity] and [NaN] are written in
    billion years. *)
Theorem formatCrackTime_counts (show : number -> jsstring) (s : R) :
  0 <= s ->
  (exists (count : Z) (unit : jsstring),
      formatCrackTime show (Finite s) = show (Finite (IZR count)) ++ unit
      /\ ((unit = lit " seconds" /\ (0 <= count <= 60)%Z)
          \/ (unit = lit " minutes" /\ (1 <= count <= 60)%Z)
          \/ (unit = lit " hours" /\ (1 <= count <= 24)%Z)
          \/ (unit = lit " days" /\ (1 <= count <= 365)%Z)
          \/ (unit = lit " years" /\ (1 <= count <= 100)%Z)
          \/ (unit = lit " hundred years" /\ (1 <= count <= 10)%Z)
          \/ (unit = lit " thousand years" /\ (1 <= count <= 1000)%Z)
          \/ (unit = lit " million years" /\ (1 <= count <= 1000)%Z)
          \/ (unit = lit " billion years" /\ (1 <= count)%Z)))
  /\ formatCrackTime show Infinity = show Infinity ++ lit " billion years"
  /\ formatCrackTime show NaN = show NaN ++ lit " billion years".
Proof.
  intros Hs. split; [|split; reflexivity].
  unfold formatCrackTime. cbn [ltb div Math_round].
  repeat match goal with
         | |- context [Rlt_dec s ?t] => destruct (Rlt_dec s t)
         end;
    eexists; eexists; (split; [reflexivity|]); pick_unit.
Qed.

(** One second short of an hour is written as 60 minutes. *)
Lemma formatCrackTime_counts_witness :
  0 <= 3599
  /\ (forall show,
        formatCrackTime show (Finite 3599)
        = show (Finite 60) ++ lit " minutes")
  /\ exists (count : Z) (unit : jsstring),
       formatCrackTime (fun _ => []) (Finite 3599)
       = (fun _ : number => []) (Finite (IZR count)) ++ unit.
Proof.
  assert (H : 0 <= 3599) by lra.
  split; [exact H|]. split.
  - intros show. unfold formatCrackTime. cbn [ltb div Math_round].
    destruct (Rlt_dec 3599 60); [lra|]. destruct (Rlt_dec 3599 3600); [|lra].
    replace (Zfloor (3599 / 60 + / 2)) with 60%Z
      by (symmetry; apply Zfloor_eq; lra).
    reflexivity.
  - destruct (proj1 (formatCrackTime_counts (fun _ => []) 3599 H))
      as [count [unit [Heq _]]].
    exists count, unit. exact Heq.
Defined.

(** For a number [num >= 0], [formatLargeNumber] writes [num] itself
    below 1000 and otherwise a quotient with a word for the power of 1000
    divided out; except for the last word, quintillion, the quotient handed
    to [toFixed(1)] lies in [1, 1000). *)
Theorem formatLargeNumber_quotients
  (show fixed : number -> jsstring) (num : R) :
  0 <= num ->
  (num < 1000 /\ formatLargeNumber show fixed (Finite num) = show (Finite num))
  \/ exists (q : R) (word : jsstring),
       formatLargeNumber show fixed (Finite num) = fixed (Finite q) ++ word
       /\ ((word = lit " thousand" /\ q = num / 1000 /\ 1 <= q < 1000)
           \/ (word = lit " million" /\ q = num / 1000000 /\ 1 <= q < 1000)
           \/ (word = lit " billion"
               /\ q = num / 1000000000 /\ 1 <= q < 1000)
           \/ (word = lit " trillion"
               /\ q = num / 1000000000000 /\ 1 <= q < 1000)
           \/ (word = lit " quadrillion"
               /\ q = num / 1000000000000000 /\ 1 <= q < 1000)
           \/ (word = lit " quintillion"
               /\ q = num / 1000000000000000000 /\ 1 <= q)).
Proof.
  intros Hn. unfold formatLargeNumber. cbn [ltb div].
  destruct (Rlt_dec num 1000); [left; split; [assumption|reflexivity]|].
  right.
  repeat match goal with
         | |- context [Rlt_dec num ?t] => destruct (Rlt_dec num t)
         end;
    eexists; eexists; (split; [reflexivity|]);
    first [ left; repeat split; (reflexivity || lra)
          | right; left; repeat split; (reflexivity || lra)
          | right; right; left; repeat split; (reflexivity || lra)
          | right; right; right; left; repeat split; (reflexivity || lra)
          | right; right; right; right; left; repeat split;
            (reflexivity || lra)
          | right; right; right; right; right; repeat split;
            (reflexivity || lra) ].
Qed.

Lemma formatLargeNumber_quotients_witness :
  0 <= 2500000
  /\ formatLargeNumber (fun _ => []) (fun _ => []) (Finite 2500000)
     = lit " million".
Proof.
  assert (H : 0 <= 2500000) by lra.
  split; [exact H|].
  destruct (formatLargeNumber_quotients (fun _ => []) (fun _ => [])
              2500000 H)
    as [[Hlt _]|[q [word [Heq Hw]]]]; [lra|].
  rewrite Heq. cbn [app].
  destruct Hw as [[_ [Hq Hr]]|[[Hw _]|[[_ [Hq Hr]]|[[_ [Hq Hr]]|[[_ [Hq Hr]]
                 |[_ [Hq Hr]]]]]]]; [| exact Hw | | | |];
    exfalso; rewrite Hq in Hr; lra.
Defined.

End AnalyzerMore.

(** ** Properties of the preferences *)

Module PreferencesFacts.
Import Js Preferences.
Local Open Scope string_scope.

Lemma spread_defined (a b : object) (k : string) :
  a k <> None -> spread a b k <> None.
Proof. unfold spread. intros Ha. destruct (b k); [discriminate|exact Ha]. Qed.

Lemma spread_defined_r (a b : object) (k : string) :
  b k <> None -> spread a b k <> None.
Proof. unfold spread. intros Hb. destruct (b k); [discriminate|congruence]. Qed.

Lemma perform_complete parseInt (c : call) (preferences : object) :
  (forall k, default_key k -> preferences k <> None) ->
  forall k, default_key k -> perform parseInt c preferences k <> None.
Proof.
  intros Hp k Hk. destruct c as [[saved|]|newPreferences| |els];
    cbn [perform loadPreferences savePreferences resetToDefaults
         updatePreferencesFromUI].
  - apply spread_defined. exact Hk.
  - auto.
  - apply spread_defined. auto.
  - apply spread_defined_r. exact Hk.
  - apply spread_defined. auto.
Qed.

(** Whatever calls are made on a manager, in whatever order and with
    whatever the storage holds, every key of the default preferences stays
    defined in [this.preferences]: a partial or empty object from the
    storage, or from the caller, never loses a preference. *)
Theorem preferences_complete parseInt (calls : list call) (k : string) :
  default_key k -> session parseInt calls k <> None.
Proof.
  intros Hk. unfold session.
  assert (Hinit : forall k, default_key k -> constructor k <> None).
  { intros k' Hk'. unfold constructor. apply spread_defined_r. exact Hk'. }
  revert Hinit k Hk. generalize constructor.
  induction calls as [|c calls IH]; intros preferences Hp k Hk;
    cbn [fold_left].
  - auto.
  - apply IH; [|exact Hk]. apply perform_complete. exact Hp.
Qed.

(** The theme after loading an object that only has a length, then a
    reset. *)
Lemma preferences_complete_witness :
  default_key "theme"
  /\ session (fun _ => VNaN)
       [Load (Some (set "length" (VNumber 20) empty)); Reset] "theme"
     <> None.
Proof.
  assert (H : default_key "theme") by (unfold default_key; discriminate).
  split; [exact H|]. exact (preferences_complete _ _ "theme" H).
Defined.

(** A reset gives every default key its default value again, and leaves
    alone every other key that the storage or a caller had put there. *)
Theorem resetToDefaults_keys (preferences : object) (k : string) :
  (default_key k -> resetToDefaults preferences k = defaultPreferences k)
  /\ (~ default_key k -> resetToDefaults preferences k = preferences k).
Proof.
  unfold resetToDefaults, savePreferences, spread, default_key. split.
  - intros Hk. destruct (defaultPreferences k); [reflexivity|congruence].
  - intros Hk. destruct (defaultPreferences k); [|reflexivity].
    exfalso. apply Hk. discriminate.
Qed.

Lemma resetToDefaults_keys_witness :
  default_key "length"
  /\ ~ default_key "zoom"
  /\ resetToDefaults
       (set "zoom" (VNumber 2) (set "length" (VNumber 40) constructor))
       "length" = Some (VNumber 16)
  /\ resetToDefaults
       (set "zoom" (VNumber 2) (set "length" (VNumber 40) constructor))
       "zoom" = Some (VNumber 2).
Proof.
  assert (H1 : default_key "length") by (unfold default_key; discriminate).
  assert (H2 : ~ default_key "zoom")
    by (unfold default_key; intros H; apply H; reflexivity).
  split; [exact H1|]. split; [exact H2|]. split.
  - exact (proj1 (resetToDefaults_keys _ "length") H1).
  - exact (proj2 (resetToDefaults_keys _ "zoom") H2).
Defined.

(** The popup hands over no theme switcher and no auto-generate box, so
    [updatePreferencesFromUI] never changes the theme or the auto-generate
    preference.  The length becomes [parseInt] of the slider's value and
    the key of each of the five check boxes the state the box shows, when
    the element exists; the key of a missing element and every key that is
    no preference stay as they were.  The object returned is the new
    [this.preferences]. *)
Theorem updatePreferencesFromUI_keys parseInt
  (els : elements) (preferences : object) :
  themeSwitcher els = None -> autoGenerateCheckbox els = None ->
  let updated := updatePreferencesFromUI parseInt els preferences in
  let shown := fun (element : option bool) (key : string) =>
    updated key = match element with
                  | Some b => Some (VBool b)
                  | None => preferences key
                  end in
  updated "theme" = preferences "theme"
  /\ updated "autoGenerate" = preferences "autoGenerate"
  /\ updated "length" = match lengthSlider els with
                        | Some v => Some (parseInt v)
                        | None => preferences "length"
                        end
  /\ shown (uppercaseCheckbox els) "uppercase"
  /\ shown (lowercaseCheckbox els) "lowercase"
  /\ shown (numbersCheckbox els) "numbers"
  /\ shown (symbolsCheckbox els) "symbols"
  /\ shown (excludeSimilarCheckbox els) "excludeSimilar"
  /\ (forall k, ~ default_key k -> updated k = preferences k).
Proof.
  intros Ht Ha. cbv zeta.
  unfold updatePreferencesFromUI, savePreferences, updatedPrefs, spread.
  rewrite Ht, Ha.
  split; [|split; [|split; [|split; [|split; [|split; [|split; [|split]]]]]]].
  1-8: destruct (lengthSlider els), (uppercaseCheckbox els),
         (lowercaseCheckbox els), (numbersCheckbox els),
         (symbolsCheckbox els), (excludeSimilarCheckbox els); reflexivity.
  intros k Hk. unfold default_key, defaultPreferences, set in Hk.
  assert (Hkeys :
    String.eqb k "excludeSimilar" = false /\ String.eqb k "symbols" = false
    /\ String.eqb k "numbers" = false /\ String.eqb k "lowercase" = false
    /\ String.eqb k "uppercase" = false /\ String.eqb k "length" = false).
  { destruct (String.eqb k "autoGenerate");
      [exfalso; apply Hk; discriminate|].
    destruct (String.eqb k "theme"); [exfalso; apply Hk; discriminate|].
    destruct (String.eqb k "excludeSimilar");
      [exfalso; apply Hk; discriminate|].
    destruct (String.eqb k "symbols"); [exfalso; apply Hk; discriminate|].
    destruct (String.eqb k "numbers"); [exfalso; apply Hk; discriminate|].
    destruct (String.eqb k "lowercase"); [exfalso; apply Hk; discriminate|].
    destruct (String.eqb k "uppercase"); [exfalso; apply Hk; discriminate|].
    destruct (String.eqb k "length"); [exfalso; apply Hk; discriminate|].
    repeat split. }
  destruct Hkeys as [E1 [E2 [E3 [E4 [E5 E6]]]]].
  destruct (lengthSlider els), (uppercaseCheckbox els),
    (lowercaseCheckbox els), (numbersCheckbox els),
    (symbolsCheckbox els), (excludeSimilarCheckbox els);
    cbn [set_if]; unfold set, empty;
    rewrite ?E1, ?E2, ?E3, ?E4, ?E5, ?E6; reflexivity.
Qed.

(** The popup with the numbers and the symbols unchecked, on a new
    manager. *)
Lemma updatePreferencesFromUI_keys_witness :
  updatePreferencesFromUI (fun _ => VNumber 24)
    (mkElements (Some (lit "24")) (Some true) (Some true) (Some false)
       (Some false) (Some true) None None)
    constructor "theme"
  = Some (VString "dark")
  /\ updatePreferencesFromUI (fun _ => VNumber 24)
       (mkElements (Some (lit "24")) (Some true) (Some true) (Some false)
          (Some false) (Some true) None None)
       constructor "numbers"
     = Some (VBool false).
Proof.
  pose proof (updatePreferencesFromUI_keys (fun _ => VNumber 24)
                (mkElements (Some (lit "24")) (Some true) (Some true)
                   (Some false) (Some false) (Some true) None None)
                constructor eq_refl eq_refl) as H.
  cbv zeta in H. destruct H as [Htheme [_ [_ [_ [_ [Hnumbers _]]]]]].
  split; [exact Htheme|exact Hnumbers].
Defined.

End PreferencesFacts.

(** ** Properties of the popup's check boxes *)

Module AppFacts.
Import Js App.

Lemma click_some_class (b : box) (s : ui) :
  some_class s -> some_class (fst (click b s)).
Proof.
  unfold some_class, click, onChange.
  destruct s as [l u lo n sy e], b; cbn;
    destruct u, lo, n, sy; cbn; intuition discriminate.
Qed.

(** From a popup with a character class checked, no series of clicks on
    the five boxes leaves all four classes unchecked. *)
Theorem clicks_keep_class (boxes : list box) (s : ui) :
  some_class s -> some_class (clicks boxes s).
Proof.
  unfold clicks. revert s.
  induction boxes as [|b boxes IH]; intros s Hs; cbn [fold_left].
  - exact Hs.
  - apply IH. apply click_some_class. exact Hs.
Qed.

Lemma clicks_keep_class_witness :
  some_class (mkUi 16 false true false false false)
  /\ some_class
       (clicks [lowercaseCheckbox; excludeSimilarCheckbox; numbersCheckbox;
                lowercaseCheckbox; numbersCheckbox]
          (mkUi 16 false true false false false)).
Proof.
  assert (H : some_class (mkUi 16 false true false false false))
    by (right; left; reflexivity).
  split; [exact H|]. exact (clicks_keep_class _ _ H).
Defined.

(** A click on a popup with a character class checked either is undone,
    with the tooltip, and then the box clicked was the only class checked;
    or it flips the box and a password is generated from what the popup
    shows, with a class enabled. *)
Theorem click_reaction (b : box) (s : ui) :
  some_class s ->
  match click b s with
  | (s', ShowTooltip) =>
      s' = s /\ checked b s = true /\ b <> excludeSimilarCheckbox
      /\ forall b', b' <> b -> b' <> excludeSimilarCheckbox ->
                    checked b' s = false
  | (s', Generate options) =>
      s' = set_checked b (negb (checked b s)) s
      /\ options = optionsOf s'
      /\ exists charSet, Spec.enabled options charSet
  end.
Proof.
  unfold some_class, click, onChange, Spec.enabled.
  destruct s as [l u lo n sy e], b; cbn;
    destruct u, lo, n, sy; cbn; intros Hs;
    try (exfalso; intuition discriminate);
    try (split; [reflexivity|split; [reflexivity|]];
         first [ exists Generator.uppercaseChars; left; split; reflexivity
               | exists Generator.lowercaseChars; right; left; split;
                 reflexivity
               | exists Generator.numberChars; right; right; left; split;
                 reflexivity
               | exists Generator.symbolChars; right; right; right; split;
                 reflexivity ]);
    (split; [reflexivity|split; [reflexivity|split; [discriminate|]]];
     intros b' Hb He; destruct b'; try reflexivity; congruence).
Qed.

Lemma click_reaction_witness :
  some_class (mkUi 16 false false true false true)
  /\ click numbersCheckbox (mkUi 16 false false true false true)
     = (mkUi 16 false false true false true, ShowTooltip).
Proof.
  assert (H : some_class (mkUi 16 false false true false true))
    by (right; right; left; reflexivity).
  split; [exact H|].
  pose proof (click_reaction numbersCheckbox _ H) as Hr.
  destruct (click numbersCheckbox (mkUi 16 false false true false true))
    as [s' [|o]] eqn:Hc.
  - destruct Hr as [-> _]. reflexivity.
  - discriminate Hc.
Defined.

End AppFacts.

(** ** The generator's passwords under the analyzer *)

Module PipelineFacts.
Import Js Generator Spec.
Local Open Scope Z_scope.

Lemma alnum_class (o : options) (charSet : jsstring) :
  symbols o = false -> enabled o charSet -> forallb isAlnum charSet = true.
Proof.
  intros Hs [[_ ->]|[[_ ->]|[[_ ->]|[Hsy _]]]];
    [vm_compute; reflexivity .. | congruence].
Qed.

Lemma alnum_alphabet (o : options) (c : ascii) :
  symbols o = false -> in_alphabet o c -> isAlnum c = true.
Proof.
  intros Hs [[[charSet [Hen Hin]] _]|[_ Hin]].
  - pose proof (alnum_class o charSet Hs Hen) as Hall.
    rewrite forallb_forall in Hall. auto.
  - assert (Hall : forallb isAlnum (lowercaseChars ++ numberChars) = true)
      by (vm_compute; reflexivity).
    rewrite forallb_forall in Hall. auto.
Qed.

(** With the symbols off, every password that [generatePassword] returns
    for a positive length is reported by the analyzer as having a common
    pattern: it is letters and digits only, which [/^[a-z0-9]+$/i]
    matches, so the entropy loses a fifth of a bit for every character. *)
Theorem generated_without_symbols_is_common
  rng fuel (o : options) pos r pos' :
  1 <= length o -> symbols o = false ->
  generatePassword rng fuel o pos = Ok r pos' ->
  Analyzer.hasCommonPatterns (Analyzer.analyzePassword r o) = true
  /\ Analyzer.patternPenalty r = (IZR (length o) * (2 / 10))%R.
Proof.
  intros Hlen Hs Hg.
  destruct (GeneratorFacts.generatePassword_ok rng fuel o pos r pos' Hlen Hg)
    as [Hl Hf].
  assert (Hc : Analyzer.checkForCommonPatterns r = true).
  { rewrite AnalyzerMore.checkForCommonPatterns_three.
    assert (Ha : Analyzer.pattern_alnum r = true).
    { unfold Analyzer.pattern_alnum. apply andb_true_intro. split.
      - destruct r; [unfold len in Hl; cbn in Hl; lia|reflexivity].
      - apply forallb_forall. intros c Hc.
        rewrite Forall_forall in Hf. apply (alnum_alphabet o c Hs). auto. }
    rewrite Ha. reflexivity. }
  split.
  - exact Hc.
  - unfold Analyzer.patternPenalty. rewrite Hc. unfold Analyzer.len.
    unfold len in Hl. rewrite Hl. reflexivity.
Qed.

Lemma generated_without_symbols_is_common_witness :
  1 <= length (mkOptions 8 true true true false false)
  /\ symbols (mkOptions 8 true true true false false) = false
  /\ generatePassword (fun _ => 0) 1%nat
       (mkOptions 8 true true true false false) 0%nat
     = Ok (lit "0AAAAAAA") 12%nat
  /\ Analyzer.hasCommonPatterns
       (Analyzer.analyzePassword (lit "0AAAAAAA")
          (mkOptions 8 true true true false false)) = true.
Proof.
  assert (H1 : 1 <= length (mkOptions 8 true true true false false))
    by (cbn; lia).
  assert (H2 : generatePassword (fun _ => 0) 1%nat
                 (mkOptions 8 true true true false false) 0%nat
               = Ok (lit "0AAAAAAA") 12%nat)
    by (vm_compute; reflexivity).
  split; [exact H1|]. split; [reflexivity|]. split; [exact H2|].
  exact (proj1 (generated_without_symbols_is_common _ _ _ _ _ _
                  H1 eq_refl H2)).
Defined.

End PipelineFacts.
